(** * ZW parser and JSON-to-ZW serializer: a shallow embedding

    The development follows the two TypeScript modules of the repository:
    [zwParser] ([getIndentation], [parseZW]) and [jsonToZw]
    ([convertValueToZw], [convertObjectToZwItems], [convertJsonToZwString]).

    JavaScript strings are sequences of UTF-16 code units; they are modelled
    as [list N].  The objects [parseZW] allocates and mutates through the
    aliases held in its stack live in an explicit store, addressed by
    references. *)

From Stdlib Require Import List ZArith NArith QArith Qminmax Bool Lia.
From Stdlib Require Import Ascii String DecimalString.
From stdpp Require Import base list.
Import ListNotations.

Set Default Proof Using "Type".
Set Warnings "-register-all".
Local Open Scope N_scope.

(** ** JavaScript strings *)

Module JsString.

Definition jsstring := list N.

(** [u "text"] is the string of the code units of an ASCII literal. *)
Definition u (s : string) : jsstring :=
  map N_of_ascii (list_ascii_of_string s).

Definition LF : N := 10.
Definition QUOTE : N := 34.
Definition BACKSLASH : N := 92.

Fixpoint eqb (a b : jsstring) : bool :=
  match a, b with
  | [], [] => true
  | x :: a', y :: b' => (x =? y) && eqb a' b'
  | _, _ => false
  end.

(** ECMAScript WhiteSpace and LineTerminator code points: the class of
    [String.prototype.trim] and of the regular-expression escape [\s]. *)
Definition isWhiteSpace (c : N) : bool :=
  ((9 <=? c) && (c <=? 13)) || (c =? 32) || (c =? 160) || (c =? 5760)
  || ((8192 <=? c) && (c <=? 8202)) || (c =? 8232) || (c =? 8233)
  || (c =? 8239) || (c =? 8287) || (c =? 12288) || (c =? 65279).

(** LineTerminator: what the regular-expression dot refuses. *)
Definition isLineTerminator (c : N) : bool :=
  (c =? 10) || (c =? 13) || (c =? 8232) || (c =? 8233).

Definition isDigit (c : N) : bool := (48 <=? c) && (c <=? 57).
Definition isUpper (c : N) : bool := (65 <=? c) && (c <=? 90).
Definition isLower (c : N) : bool := (97 <=? c) && (c <=? 122).

Fixpoint takeWhile (p : N -> bool) (s : jsstring) : jsstring :=
  match s with
  | c :: s' => if p c then c :: takeWhile p s' else []
  | [] => []
  end.

Fixpoint dropWhile (p : N -> bool) (s : jsstring) : jsstring :=
  match s with
  | c :: s' => if p c then dropWhile p s' else s
  | [] => []
  end.

Definition trimStart (s : jsstring) : jsstring := dropWhile isWhiteSpace s.
Definition trimEnd (s : jsstring) : jsstring := rev (dropWhile isWhiteSpace (rev s)).
Definition trim (s : jsstring) : jsstring := trimEnd (trimStart s).

Fixpoint startsWith (p s : jsstring) : bool :=
  match p, s with
  | [], _ => true
  | x :: p', y :: s' => (x =? y) && startsWith p' s'
  | _ :: _, [] => false
  end.

Definition endsWith (p s : jsstring) : bool := startsWith (rev p) (rev s).

(** [s.substring(n)] and [s.substring(0, n)] for [n] within the string. *)
Definition substringFrom (n : nat) (s : jsstring) : jsstring := skipn n s.
Definition substringTo (n : nat) (s : jsstring) : jsstring := firstn n s.

(** [s.split(sep)] for a one-unit separator: never the empty list. *)
Fixpoint split (sep : N) (s : jsstring) : list jsstring :=
  match s with
  | [] => [[]]
  | c :: s' =>
      if c =? sep then [] :: split sep s'
      else match split sep s' with
           | l :: ls => (c :: l) :: ls
           | [] => [[c]]
           end
  end.

(** [parts.join(sep)]. *)
Fixpoint join (sep : jsstring) (parts : list jsstring) : jsstring :=
  match parts with
  | [] => []
  | [p] => p
  | p :: ps => p ++ sep ++ join sep ps
  end.

(** [' '.repeat(n)]. *)
Definition spaces (n : nat) : jsstring := repeat 32 n.

(** [s.includes(c)] for a one-unit needle. *)
Definition includes (c : N) (s : jsstring) : bool := existsb (N.eqb c) s.

(** [s.toLowerCase()] on the ASCII letters.  Units outside ASCII are left
    alone: none of them lower-cases to a letter of the three words the
    serializer compares the result with. *)
Definition toLowerCase (s : jsstring) : jsstring :=
  map (fun c => if isUpper c then c + 32 else c) s.

(** A text between double quotes. *)
Definition quoted (s : jsstring) : jsstring := [QUOTE] ++ s ++ [QUOTE].

(** A document written line by line. *)
Definition doc (ls : list string) : jsstring := join [LF] (map u ls).

End JsString.
Import JsString.

(** ** The parser: [zwParser] *)

Module ZwParser.

(** *** Line-level functions *)

(** [getIndentation]: the length of the leading run of [\s] characters
    (the match of the anchored pattern [^ \s*]). *)
Definition getIndentation (line : jsstring) : nat :=
  length (takeWhile isWhiteSpace line).

(** [Math.max(1, currentIndent / 2)].  The division is JavaScript's [/] on
    numbers, which does not truncate; halves are exact in binary floating
    point, so the value is the rational [currentIndent / 2].  It is kept in
    lowest terms, so that equal numbers are equal terms. *)
Definition lineDepth (currentIndent : nat) : Q :=
  Qred (Qmax 1 (inject_Z (Z.of_nat currentIndent) / 2)).

(** [a > b] on numbers. *)
Definition Qgtb (a b : Q) : bool := negb (Qle_bool a b).

(** [[a-zA-Z0-9_-]]: the tag of a code fence, and (with the [i] flag of
    [rootLineRegex]) the characters of the root type. *)
Definition isRootKeyChar (c : N) : bool :=
  isUpper c || isLower c || isDigit c || (c =? 95) || (c =? 45).

(** [[A-Za-z0-9_]]: the characters of a section, leaf or list-item key. *)
Definition isKeyChar (c : N) : bool :=
  isUpper c || isLower c || isDigit c || (c =? 95).

(** Group 1 of [codeFenceRegex],
    [/^```(?:[a-zA-Z0-9_-]+)?\s*\n?([\s\S]*?)\s*\n?```$/], on the trimmed
    input.  The pattern is anchored at both ends, so the input opens and
    closes with three backticks that do not overlap.  The tag and the
    whitespace after it are greedy and cannot run into a backtick, so the
    first attempt of the matcher already succeeds; the lazy group then
    stops as soon as only whitespace separates it from the closing fence.
    The group is therefore the text between the fences without the tag and
    without surrounding whitespace. *)
Definition codeFenceMatch (s : jsstring) : option jsstring :=
  if startsWith (u "```") s && endsWith (u "```") s && (6 <=? length s)%nat
  then Some (trim (dropWhile isRootKeyChar
                     (firstn (length s - 6) (skipn 3 s))))
  else None.

(** Group 1 of [rootLineRegex]: the pattern [^( K+ (?:-K+)* )] followed by
    the colon, [\s*] and the end, under the flag [i], with [K] the class
    [[A-Z0-9_-]].  The colon is literal: the delimiter option plays no part
    on the root line.  A colon is not a key character, so the key is the
    whole leading run of key characters. *)
Definition rootLineMatch (line : jsstring) : option jsstring :=
  match takeWhile isRootKeyChar line, dropWhile isRootKeyChar line with
  | (_ :: _) as key, c :: rest =>
      if (c =? 58) && forallb isWhiteSpace rest then Some key else None
  | _, _ => None
  end.

(** The common head [^([A-Za-z0-9_]+)<delimiter>] of the three child
    patterns; [escapeRegExp] makes the delimiter match as the literal text
    it is.  The key is greedy; a delimiter that begins with key
    characters makes the matcher give characters back, so the candidate
    keys are tried from the longest (the first [n] characters) down to one
    character, and the first whose continuation [tail] accepts the rest
    wins. *)
Fixpoint matchKeyed {A} (n : nat) (delimiter line : jsstring)
    (tail : jsstring -> option A) : option (jsstring * A) :=
  match n with
  | O => None
  | S m =>
      let attempt :=
        if startsWith delimiter (skipn n line)
        then tail (skipn (n + length delimiter) line) else None in
      match attempt with
      | Some a => Some (firstn n line, a)
      | None => matchKeyed m delimiter line tail
      end
  end.

Definition keyRun (line : jsstring) : nat := length (takeWhile isKeyChar line).

(** [\s*$]. *)
Definition sectionTail (rest : jsstring) : option unit :=
  if forallb isWhiteSpace rest then Some tt else None.

(** [\s*] followed by the group [.*] and the end: the dot stops at a line
    terminator, so the text after the leading whitespace must hold none;
    it is group 2. *)
Definition keyValueTail (rest : jsstring) : option jsstring :=
  let v := dropWhile isWhiteSpace rest in
  if existsb isLineTerminator v then None else Some v.

(** [sectionRegex], [^([A-Za-z0-9_]+)<delimiter>\s*$]: group 1. *)
Definition sectionMatch (delimiter line : jsstring) : option jsstring :=
  option_map fst (matchKeyed (keyRun line) delimiter line sectionTail).

(** [keyValueRegex] and [listItemKvRegex],
    [^([A-Za-z0-9_]+)<delimiter>\s*] followed by the group [.*] and the
    end: groups 1 and 2. *)
Definition keyValueMatch (delimiter line : jsstring)
  : option (jsstring * jsstring) :=
  matchKeyed (keyRun line) delimiter line keyValueTail.

(** The filter of [semanticLines]. *)
Definition isSemantic (line : jsstring) : bool :=
  let trimmed := trim line in
  negb (eqb trimmed []) && negb (startsWith (u "#") trimmed).

(** [processedZwString]: the trimmed input, with one enclosing code fence
    removed when its content is not empty. *)
Definition preprocess (zwString : jsstring) : jsstring :=
  let processed := trim zwString in
  match codeFenceMatch processed with
  | Some ((_ :: _) as inner) => trim inner
  | _ => processed
  end.

Definition semanticLines (processed : jsstring) : list jsstring :=
  List.filter isSemantic (split LF processed).

(** *** The store *)

(** References are positions in the store. *)
Abbreviation ref := nat (only parsing).

(** The [value] field: absent, a string, or an array of references. *)
Inductive Value :=
| VUndefined
| VString (s : jsstring)
| VArray (elems : list ref).

(** An object of the store is a [ZWNode] or a [ZWListItem]. *)
Inductive Obj :=
| ONode (key : jsstring) (value : Value) (depth : Q)
        (delimiter : option jsstring)
| OItem (value : Value) (isKeyValue : option bool)
        (itemKey : option jsstring) (depth : Q) (delimiter : jsstring).

Abbreviation Heap := (list Obj) (only parsing).

Definition objValue (o : Obj) : Value :=
  match o with
  | ONode _ v _ _ => v
  | OItem v _ _ _ _ => v
  end.

Definition setValue (v : Value) (o : Obj) : Obj :=
  match o with
  | ONode k _ d dl => ONode k v d dl
  | OItem _ kv ik d dl => OItem v kv ik d dl
  end.

Definition objDepth (o : Obj) : Q :=
  match o with
  | ONode _ _ d _ => d
  | OItem _ _ _ d _ => d
  end.

(** An object literal is evaluated: the fresh object gets the next
    reference. *)
Definition alloc (h : Heap) (o : Obj) : Heap * ref := (h ++ [o], length h).

(** The loop state: the store and the stack of open nodes, top first. *)
Record State := mkState { heap : Heap; stack : list ref }.

(** The [while (stack.length > 1)] loop: the top is popped unless the
    line is strictly deeper.  [None] is a read through a dangling or
    ill-typed reference, which the invariant of the loop excludes. *)
Fixpoint popStack (h : Heap) (depth : Q) (stk : list ref)
  : option (list ref) :=
  match stk with
  | top :: (_ :: _) as below =>
      match h !! top with
      | Some (ONode _ _ d _) =>
          if Qgtb depth d then Some stk else popStack h depth below
      | _ => None
      end
  | _ => Some stk
  end.

(** [if (parentNode.value === undefined || typeof parentNode.value ===
    'string') parentNode.value = []], and the later
    [if (!Array.isArray(parentNode.value)) parentNode.value = []]. *)
Definition ensureArray (h : Heap) (parent : ref) : Heap :=
  match h !! parent with
  | Some o =>
      match objValue o with
      | VArray _ => h
      | _ => <[parent := setValue (VArray []) o]> h
      end
  | None => h
  end.

(** [(parentNode.value as T[]).push(child)]. *)
Definition pushChild (h : Heap) (parent : ref) (child : Obj)
  : option (Heap * ref) :=
  match h !! parent with
  | Some o =>
      match objValue o with
      | VArray elems =>
          let '(h', r) := alloc h child in
          Some (<[parent := setValue (VArray (elems ++ [r])) o]> h', r)
      | _ => None
      end
  | None => None
  end.

(** The continuation branch: [lastChild.value += `\n${line.substring(
    currentIndent)}`] when the parent has children and the last one holds
    a string; nothing otherwise. *)
Definition appendToLastChild (h : Heap) (parent : ref)
    (line : jsstring) (currentIndent : nat) : option Heap :=
  match h !! parent with
  | Some o =>
      match objValue o with
      | VArray elems =>
          match last elems with
          | Some r =>
              match h !! r with
              | Some c =>
                  match objValue c with
                  | VString s =>
                      Some (<[r := setValue
                                (VString (s ++ [LF] ++
                                          substringFrom currentIndent line)) c]> h)
                  | _ => Some h
                  end
              | None => None
              end
          | None => Some h
          end
      | _ => Some h
      end
  | None => None
  end.

(** One iteration of the [for] loop over the semantic lines after the
    root. *)
Definition processLine (effectiveDelimiter : jsstring) (st : State)
    (line : jsstring) : option State :=
  let trimmedLine := trim line in
  let currentIndent := getIndentation line in
  let depth := lineDepth currentIndent in
  match popStack (heap st) depth (stack st) with
  | Some ((parentNode :: _) as stk) =>
      let h := ensureArray (heap st) parentNode in
      if startsWith (u "- ") trimmedLine then
        let itemContent := trim (substringFrom 2 trimmedLine) in
        let h := ensureArray h parentNode in
        let listItem :=
          match keyValueMatch effectiveDelimiter itemContent with
          | Some (k, v) => OItem (VString v) (Some true) (Some k) depth
                                 effectiveDelimiter
          | None => OItem (VString itemContent) None None depth
                          effectiveDelimiter
          end in
        match pushChild h parentNode listItem with
        | Some (h', _) => Some (mkState h' stk)
        | None => None
        end
      else
        let h := ensureArray h parentNode in
        match sectionMatch effectiveDelimiter trimmedLine with
        | Some k =>
            let newNode := ONode k (VArray []) depth (Some effectiveDelimiter) in
            match pushChild h parentNode newNode with
            | Some (h', r) => Some (mkState h' (r :: stk))
            | None => None
            end
        | None =>
            match keyValueMatch effectiveDelimiter trimmedLine with
            | Some (k, v) =>
                let newNode := ONode k (VString v) depth
                                     (Some effectiveDelimiter) in
                match pushChild h parentNode newNode with
                | Some (h', _) => Some (mkState h' stk)
                | None => None
                end
            | None =>
                match trimmedLine with
                | _ :: _ =>
                    match appendToLastChild h parentNode line currentIndent with
                    | Some h' => Some (mkState h' stk)
                    | None => None
                    end
                | [] => Some (mkState h stk)
                end
            end
        end
  | _ => None
  end.

Fixpoint processLines (effectiveDelimiter : jsstring) (st : State)
    (lines : list jsstring) : option State :=
  match lines with
  | [] => Some st
  | line :: rest =>
      match processLine effectiveDelimiter st line with
      | Some st' => processLines effectiveDelimiter st' rest
      | None => None
      end
  end.

(** [options?.delimiter || ':']: an absent or empty option gives the
    colon. *)
Definition effectiveDelimiterOf (options : option jsstring) : jsstring :=
  match options with
  | Some ((_ :: _) as d) => d
  | _ => u ":"
  end.

Definition errorKey : jsstring := u "Error: Invalid Root".

Definition errorValue (rootLineContent : jsstring) : jsstring :=
  u "Packet must start with a ZW Type declaration on its own line (e.g., ZW-REQUEST:). The first significant line found was: "
  ++ [QUOTE] ++ substringTo 70 rootLineContent
  ++ (if (70 <? length rootLineContent)%nat then u "..." else [])
  ++ [QUOTE]
  ++ u ". It did not match the expected format. Common issues: text after the colon on the root line, or missing root type.".

(** What a call of [parseZW] does: it returns [null], returns a reference
    to a node of the store it built, or throws. *)
Inductive Outcome :=
| Null
| Returned (h : Heap) (r : ref)
| Threw.

Definition initialState (rootKey effectiveDelimiter : jsstring) : State :=
  mkState [ONode rootKey (VArray []) 0 (Some effectiveDelimiter)] [0%nat].

Definition parseZW (zwString : jsstring) (options : option jsstring)
  : Outcome :=
  let processedZwString := preprocess zwString in
  match processedZwString with
  | [] => Null
  | _ :: _ =>
      match semanticLines processedZwString with
      | [] => Null
      | rootLineContent :: rest =>
          match rootLineMatch rootLineContent with
          | None =>
              Returned [ONode errorKey (VString (errorValue rootLineContent))
                              0 None] 0%nat
          | Some rootKey =>
              let effectiveDelimiter := effectiveDelimiterOf options in
              match processLines effectiveDelimiter
                      (initialState rootKey effectiveDelimiter) rest with
              | Some st => Returned (heap st) 0%nat
              | None => Threw
              end
          end
      end
  end.

(** *** The tree a caller sees *)

(** [ZWNode] and [ZWListItem] as the interfaces declare them; an array may
    mix both, since the parser pushes nodes and items into the same
    [value]. *)
Inductive ZWNode :=
| Node (key : jsstring) (value : ZWValue) (depth : Q)
       (delimiter : option jsstring)
with ZWValue :=
| Undefined
| Scalar (s : jsstring)
| Children (elems : list ZWChild)
with ZWChild :=
| ChildNode (n : ZWNode)
| ChildItem (i : ZWListItem)
with ZWListItem :=
| Item (value : ZWValue) (isKeyValue : option bool)
       (itemKey : option jsstring) (depth : Q) (delimiter : jsstring).

Definition nodeKey (n : ZWNode) : jsstring :=
  match n with Node k _ _ _ => k end.
Definition nodeValue (n : ZWNode) : ZWValue :=
  match n with Node _ v _ _ => v end.

(** Reading every element of an array, failing if one fails. *)
Fixpoint readAll (rd : ref -> option ZWChild) (rs : list ref)
  : option (list ZWChild) :=
  match rs with
  | [] => Some []
  | r :: rs' =>
      match rd r, readAll rd rs' with
      | Some c, Some cs => Some (c :: cs)
      | _, _ => None
      end
  end.

Definition readValue (rd : ref -> option ZWChild) (v : Value)
  : option ZWValue :=
  match v with
  | VUndefined => Some Undefined
  | VString s => Some (Scalar s)
  | VArray elems => option_map Children (readAll rd elems)
  end.

(** Following the references from [r]; [fuel] bounds the nesting. *)
Fixpoint readChild (fuel : nat) (h : Heap) (r : ref) : option ZWChild :=
  match fuel with
  | O => None
  | S fuel' =>
      match h !! r with
      | Some (ONode k v d dl) =>
          option_map (fun v' => ChildNode (Node k v' d dl))
                     (readValue (readChild fuel' h) v)
      | Some (OItem v kv ik d dl) =>
          option_map (fun v' => ChildItem (Item v' kv ik d dl))
                     (readValue (readChild fuel' h) v)
      | None => None
      end
  end.

(** The node a returned reference denotes. *)
Definition readNode (h : Heap) (r : ref) : option ZWNode :=
  match readChild (length h) h r with
  | Some (ChildNode n) => Some n
  | _ => None
  end.

(** The result of [parseZW] as a value: [None] stands for a throw,
    [Some None] for [null]. *)
Definition parseTree (zwString : jsstring) (options : option jsstring)
  : option (option ZWNode) :=
  match parseZW zwString options with
  | Null => Some None
  | Returned h r => option_map Some (readNode h r)
  | Threw => None
  end.

(** The test the callers apply to a returned node:
    [parsedRoot.key.startsWith('Error:')]. *)
Definition isErrorNode (n : ZWNode) : bool := startsWith (u "Error:") (nodeKey n).

End ZwParser.
Import ZwParser.


(** ** The serializer: [jsonToZw] *)

Module JsonToZw.

(** A value as [JSON.parse] returns it.  The properties of an object are
    listed in the order [for (const key in obj)] visits them; all are own
    properties.

    A number is a double.  [JNumber z] is the integer [z] of magnitude
    below [2^53]: each of these is a double, and [String] prints it as its
    decimal numeral.  Every other number (a fraction such as [1.5], or a
    number of magnitude [2^53] or more, which [String] prints from its
    shortest round-trip digits, [123456789012345680000], and in exponent
    notation from [10^21] on, [1e+21]) is [JNumberPrinted text], given by
    the text [String] prints for it: the serializer asks [typeof] and
    [String] of a number and nothing else. *)
Inductive JsonValue :=
| JNull
| JBool (b : bool)
| JNumber (z : Z)
| JNumberPrinted (text : jsstring)
| JString (s : jsstring)
| JArray (items : list JsonValue)
| JObject (props : list (jsstring * JsonValue)).

(** The integers [JNumber] stands for: [Number.isSafeInteger]. *)
Definition isSafeInteger (z : Z) : bool := (Z.abs z <? 2 ^ 53)%Z.

Definition JSON_TO_ZW_INDENT_SPACES : nat := 2.

Definition formatZwKey (key : jsstring) : jsstring := key.

(** [String(value)] on a safe integer: its decimal numeral, with a minus
    sign when it is negative. *)
Definition numberToString (z : Z) : jsstring :=
  u (NilZero.string_of_int (Z.to_int z)).

(** [value.replace(/"/g, '\\"')]: a backslash before every quote. *)
Definition escapeQuotes (value : jsstring) : jsstring :=
  flat_map (fun c => if c =? QUOTE then [BACKSLASH; QUOTE] else [c]) value.

(** What [Number(value)] is, as far as no rounding is involved.  After
    trimming, the empty string is zero and an optionally signed run of at
    most fifteen digits is that integer, exactly.  A string holding a
    character that occurs in no numeric literal (digits, hexadecimal
    letters, the radix letters, sign, point, exponent letter and the
    letters of the word Infinity) is NaN.  Everything else (fractions,
    exponents, radix prefixes, long digit runs, malformed literals over
    the numeric alphabet) is left to the engine. *)
Inductive NumberView :=
| NotANumber
| Integer (z : Z)
| EngineDefined.

Definition isNumericLiteralChar (c : N) : bool :=
  isDigit c || ((97 <=? c) && (c <=? 102)) || ((65 <=? c) && (c <=? 70))
  || (c =? 120) || (c =? 88) || (c =? 111) || (c =? 79)
  || (c =? 43) || (c =? 45) || (c =? 46)
  || (c =? 73) || (c =? 110) || (c =? 105) || (c =? 116) || (c =? 121).

Definition digitsValue (digits : jsstring) : Z :=
  fold_left (fun acc c => (10 * acc + Z.of_N (c - 48))%Z) digits 0%Z.

Definition viewNumber (value : jsstring) : NumberView :=
  match trim value with
  | [] => Integer 0
  | (c :: rest) as t =>
      let '(negative, digits) :=
        if c =? 45 then (true, rest)
        else if c =? 43 then (false, rest) else (false, t) in
      match digits with
      | _ :: _ =>
          if forallb isDigit digits && (length digits <=? 15)%nat
          then Integer (if negative then - digitsValue digits
                        else digitsValue digits)%Z
          else if forallb isNumericLiteralChar t then EngineDefined
               else NotANumber
      | [] => EngineDefined
      end
  end.

Section Engine.

(** The two services of the JavaScript engine that are not computed here:
    [JSON.parse], which returns a value or throws a [SyntaxError] with a
    message, and the answer to
    [!isNaN(Number(value)) && String(Number(value)) === value] on the
    strings whose numeric value involves binary rounding.  (What [String]
    prints for a number that is no safe integer comes with the value
    [JSON.parse] returns, as [JNumberPrinted].) *)
Variable JSON_parse : jsstring -> JsonValue + jsstring.
Variable engineRoundTrip : jsstring -> bool.

(** [!isNaN(Number(value)) && String(Number(value)) === value]. *)
Definition numericRoundTrip (value : jsstring) : bool :=
  match viewNumber value with
  | NotANumber => false
  | Integer z => eqb (numberToString z) value
  | EngineDefined => engineRoundTrip value
  end.

Definition isPotentiallyAmbiguous (value : jsstring) : bool :=
  let lowerVal := toLowerCase value in
  eqb lowerVal (u "true") || eqb lowerVal (u "false")
  || eqb lowerVal (u "null")
  || (negb (eqb value []) && numericRoundTrip value).

(** The string branch of [convertValueToZw]. *)
Definition convertStringToZw (value : jsstring) (indent : jsstring)
  : jsstring :=
  if eqb value [] then quoted []
  else if isPotentiallyAmbiguous value
  then quoted (escapeQuotes value)
  else if includes LF value
  then join [LF]
         (imap (fun index line =>
                  match index with O => line | S _ => indent ++ line end)
               (split LF value))
  else value.

Definition isNonEmptyContainer (value : JsonValue) : bool :=
  match value with
  | JObject (_ :: _) | JArray (_ :: _) => true
  | _ => false
  end.

Section ObjectItems.

(** The body of [convertObjectToZwItems], over the function it calls on
    the property values. *)
Variable convertValue : JsonValue -> nat -> jsstring.

Fixpoint objectLines (props : list (jsstring * JsonValue))
    (currentIndentLevel : nat) (isChildOfListItem firstKey : bool)
  : list jsstring :=
  match props with
  | [] => []
  | (key, value) :: rest =>
      let indent := spaces (currentIndentLevel * JSON_TO_ZW_INDENT_SPACES) in
      let formattedKey := formatZwKey key in
      let lineStartIndent :=
        if isChildOfListItem && firstKey then [] else indent in
      (if isNonEmptyContainer value
       then [lineStartIndent ++ formattedKey ++ u ":";
             convertValue value (currentIndentLevel + 1)%nat]
       else [lineStartIndent ++ formattedKey ++ u ": "
             ++ convertValue value currentIndentLevel])
      ++ objectLines rest currentIndentLevel isChildOfListItem false
  end.

End ObjectItems.

Fixpoint convertValueToZw (value : JsonValue) (currentIndentLevel : nat)
  {struct value} : jsstring :=
  let indent := spaces (currentIndentLevel * JSON_TO_ZW_INDENT_SPACES) in
  match value with
  | JNull => u "null"
  | JString s => convertStringToZw s indent
  | JNumber z => numberToString z
  | JNumberPrinted text => text
  | JBool b => if b then u "true" else u "false"
  | JArray [] => u "[] # Empty list"
  | JArray items =>
      join [LF]
        (map (fun item =>
                let itemIndent :=
                  spaces ((currentIndentLevel + 1) * JSON_TO_ZW_INDENT_SPACES) in
                match item with
                | JObject props =>
                    let itemObjectLines :=
                      split LF
                        (join [LF]
                           (objectLines convertValueToZw props
                              (currentIndentLevel + 1)%nat true true)) in
                    indent ++ u "- " ++ join ([LF] ++ itemIndent) itemObjectLines
                | _ =>
                    indent ++ u "- "
                    ++ convertValueToZw item (currentIndentLevel + 1)%nat
                end) items)
  | JObject props =>
      join [LF] (objectLines convertValueToZw props currentIndentLevel
                   false true)
  end.

Definition convertObjectToZwItems (obj : list (jsstring * JsonValue))
    (currentIndentLevel : nat) (isChildOfListItem : bool) : jsstring :=
  join [LF] (objectLines convertValueToZw obj currentIndentLevel
               isChildOfListItem true).

(** [rootZwType && rootZwType.trim()] as a condition. *)
Definition hasRootType (rootZwType : option jsstring) : bool :=
  match rootZwType with
  | Some s => negb (eqb s []) && negb (eqb (trim s) [])
  | None => false
  end.

(** [!rootZwType]: the argument is absent or the empty string. *)
Definition noRootType (rootZwType : option jsstring) : bool :=
  match rootZwType with
  | Some s => eqb s []
  | None => true
  end.

Definition trimmedRootType (rootZwType : option jsstring) : jsstring :=
  match rootZwType with
  | Some s => trim s
  | None => []
  end.

(** [convertJsonToZwString] after [JSON.parse] has returned. *)
Definition convertParsedJson (parsedJson : JsonValue)
    (rootZwType : option jsstring) : jsstring :=
  let baseIndentLevel := if hasRootType rootZwType then 1%nat else 0%nat in
  let zwOutput :=
    if hasRootType rootZwType
    then trimmedRootType rootZwType ++ u ":" ++ [LF] else [] in
  let zwOutput :=
    match parsedJson with
    | JObject props =>
        zwOutput ++ convertObjectToZwItems props baseIndentLevel false
    | JArray _ =>
        let effectiveRootKey :=
          if hasRootType rootZwType then [] else u "JSON_ARRAY_ROOT:" in
        let zwOutput :=
          if noRootType rootZwType
          then zwOutput ++ effectiveRootKey ++ [LF] else zwOutput in
        zwOutput ++ convertValueToZw parsedJson baseIndentLevel
    | _ =>
        let effectiveRootKey :=
          if hasRootType rootZwType then [] else u "JSON_PRIMITIVE_ROOT:" in
        let zwOutput :=
          if noRootType rootZwType
          then zwOutput ++ effectiveRootKey ++ [LF] else zwOutput in
        let primitiveIndent :=
          spaces (baseIndentLevel * JSON_TO_ZW_INDENT_SPACES) in
        zwOutput ++ primitiveIndent ++ u "ROOT_VALUE: "
        ++ convertValueToZw parsedJson 0
    end in
  if eqb (trim zwOutput) [] && hasRootType rootZwType
  then trimmedRootType rootZwType ++ u ":" else zwOutput.

Definition convertJsonToZwString (jsonString : jsstring)
    (rootZwType : option jsstring) : jsstring :=
  match JSON_parse jsonString with
  | inr message =>
      u "# Error: Invalid JSON input." ++ [LF] ++ u "# " ++ message
  | inl parsedJson => convertParsedJson parsedJson rootZwType
  end.

End Engine.

End JsonToZw.
Import JsonToZw.

(** ** The words of the specification *)

Module Spec.

(** A root declaration: an identifier over [[A-Za-z0-9_-]], the colon, and
    nothing else but trailing whitespace. *)
Definition RootDeclaration (key line : jsstring) : Prop :=
  key <> [] /\ forallb isRootKeyChar key = true /\
  exists ws, forallb isWhiteSpace ws = true /\ line = key ++ [58] ++ ws.

(** Depth by integer division: [max(1, indentation / 2)], truncating. *)
Definition truncatedDepth (indentation : nat) : Z :=
  Z.max 1 (Z.of_nat indentation / 2).

(** A line is comment text when it begins with the number sign. *)
Definition isCommentLine (line : jsstring) : bool := startsWith (u "#") line.

End Spec.
Import Spec.

(** ** The invariant of the loop *)

Module LoopInvariant.

(** A run of [p]-characters is stopped by a character outside [p], or by
    the end of the string. *)
Definition stopsRun (p : N -> bool) (b : jsstring) : Prop :=
  match b with
  | [] => True
  | c :: _ => p c = false
  end.

(** The fields of an object other than its [value]. *)
Definition skeleton (o : Obj) : Obj := setValue VUndefined o.

(** Objects are never removed and only their [value] changes. *)
Definition evolves (h h' : Heap) : Prop :=
  forall r o, h !! r = Some o ->
    exists o', h' !! r = Some o' /\ skeleton o' = skeleton o.

Definition isNodeAt (h : Heap) (r : ref) : Prop :=
  exists k v d dl, h !! r = Some (ONode k v d dl).

(** Every array holds references to objects allocated after its owner. *)
Definition refsOk (h : Heap) : Prop :=
  forall r o elems, h !! r = Some o -> objValue o = VArray elems ->
    Forall (fun c => (r < c < length h)%nat) elems.

(** The invariant of the [for] loop. *)
Record wf (rootKey delimiter : jsstring) (st : State) : Prop := mkWf {
  wf_root : exists v,
      heap st !! 0%nat = Some (ONode rootKey v 0 (Some delimiter));
  wf_stack : Forall (isNodeAt (heap st)) (stack st);
  wf_bottom : last (stack st) = Some 0%nat;
  wf_refs : refsOk (heap st)
}.

(** A value a freshly allocated object may hold. *)
Definition freshValue (v : Value) : Prop :=
  v = VArray [] \/ exists s, v = VString s.

(** The shape of every state [processLine] can produce from [st]: the
    parent is the node the [while] loop stops at, and the line allocates
    nothing, a child of the parent, or a child that also becomes the top of
    the stack. *)
Definition stepsTo (st : State) (parent : ref) (below : list ref)
    (depth : Q) (st' : State) : Prop :=
  evolves (heap st) (heap st')
  /\ ((length (heap st') = length (heap st) /\ stack st' = parent :: below)
      \/ (length (heap st') = S (length (heap st))
          /\ (stack st' = parent :: below
              \/ stack st' = length (heap st) :: parent :: below)
          /\ (exists child,
                heap st' !! length (heap st) = Some child
                /\ objDepth child = depth)
          /\ exists o elems,
               heap st' !! parent = Some o
               /\ objValue o = VArray (elems ++ [length (heap st)]))).

End LoopInvariant.
Import LoopInvariant.

(** ** Inputs of the examples *)

Module Examples.

(** An engine whose [JSON.parse] accepts one text, with the given value,
    and rejects every other text with the given message. *)
Definition parsesOnly (text : jsstring) (value : JsonValue)
    (message : jsstring) : jsstring -> JsonValue + jsstring :=
  fun s => if eqb s text then inl value else inr message.

(** The list of objects of the round-trip property, as text and as
    value. *)
Definition itemsJson : jsstring :=
  u "{" ++ quoted (u "items") ++ u ":[{" ++ quoted (u "x") ++ u ":1},{"
  ++ quoted (u "x") ++ u ":2}]}".

Definition itemsValue : JsonValue :=
  JObject [(u "items", JArray [JObject [(u "x", JNumber 1)];
                               JObject [(u "x", JNumber 2)]])].






(** An object with one numeric property. *)
Definition objectText : jsstring := u "{" ++ quoted (u "a") ++ u ":1}".

(** An invalid JSON text that holds a line feed: an opening bracket, [1],
    a comma, a line feed and a closing brace. *)
Definition brokenJson : jsstring := u "[1," ++ [LF] ++ u "}".

(** The message of the [SyntaxError] V8 throws for that text: it quotes the
    text as it is, line feed included. *)
Definition unexpectedTokenMessage : jsstring :=
  u "Unexpected token '}', " ++ quoted brokenJson ++ u " is not valid JSON".

End Examples.
Import Examples.

(** ** Callers and helpers around the two converters *)

Module Callers.

(** The class of [escapeRegExp]: the syntax characters of a pattern,
    [. * + ? ^ $ { } ( ) | [ ] \]. *)
Definition isRegExpSpecial (c : N) : bool :=
  (c =? 46) || (c =? 42) || (c =? 43) || (c =? 63) || (c =? 94) || (c =? 36)
  || (c =? 123) || (c =? 125) || (c =? 40) || (c =? 41) || (c =? 124)
  || (c =? 91) || (c =? 93) || (c =? 92).

(** [escapeRegExp]: every character of the class gets a backslash before
    it (the replacement is a backslash and the matched text). *)
Definition escapeRegExp (s : jsstring) : jsstring :=
  flat_map (fun c => if isRegExpSpecial c then [BACKSLASH; c] else [c]) s.

(** The text a pattern matches when it is made of ordinary characters and
    of syntax characters behind a backslash; [None] when a syntax character
    stands bare, or a backslash stands before anything else. *)
Fixpoint literalOf (pattern : jsstring) : option jsstring :=
  match pattern with
  | [] => Some []
  | c :: rest =>
      if c =? BACKSLASH then
        match rest with
        | d :: rest' =>
            if isRegExpSpecial d then option_map (cons d) (literalOf rest')
            else None
        | [] => None
        end
      else if isRegExpSpecial c then None
      else option_map (cons c) (literalOf rest)
  end.

(** [validateZWContent] of the parser module: the content is valid when
    [parseZW] returns something else than [null]; a throw is caught. *)
Definition validateZWContent (content : jsstring) : bool :=
  match parseZW content None with
  | Returned _ _ => true
  | Null => false
  | Threw => false
  end.

(** An entry of the validation feedback shown by the application. *)
Inductive FeedbackType := warning | success | error.

Record Feedback := mkFeedback {
  fbType : FeedbackType;
  fbMessage : jsstring;
  fbDetails : option (list jsstring)
}.

Section Application.

(** The two pictographs that open the success and the error messages, and
    the message of whatever the [catch] clause would receive. *)
Variable successMark errorMark : jsstring.
Variable caughtMessage : jsstring.

(** [validateZwContent] of the application: the feedback it sets and the
    boolean it returns. *)
Definition validateZwContent (content contextLabel : jsstring)
  : list Feedback * bool :=
  if eqb (trim content) [] then
    ([mkFeedback warning
        (u "No ZW content provided for " ++ contextLabel ++ u " to validate.")
        None], false)
  else
    let critical :=
      ([mkFeedback error
          (errorMark ++ u " " ++ contextLabel
           ++ u " - Critical Parsing Error: " ++ caughtMessage) None], false) in
    match parseZW content None with
    | Returned h parsedRoot =>
        match h !! parsedRoot with
        | Some (ONode key value _ _) =>
            if negb (startsWith (u "Error:") key) then
              ([mkFeedback success
                  (successMark ++ u " " ++ contextLabel
                   ++ u " is valid ZW! Root Type: " ++ key) None], true)
            else
              ([mkFeedback error
                  (errorMark ++ u " " ++ contextLabel
                   ++ u " - ZW Parsing Error: " ++ key)
                  (Some [match value with
                         | VString s => s
                         | _ => u "No further details."
                         end])], false)
        | _ => critical
        end
    | Null =>
        ([mkFeedback error
            (errorMark ++ u " " ++ contextLabel
             ++ u " is invalid. Parser returned null.") None], false)
    | Threw => critical
    end.

End Application.

(** [name.replace(/\.[^/.]+$/, "")]: the last dot and what follows it are
    removed when what follows is not empty and holds no slash. *)
Definition isExtensionChar (c : N) : bool := negb ((c =? 47) || (c =? 46)).

Definition stripExtension (name : jsstring) : jsstring :=
  let tail := takeWhile isExtensionChar (rev name) in
  match tail, skipn (length tail) (rev name) with
  | _ :: _, dot :: stem => if dot =? 46 then rev stem else name
  | _, _ => name
  end.

(** The file names of [handleExportGeneratedPacket] for the formats
    ['json'] and ['zw']. *)
Definition jsonExportName (exportFilename : jsstring) : jsstring :=
  stripExtension exportFilename ++ u ".json".
Definition zwExportName (exportFilename : jsstring) : jsstring :=
  stripExtension exportFilename ++ u ".zw".

(** [text.replace(/\n/g, '\n#   ')]. *)
Definition commentContinuation (text : jsstring) : jsstring :=
  flat_map (fun c => if c =? LF then LF :: u "#   " else [c]) text.

(** A schema of a project, and its entry in [handleExportAllSchemas]. *)
Record Schema := mkSchema {
  schemaName : jsstring;
  schemaId : jsstring;
  nlOrigin : option jsstring;
  definition : jsstring
}.

(** The comment header of an entry: name, id and, when present and not
    empty, the natural-language origin. *)
Definition schemaHeader (s : Schema) : jsstring :=
  u "# Schema Name: " ++ schemaName s ++ [LF]
  ++ u "# Schema ID: " ++ schemaId s ++ [LF]
  ++ match nlOrigin s with
     | Some ((_ :: _) as origin) =>
         u "# NL Origin: " ++ commentContinuation origin ++ [LF]
     | _ => []
     end.

Definition schemaEntry (s : Schema) : jsstring :=
  schemaHeader s ++ definition s ++ [LF]
  ++ u "///---END OF SCHEMA " ++ schemaName s ++ u "---" ++ [LF] ++ [LF].

Definition exportAllSchemas (schemas : list Schema) : jsstring :=
  concat (map schemaEntry schemas).

(** *** Completion of keywords in the template editor *)

Definition ZW_KEYWORDS : list jsstring :=
  map u
    ["ZW-REQUEST:"; "ZW-RESPONSE:"; "ZW-NARRATIVE-EVENT:";
     "ZW-NARRATIVE-SCENE:"; "ZW-USER-PROFILE:"; "ZW-SIMPLE-TASK:";
     "ZW-OBJECT:"; "ZW-MATERIAL:"; "ZW-LIGHT:"; "ZW-CAMERA:";
     "CONTEXT:"; "STATE-DELTA:"; "META:"; "ERROR:"; "SCENE_GOAL:";
     "EVENT_ID:"; "FOCUS:"; "SETTING:"; "LOCATION:"; "TIME_OF_DAY:"; "MOOD:";
     "CHARACTERS_INVOLVED:";
     "NAME:"; "ROLE:"; "CURRENT_EMOTION:"; "SEQUENCE_PARTS:"; "LABEL:";
     "EVENTS:"; "SEQUENCE:"; "TYPE:"; "ACTION:"; "ACTOR:"; "TARGET:";
     "SFX_SUGGESTION:"; "DESCRIPTION:"; "ANCHOR:"; "VFX_SUGGESTION:";
     "DIALOGUE:"; "DIALOGUE_ID:"; "CONTENT:"; "EMOTION_TAG:";
     "DELIVERY_NOTE:"; "OBJECTIVE_UPDATE:"; "LINKED_QUEST:"; "STATUS:";
     "OBJECTIVE_TEXT:";
     "AUTHOR:"; "VERSION:"; "SCENE_REFERENCE:"; "TRIGGER_CONDITION:"; "TAGS:";
     "QUESTS_STARTED:"; "QUESTS_COMPLETED:"; "ANCHORS_SET:"; "PARAMS:";
     "SUB_TASKS:"; "RESOURCES_REQUIRED:";
     "USER_ID:"; "DISPLAY_NAME:"; "EMAIL:"; "AVATAR_URL:"; "PREFERENCES:";
     "THEME:"; "NOTIFICATIONS_ENABLED:"; "LANGUAGE:"; "ID:"; "BASE_COLOR:";
     "METALLIC:"; "ROUGHNESS:"; "INTENSITY:"; "POSITION:";
     "ROTATION:"]%string.

(** [s.toUpperCase()] on the ASCII letters; like [toLowerCase], it is the
    function of the engine on the strings made of ASCII characters. *)
Definition toUpperCase (s : jsstring) : jsstring :=
  map (fun c => if isLower c then c - 32 else c) s.

Definition isAscii (s : jsstring) : bool := forallb (fun c => c <? 128) s.

(** Group 1 of [/(\S+)$/]: the run of characters other than white space
    that ends the text, empty when there is no match. *)
Definition lastWord (s : jsstring) : jsstring :=
  rev (takeWhile (fun c => negb (isWhiteSpace c)) (rev s)).

(** [textBeforeCursor.split('\n').pop() || ''], and the word the cursor
    stands after. *)
Definition currentLineOf (textBeforeCursor : jsstring) : jsstring :=
  List.last (split LF textBeforeCursor) [].

Definition currentWordOf (textBeforeCursor : jsstring) : jsstring :=
  lastWord (currentLineOf textBeforeCursor).

(** [handleTemplateDefinitionChange], as far as the list of suggestions
    goes: [Some] is the list it sets (shown when not empty), [None] is the
    branch that only hides the list. *)
Definition suggestionsFor (value : jsstring) (cursorPos : nat)
  : option (list jsstring) :=
  let textBeforeCursor := substringTo cursorPos value in
  let currentWord := currentWordOf textBeforeCursor in
  if (1 <? length currentWord)%nat
     && startsWith (u "ZW-") (toUpperCase currentWord)
  then Some (List.filter
               (fun keyword =>
                  startsWith (toLowerCase currentWord) (toLowerCase keyword))
               ZW_KEYWORDS)
  else None.

(** [handleSelectSuggestion]: the new text of the editor and the position
    the cursor is set to. *)
Definition selectSuggestion (value : jsstring) (cursorPos : nat)
    (suggestion : jsstring) : jsstring * nat :=
  let textBeforeCursor := substringTo cursorPos value in
  let currentWordStart :=
    match lastWord textBeforeCursor with
    | [] => cursorPos
    | (_ :: _) as word => (length textBeforeCursor - length word)%nat
    end in
  let textAfterCursor := substringFrom cursorPos value in
  (substringTo currentWordStart value ++ suggestion ++ textAfterCursor,
   (currentWordStart + length suggestion)%nat).

End Callers.
Import Callers.

(** ** What the returned store always satisfies *)

Module StoreShape.

(** The object a line makes, and whether it is pushed on the stack: a list
    item, a section (pushed), a leaf, or nothing when the line matches no
    pattern. *)
Definition lineObject (effectiveDelimiter line : jsstring)
  : option (Obj * bool) :=
  let trimmedLine := trim line in
  let depth := lineDepth (getIndentation line) in
  if startsWith (u "- ") trimmedLine then
    let itemContent := trim (substringFrom 2 trimmedLine) in
    Some (match keyValueMatch effectiveDelimiter itemContent with
          | Some (k, v) => OItem (VString v) (Some true) (Some k) depth
                                 effectiveDelimiter
          | None => OItem (VString itemContent) None None depth
                          effectiveDelimiter
          end, false)
  else
    match sectionMatch effectiveDelimiter trimmedLine with
    | Some k => Some (ONode k (VArray []) depth (Some effectiveDelimiter), true)
    | None =>
        match keyValueMatch effectiveDelimiter trimmedLine with
        | Some (k, v) =>
            Some (ONode k (VString v) depth (Some effectiveDelimiter), false)
        | None => None
        end
    end.

(** Every element of an array is an object strictly deeper than the owner
    of the array. *)
Definition nested (h : Heap) : Prop :=
  forall r o elems c,
    h !! r = Some o -> objValue o = VArray elems -> In c elems ->
    exists oc, h !! c = Some oc /\ (objDepth o < objDepth oc)%Q.

(** From the top of the stack down, depths strictly decrease. *)
Fixpoint descending (h : Heap) (stk : list ref) : Prop :=
  match stk with
  | top :: ((next :: _) as below) =>
      (exists ot on, h !! top = Some ot /\ h !! next = Some on
                     /\ (objDepth on < objDepth ot)%Q)
      /\ descending h below
  | _ => True
  end.

(** A key of a section, leaf or list item: not empty, over
    [[A-Za-z0-9_]]. *)
Definition isKey (k : jsstring) : Prop :=
  k <> [] /\ forallb isKeyChar k = true.

(** What an object made by a line looks like: its depth is at least 1, its
    delimiter is the effective one, a node has a key, and an item has a key
    exactly when it is marked as a key-value item. *)
Definition wellFormedObject (effectiveDelimiter : jsstring) (o : Obj)
  : Prop :=
  (1 <= objDepth o)%Q /\
  match o with
  | ONode k _ _ dl => isKey k /\ dl = Some effectiveDelimiter
  | OItem _ kv ik _ dl =>
      dl = effectiveDelimiter /\
      match kv, ik with
      | Some true, Some k => isKey k
      | None, None => True
      | _, _ => False
      end
  end.

(** All objects but the root are well formed. *)
Definition objectsOk (effectiveDelimiter : jsstring) (h : Heap) : Prop :=
  forall r o, h !! r = Some o -> (0 < r)%nat ->
    wellFormedObject effectiveDelimiter o.

(** The invariant of the loop, with the shape of the store. *)
Record shaped (rootKey effectiveDelimiter : jsstring) (st : State)
  : Prop := mkShaped {
  shaped_wf : wf rootKey effectiveDelimiter st;
  shaped_nested : nested (heap st);
  shaped_descending : descending (heap st) (stack st);
  shaped_objects : objectsOk effectiveDelimiter (heap st)
}.

End StoreShape.
Import StoreShape.


Module TreeShape.

Definition nodeDepth (n : ZWNode) : Q :=
  match n with Node _ _ d _ => d end.

Definition childDepth (c : ZWChild) : Q :=
  match c with
  | ChildNode (Node _ _ d _) => d
  | ChildItem (Item _ _ _ d _) => d
  end.

Definition childValue (c : ZWChild) : ZWValue :=
  match c with
  | ChildNode (Node _ v _ _) => v
  | ChildItem (Item v _ _ _ _) => v
  end.

(** The parent-child pairs of a tree, at every level: the depth of the
    parent with the child. *)
Fixpoint edgesOfNode (n : ZWNode) : list (Q * ZWChild) :=
  match n with Node _ v d _ => edgesOfValue d v end
with edgesOfValue (d : Q) (v : ZWValue) {struct v} : list (Q * ZWChild) :=
  match v with
  | Children elems => flat_map (fun c => (d, c) :: edgesOfChild c) elems
  | _ => []
  end
with edgesOfChild (c : ZWChild) : list (Q * ZWChild) :=
  match c with
  | ChildNode n => edgesOfNode n
  | ChildItem i => edgesOfItem i
  end
with edgesOfItem (i : ZWListItem) : list (Q * ZWChild) :=
  match i with Item v _ _ d _ => edgesOfValue d v end.

(** What a child shows of the object it was read from: every field but
    the elements of an array. *)
Definition sameKind (v : Value) (v' : ZWValue) : Prop :=
  match v, v' with
  | VUndefined, Undefined => True
  | VString s, Scalar s' => s = s'
  | VArray elems, Children cs => length elems = length cs
  | _, _ => False
  end.

Definition shows (o : Obj) (c : ZWChild) : Prop :=
  match o, c with
  | ONode k v d dl, ChildNode (Node k' v' d' dl') =>
      k = k' /\ d = d' /\ dl = dl' /\ sameKind v v'
  | OItem v kv ik d dl, ChildItem (Item v' kv' ik' d' dl') =>
      kv = kv' /\ ik = ik' /\ d = d' /\ dl = dl' /\ sameKind v v'
  | _, _ => False
  end.

(** The kinds of value the loop keeps: an open node holds an array, a
    list item a string, and no value is left undefined. *)
Definition holdsArray (h : Heap) (r : ref) : Prop :=
  exists o elems, h !! r = Some o /\ objValue o = VArray elems.

Definition valueKindOk (o : Obj) : Prop :=
  match o with
  | ONode _ v _ _ => v <> VUndefined
  | OItem v _ _ _ _ => exists s, v = VString s
  end.

Record kinded (st : State) : Prop := mkKinded {
  kinded_stack : Forall (holdsArray (heap st)) (stack st);
  kinded_values : forall r o, heap st !! r = Some o -> valueKindOk o
}.

(** A child as a caller may rely on it: deeper than its parent and at
    depth 1 at least. *)
Definition deeperChild (parentDepth : Q) (c : ZWChild) : Prop :=
  (parentDepth < childDepth c)%Q /\ (1 <= childDepth c)%Q.

(** A child as the three patterns make it: a node has an identifier key,
    the effective delimiter and a string or an array; a list item has the
    effective delimiter, a string, and [itemKey] exactly when
    [isKeyValue] is [true]. *)
Definition patternChild (effectiveDelimiter : jsstring) (c : ZWChild)
  : Prop :=
  match c with
  | ChildNode (Node k v _ dl) =>
      isKey k /\ dl = Some effectiveDelimiter /\ v <> Undefined
  | ChildItem (Item v kv ik _ dl) =>
      dl = effectiveDelimiter /\ (exists s, v = Scalar s) /\
      match kv, ik with
      | Some true, Some k => isKey k
      | None, None => True
      | _, _ => False
      end
  end.

End TreeShape.
Import TreeShape.

Module PlainTexts.

(** A text that survives as the value of a [key: value] line: not empty,
    no white space at either end, no line terminator. *)
Definition plainText (t : jsstring) : Prop :=
  t <> [] /\ trim t = t /\ existsb isLineTerminator t = false.

(** The characters of the text [String] prints for a finite number: the
    digits, the minus sign, the point, and the letter [e] with the sign of
    the exponent. *)
Definition isNumberTextChar (c : N) : bool :=
  isDigit c || (c =? 45) || (c =? 43) || (c =? 46) || (c =? 101).



End PlainTexts.
Import PlainTexts.

Module NestedObjects.

Section Nesting.

Variable engineRoundTrip : jsstring -> bool.

(** The indentation the serializer writes at a level, and the depth the
    parser gives a line indented so. *)
Definition levelIndent (level : nat) : jsstring :=
  spaces (level * JSON_TO_ZW_INDENT_SPACES).

Definition levelDepth (level : nat) : Q :=
  lineDepth (level * JSON_TO_ZW_INDENT_SPACES).

(** An element of a list of scalars, written in a list at [level]: no
    object and no non-empty array, with a plain text that holds no colon
    (so that the parser does not take it for a key and a value).  A
    [JNumber] is a safe integer. *)
Definition listable (level : nat) (item : JsonValue) : Prop :=
  match item with
  | JObject _ => False
  | JNumber z => isSafeInteger z = true
  | _ => isNonEmptyContainer item = false
         /\ plainText (convertValueToZw engineRoundTrip item (S level))
         /\ includes 58 (convertValueToZw engineRoundTrip item (S level))
            = false
  end.

(** The line of such an element, and the list item it comes back as. *)
Definition itemLine (level : nat) (item : JsonValue) : jsstring :=
  levelIndent level ++ u "- "
  ++ convertValueToZw engineRoundTrip item (S level).

Definition itemTree (level : nat) (item : JsonValue) : ZWChild :=
  ChildItem (Item (Scalar (convertValueToZw engineRoundTrip item (S level)))
                  None None (levelDepth level) (u ":")).

(** The values of the round trip, for a property written at [level]: a
    non-empty object whose keys are identifiers and whose values are such
    values one level deeper, a non-empty list of scalars, a safe integer,
    or a value that is no non-empty container and whose text is plain. *)
Fixpoint nestable (level : nat) (value : JsonValue) {struct value} : Prop :=
  match value with
  | JObject ((_ :: _) as props) =>
      (fix all (ps : list (jsstring * JsonValue)) : Prop :=
         match ps with
         | [] => True
         | (k, v) :: ps' => isKey k /\ nestable (S level) v /\ all ps'
         end) props
  | JArray ((_ :: _) as items) => Forall (listable (S level)) items
  | JNumber z => isSafeInteger z = true
  | _ => plainText (convertValueToZw engineRoundTrip value level)
  end.

(** The child a property comes back as. *)
Fixpoint treeOf (level : nat) (key : jsstring) (value : JsonValue)
  {struct value} : ZWChild :=
  match value with
  | JObject ((_ :: _) as props) =>
      ChildNode
        (Node key
              (Children (map (fun kv => treeOf (S level) (fst kv) (snd kv))
                             props))
              (levelDepth level) (Some (u ":")))
  | JArray ((_ :: _) as items) =>
      ChildNode
        (Node key (Children (map (itemTree (S level)) items))
              (levelDepth level) (Some (u ":")))
  | _ =>
      ChildNode
        (Node key (Scalar (convertValueToZw engineRoundTrip value level))
              (levelDepth level) (Some (u ":")))
  end.

(** The lines [convertObjectToZwItems] writes for a property. *)
Fixpoint linesOf (level : nat) (key : jsstring) (value : JsonValue)
  {struct value} : list jsstring :=
  match value with
  | JObject ((_ :: _) as props) =>
      (levelIndent level ++ formatZwKey key ++ u ":")
      :: flat_map (fun kv => linesOf (S level) (fst kv) (snd kv)) props
  | JArray ((_ :: _) as items) =>
      (levelIndent level ++ formatZwKey key ++ u ":")
      :: map (itemLine (S level)) items
  | _ =>
      [levelIndent level ++ formatZwKey key ++ u ": "
       ++ convertValueToZw engineRoundTrip value level]
  end.

(** The properties of an object written at [level]. *)
Definition nestableProps (level : nat) (props : list (jsstring * JsonValue))
  : Prop :=
  Forall (fun kv => isKey (fst kv) /\ nestable level (snd kv)) props.

End Nesting.

(** A line that survives the preparation of the input as it is: one line,
    semantic, without white space at its end. *)
Definition keptLine (l : jsstring) : Prop :=
  includes LF l = false /\ isSemantic l = true /\ trimEnd l = l /\ l <> [].

(** The reference [r] denotes the child [t], whatever fuel at least the
    size of the store past [r] is given. *)
Definition reads (h : Heap) (r : ref) (t : ZWChild) : Prop :=
  forall fuel, (length h - r <= fuel)%nat -> readChild fuel h r = Some t.

(** The node [p] is the one a line of depth [d] attaches to: above it the
    stack holds nodes at depth [d] or more only, and [p] itself is
    strictly shallower and holds the array [elems]. *)
Record openUnder (st : State) (d : Q) (p : ref) (key : jsstring) (dp : Q)
    (dl : option jsstring) (below elems : list ref) : Prop := mkOpenUnder {
  open_stack : exists extra,
      stack st = extra ++ p :: below
      /\ Forall (fun r => exists k v d' dl',
                    heap st !! r = Some (ONode k v d' dl') /\ (d <= d')%Q)
                extra;
  open_parent : heap st !! p = Some (ONode key (VArray elems) dp dl)
                /\ (dp < d)%Q;
  open_refs : refsOk (heap st)
}.

(** What the loop does with the [lines] of one child under an open node of
    depth below [d]: it allocates the child next in the store, appends it
    to the array of the node, leaves the node open for the next line of
    depth [d], and changes no other object that was there. *)
Definition attaches (d : Q) (lines : list jsstring) (tree : ZWChild)
  : Prop :=
  forall st p key dp dl below elems,
    openUnder st d p key dp dl below elems ->
    exists st',
      processLines (u ":") st lines = Some st'
      /\ openUnder st' d p key dp dl below (elems ++ [length (heap st)])
      /\ reads (heap st') (length (heap st)) tree
      /\ (length (heap st) < length (heap st'))%nat
      /\ (forall x, (x < length (heap st))%nat -> x <> p ->
            heap st' !! x = heap st !! x).

(** The same for the lines of several children, one after the other. *)
Definition attachesAll (d : Q) (lines : list jsstring)
    (trees : list ZWChild) : Prop :=
  forall st p key dp dl below elems,
    openUnder st d p key dp dl below elems ->
    exists st' news,
      processLines (u ":") st lines = Some st'
      /\ openUnder st' d p key dp dl below (elems ++ news)
      /\ Forall2 (reads (heap st')) news trees
      /\ Forall (fun r => (length (heap st) <= r < length (heap st'))%nat)
                news
      /\ (length (heap st) <= length (heap st'))%nat
      /\ (forall x, (x < length (heap st))%nat -> x <> p ->
            heap st' !! x = heap st !! x).

(** The lines of a property attach its tree, at every level. *)
Definition attachesProperty (engineRoundTrip : jsstring -> bool)
    (value : JsonValue) : Prop :=
  forall level k,
    (1 <= level)%nat -> isKey k -> nestable engineRoundTrip level value ->
    attaches (levelDepth level) (linesOf engineRoundTrip level k value)
             (treeOf engineRoundTrip level k value).

End NestedObjects.
Import NestedObjects.
(** Closed facts are settled by running the model. *)
Ltac by_evaluation := vm_compute; reflexivity.

(** ** Strings: basic facts *)

Section StringFacts.

Variable p : N -> bool.

Lemma takeWhile_dropWhile (s : jsstring) :
  takeWhile p s ++ dropWhile p s = s.
Proof.
  induction s as [|c s IH]; simpl; [reflexivity|].
  destruct (p c); simpl; [now rewrite IH | reflexivity].
Qed.

Lemma takeWhile_all (s : jsstring) : forallb p (takeWhile p s) = true.
Proof.
  induction s as [|c s IH]; simpl; [reflexivity|].
  destruct (p c) eqn:E; simpl; [now rewrite E | reflexivity].
Qed.

Lemma dropWhile_head (s : jsstring) c r :
  dropWhile p s = c :: r -> p c = false.
Proof.
  induction s as [|x s IH]; simpl; [discriminate|].
  destruct (p x) eqn:E; [exact IH|].
  intros [= -> _]. exact E.
Qed.

Lemma takeWhile_app_stop (a b : jsstring) :
  forallb p a = true -> stopsRun p b -> takeWhile p (a ++ b) = a.
Proof.
  induction a as [|x a IH]; simpl.
  - intros _ Hb. destruct b as [|c b]; simpl in *; [reflexivity|now rewrite Hb].
  - intros [Hx Ha]%andb_prop Hb. rewrite Hx, IH by assumption. reflexivity.
Qed.

Lemma dropWhile_app_stop (a b : jsstring) :
  forallb p a = true -> stopsRun p b -> dropWhile p (a ++ b) = b.
Proof.
  induction a as [|x a IH]; simpl.
  - intros _ Hb. destruct b as [|c b]; simpl in *; [reflexivity|now rewrite Hb].
  - intros [Hx Ha]%andb_prop Hb. rewrite Hx. now apply IH.
Qed.

End StringFacts.

Lemma eqb_eq (a b : jsstring) : eqb a b = true <-> a = b.
Proof.
  revert b; induction a as [|x a IH]; intros [|y b]; simpl;
    try (split; [discriminate|discriminate]); [tauto|].
  rewrite andb_true_iff, N.eqb_eq, IH. split.
  - now intros [-> ->].
  - now intros [= -> ->].
Qed.

Lemma eqb_refl (a : jsstring) : eqb a a = true.
Proof. now apply eqb_eq. Qed.

Lemma eqb_neq (a b : jsstring) : eqb a b = false <-> a <> b.
Proof.
  rewrite <- eqb_eq. destruct (eqb a b); split; congruence.
Qed.

Lemma startsWith_app (a b : jsstring) : startsWith a (a ++ b) = true.
Proof.
  induction a as [|x a IH]; simpl; [reflexivity|].
  now rewrite N.eqb_refl, IH.
Qed.

Lemma startsWith_refl (a : jsstring) : startsWith a a = true.
Proof. induction a as [|x a IH]; simpl; [reflexivity|now rewrite N.eqb_refl]. Qed.

Lemma startsWith_length (a s : jsstring) :
  startsWith a s = true -> (length a <= length s)%nat.
Proof.
  revert s; induction a as [|x a IH]; intros [|y s]; simpl; try lia;
    try discriminate.
  intros [_ H]%andb_prop. apply IH in H. lia.
Qed.

(** ** The root line *)

Lemma rootLineMatch_Some (line key : jsstring) :
  rootLineMatch line = Some key <-> RootDeclaration key line.
Proof.
  unfold rootLineMatch, RootDeclaration. split.
  - destruct (takeWhile isRootKeyChar line) as [|k0 ks] eqn:Et; [discriminate|].
    destruct (dropWhile isRootKeyChar line) as [|c rest] eqn:Ed; [discriminate|].
    destruct (c =? 58) eqn:Ec; simpl; [|discriminate].
    destruct (forallb isWhiteSpace rest) eqn:Ew; [|discriminate].
    intros [= <-]. apply N.eqb_eq in Ec. subst c.
    split; [discriminate|]. split.
    + rewrite <- Et. apply takeWhile_all.
    + exists rest. split; [exact Ew|].
      rewrite <- Et, <- Ed. symmetry. apply takeWhile_dropWhile.
  - intros (Hne & Hkey & ws & Hws & ->).
    rewrite takeWhile_app_stop, dropWhile_app_stop by (simpl; auto).
    destruct key as [|k0 ks]; [congruence|]. simpl. now rewrite Hws.
Qed.

Lemma rootLineMatch_None (line : jsstring) :
  rootLineMatch line = None <-> forall key, ~ RootDeclaration key line.
Proof.
  split.
  - intros H key Hk. apply rootLineMatch_Some in Hk. congruence.
  - intros H. destruct (rootLineMatch line) as [key|] eqn:E; [|reflexivity].
    apply rootLineMatch_Some in E. now apply H in E.
Qed.

Lemma semanticLines_nonempty (processed : jsstring) l rest :
  semanticLines processed = l :: rest -> processed <> [].
Proof. intros H ->. discriminate H. Qed.

Lemma readNode_leaf (k s : jsstring) (d : Q) dl :
  readNode [ONode k (VString s) d dl] 0%nat = Some (Node k (Scalar s) d dl).
Proof. reflexivity. Qed.

(** The branch of [parseZW] taken when the first semantic line fails
    [rootLineRegex]. *)
Lemma parseZW_root_mismatch zwString options rootLineContent rest :
  semanticLines (preprocess zwString) = rootLineContent :: rest ->
  rootLineMatch rootLineContent = None ->
  parseZW zwString options =
    Returned [ONode errorKey (VString (errorValue rootLineContent)) 0 None] 0%nat.
Proof.
  intros Hs Hm. unfold parseZW.
  pose proof (semanticLines_nonempty _ _ _ Hs) as Hne.
  destruct (preprocess zwString) as [|c0 s0] eqn:Ep; [congruence|].
  rewrite Hs, Hm. reflexivity.
Qed.

Module RootErrors.

(** C1. Whenever the first semantic line of the input is not a root
    declaration (an identifier, the colon, nothing else), [parseZW] returns,
    for every delimiter option, the node whose key is ['Error: Invalid Root']
    and whose value is the diagnostic text: it does not throw, it does not
    return [null], and the callers' test [key.startsWith('Error:')] holds of
    the result. *)
Theorem parseZW_malformed_root_is_error zwString options rootLineContent rest :
  semanticLines (preprocess zwString) = rootLineContent :: rest ->
  (forall key, ~ RootDeclaration key rootLineContent) ->
  parseZW zwString options =
    Returned [ONode errorKey (VString (errorValue rootLineContent)) 0 None] 0%nat
  /\ parseTree zwString options =
       Some (Some (Node errorKey (Scalar (errorValue rootLineContent)) 0 None))
  /\ isErrorNode (Node errorKey (Scalar (errorValue rootLineContent)) 0 None)
     = true.
Proof.
  intros Hs Hno. apply rootLineMatch_None in Hno.
  pose proof (parseZW_root_mismatch _ options _ _ Hs Hno) as Hp.
  split; [exact Hp|]. split; [|reflexivity].
  unfold parseTree. rewrite Hp, readNode_leaf. reflexivity.
Qed.

(** The document ["FOO: bar"]: content trails the colon, the result is the
    error node, not a node named [FOO]. *)
Lemma parseZW_FOO_bar_is_error :
  parseZW (u "FOO: bar") None =
    Returned [ONode errorKey (VString (errorValue (u "FOO: bar"))) 0 None] 0%nat
  /\ parseTree (u "FOO: bar") None =
       Some (Some (Node errorKey (Scalar (errorValue (u "FOO: bar"))) 0 None))
  /\ isErrorNode (Node errorKey (Scalar (errorValue (u "FOO: bar"))) 0 None)
     = true.
Proof.
  apply (parseZW_malformed_root_is_error (u "FOO: bar") None (u "FOO: bar") []).
  - vm_compute; reflexivity.
  - apply rootLineMatch_None. vm_compute; reflexivity.
Defined.

End RootErrors.

(** ** The store during the loop *)

Lemma skeleton_setValue v o : skeleton (setValue v o) = skeleton o.
Proof. now destruct o. Qed.

Lemma objValue_setValue v o : objValue (setValue v o) = v.
Proof. now destruct o. Qed.

Lemma evolves_refl h : evolves h h.
Proof. intros r o H. eauto. Qed.

Lemma evolves_trans h1 h2 h3 : evolves h1 h2 -> evolves h2 h3 -> evolves h1 h3.
Proof.
  intros H12 H23 r o H. destruct (H12 _ _ H) as (o2 & H2 & E2).
  destruct (H23 _ _ H2) as (o3 & H3 & E3). exists o3. split; congruence.
Qed.

Lemma evolves_isNodeAt h h' r : evolves h h' -> isNodeAt h r -> isNodeAt h' r.
Proof.
  intros He (k & v & d & dl & H). destruct (He _ _ H) as (o' & H' & E).
  destruct o' as [k' v' d' dl'|]; [|discriminate]. now exists k', v', d', dl'.
Qed.

Lemma evolves_root h h' k v d dl :
  evolves h h' -> h !! 0%nat = Some (ONode k v d dl) ->
  exists v', h' !! 0%nat = Some (ONode k v' d dl).
Proof.
  intros He H. destruct (He _ _ H) as (o' & H' & E).
  destruct o' as [k' v' d' dl'|]; [|discriminate].
  injection E as -> -> ->. now exists v'.
Qed.

Lemma evolves_depth h h' r o :
  evolves h h' -> h !! r = Some o ->
  exists o', h' !! r = Some o' /\ objDepth o' = objDepth o.
Proof.
  intros He H. destruct (He _ _ H) as (o' & H' & E). exists o'. split; [easy|].
  destruct o, o'; simpl in E; try discriminate; now injection E.
Qed.

(** Overwriting the [value] of the object at [r]. *)
Lemma update_lookup (h : Heap) r o v x :
  h !! r = Some o ->
  <[r := setValue v o]> h !! x =
    if decide (x = r) then Some (setValue v o) else h !! x.
Proof.
  intros H. destruct (decide (x = r)) as [->|Hne].
  - apply list_lookup_insert_eq. eapply lookup_lt_Some, H.
  - now apply list_lookup_insert_ne.
Qed.

Lemma update_evolves (h : Heap) r o v :
  h !! r = Some o -> evolves h (<[r := setValue v o]> h).
Proof.
  intros H x ox Hx. rewrite (update_lookup _ _ _ _ _ H).
  destruct (decide (x = r)) as [->|]; [|eauto].
  exists (setValue v o). split; [reflexivity|].
  rewrite skeleton_setValue. congruence.
Qed.

Lemma update_refsOk (h : Heap) r o v :
  h !! r = Some o -> refsOk h ->
  (forall elems, v = VArray elems ->
     Forall (fun c => (r < c < length h)%nat) elems) ->
  refsOk (<[r := setValue v o]> h).
Proof.
  intros H Hok Hv x ox elems. rewrite (update_lookup _ _ _ _ _ H), length_insert.
  destruct (decide (x = r)) as [->|].
  - intros [= <-]. rewrite objValue_setValue. apply Hv.
  - apply Hok.
Qed.

(** *** [ensureArray] *)

Lemma ensureArray_evolves h p : evolves h (ensureArray h p).
Proof.
  unfold ensureArray. destruct (h !! p) as [o|] eqn:E; [|apply evolves_refl].
  destruct (objValue o); try apply evolves_refl; now apply update_evolves.
Qed.

Lemma ensureArray_length h p : length (ensureArray h p) = length h.
Proof.
  unfold ensureArray. destruct (h !! p) as [o|]; [|reflexivity].
  destruct (objValue o); try reflexivity; apply length_insert.
Qed.

Lemma ensureArray_refsOk h p : refsOk h -> refsOk (ensureArray h p).
Proof.
  intros Hok. unfold ensureArray. destruct (h !! p) as [o|] eqn:E; [|exact Hok].
  destruct (objValue o); try exact Hok;
    (apply update_refsOk; [exact E|exact Hok|intros elems [= <-]; constructor]).
Qed.

Lemma ensureArray_array h p o :
  h !! p = Some o ->
  exists o' elems, ensureArray h p !! p = Some o' /\ objValue o' = VArray elems.
Proof.
  intros H. unfold ensureArray. rewrite H.
  destruct (objValue o) as [|s|elems] eqn:Ev.
  - exists (setValue (VArray []) o), []. rewrite (update_lookup _ _ _ _ _ H).
    rewrite decide_True by reflexivity. now rewrite objValue_setValue.
  - exists (setValue (VArray []) o), []. rewrite (update_lookup _ _ _ _ _ H).
    rewrite decide_True by reflexivity. now rewrite objValue_setValue.
  - now exists o, elems.
Qed.

(** An array is left as it is. *)
Lemma ensureArray_id h p o elems :
  h !! p = Some o -> objValue o = VArray elems -> ensureArray h p = h.
Proof. intros H Hv. unfold ensureArray. now rewrite H, Hv. Qed.

(** *** [pushChild] *)

Lemma pushChild_spec h p o elems child :
  h !! p = Some o -> objValue o = VArray elems ->
  pushChild h p child =
    Some (<[p := setValue (VArray (elems ++ [length h])) o]> (h ++ [child]),
          length h).
Proof. intros H Hv. unfold pushChild. now rewrite H, Hv. Qed.

Lemma pushChild_facts h p o elems child h' r :
  h !! p = Some o -> objValue o = VArray elems ->
  pushChild h p child = Some (h', r) ->
  r = length h /\ length h' = S (length h) /\ evolves h h'
  /\ h' !! r = Some child
  /\ h' !! p = Some (setValue (VArray (elems ++ [r])) o).
Proof.
  intros H Hv Hp. rewrite (pushChild_spec _ _ _ _ _ H Hv) in Hp.
  injection Hp as <- <-.
  pose proof (lookup_lt_Some _ _ _ H) as Hlt.
  assert (Hp' : (h ++ [child]) !! p = Some o) by now apply lookup_app_l_Some.
  split; [reflexivity|]. split.
  { rewrite length_insert, length_app. simpl. lia. }
  split.
  { intros x ox Hx. rewrite (update_lookup _ _ _ _ _ Hp').
    destruct (decide (x = p)) as [->|].
    - exists (setValue (VArray (elems ++ [length h])) o). split; [reflexivity|].
      rewrite skeleton_setValue. congruence.
    - exists ox. split; [now apply lookup_app_l_Some|reflexivity]. }
  split.
  { rewrite (update_lookup _ _ _ _ _ Hp'), decide_False by lia.
    rewrite lookup_app_r by lia. now rewrite Nat.sub_diag. }
  rewrite (update_lookup _ _ _ _ _ Hp'). now rewrite decide_True.
Qed.

Lemma pushChild_refsOk h p o elems child h' r :
  h !! p = Some o -> objValue o = VArray elems ->
  pushChild h p child = Some (h', r) ->
  freshValue (objValue child) -> refsOk h -> refsOk h'.
Proof.
  intros H Hv Hp Hfresh Hok. rewrite (pushChild_spec _ _ _ _ _ H Hv) in Hp.
  injection Hp as <- <-.
  pose proof (lookup_lt_Some _ _ _ H) as Hlt.
  assert (Hp' : (h ++ [child]) !! p = Some o) by now apply lookup_app_l_Some.
  intros x ox es. rewrite (update_lookup _ _ _ _ _ Hp'), length_insert, length_app.
  simpl. destruct (decide (x = p)) as [->|Hne].
  - intros [= <-]. rewrite objValue_setValue. intros [= <-].
    apply Forall_app. split.
    + eapply Forall_impl; [exact (Hok _ _ _ H Hv)|]. simpl. intros; lia.
    + constructor; [lia|constructor].
  - intros Hx Hes. destruct (decide (x < length h)%nat) as [Hin|Hout].
    + rewrite lookup_app_l in Hx by exact Hin.
      eapply Forall_impl; [exact (Hok _ _ _ Hx Hes)|]. simpl. intros; lia.
    + rewrite lookup_app_r in Hx by lia.
      destruct (x - length h)%nat as [|n] eqn:En; simpl in Hx; [|discriminate].
      injection Hx as <-. destruct Hfresh as [Hf|[s Hf]]; rewrite Hf in Hes.
      * injection Hes as <-. constructor.
      * discriminate.
Qed.

(** *** The continuation branch *)

Lemma appendToLastChild_total h p o line indent :
  h !! p = Some o -> refsOk h ->
  exists h', appendToLastChild h p line indent = Some h'
    /\ evolves h h' /\ length h' = length h /\ refsOk h'.
Proof.
  intros H Hok.
  assert (Hsame : exists h', Some h = Some h'
            /\ evolves h h' /\ length h' = length h /\ refsOk h')
    by (exists h; auto using evolves_refl).
  unfold appendToLastChild. rewrite H.
  destruct (objValue o) as [| |elems] eqn:Ev; try exact Hsame.
  destruct (last elems) as [r|] eqn:El; [|exact Hsame].
  apply last_Some in El as [front ->].
  pose proof (Hok _ _ _ H Ev) as Hall.
  apply Forall_app in Hall as [_ Hr]. inversion_clear Hr as [|? ? Hr' _].
  destruct (lookup_lt_is_Some_2 h r) as [c Hc]; [lia|]. rewrite Hc.
  destruct (objValue c) as [|s|es] eqn:Ec; try exact Hsame.
  eexists. split; [reflexivity|]. split; [now apply update_evolves|].
  split; [apply length_insert|].
  apply update_refsOk; [exact Hc|exact Hok|discriminate].
Qed.

(** *** The [while] loop *)

Lemma Qgtb_true a b : Qgtb a b = true <-> (b < a)%Q.
Proof.
  unfold Qgtb. rewrite negb_true_iff. split.
  - intros H. apply Qnot_le_lt. intros Hle. apply Qle_bool_iff in Hle. congruence.
  - intros H. destruct (Qle_bool a b) eqn:E; [|reflexivity].
    apply Qle_bool_iff in E. exfalso. now apply (Qlt_not_le _ _ H).
Qed.

Lemma Qgtb_false a b : Qgtb a b = false <-> (a <= b)%Q.
Proof.
  unfold Qgtb. rewrite negb_false_iff. apply Qle_bool_iff.
Qed.

Lemma lineDepth_eq n :
  (lineDepth n == Qmax 1 (inject_Z (Z.of_nat n) / 2))%Q.
Proof. unfold lineDepth. apply Qred_correct. Qed.

Lemma lineDepth_ge_1 n : (1 <= lineDepth n)%Q.
Proof. rewrite lineDepth_eq. apply Q.le_max_l. Qed.

Lemma lineDepth_pos n : (0 < lineDepth n)%Q.
Proof. eapply Qlt_le_trans; [|apply lineDepth_ge_1]. reflexivity. Qed.

(** What the [while] loop leaves: the popped nodes were at the depth of the
    line or deeper, and the new top is the only node left or is strictly
    shallower than the line. *)
Lemma popStack_total (h : Heap) depth stk :
  Forall (isNodeAt h) stk -> stk <> [] ->
  exists popped parent below,
    popStack h depth stk = Some (parent :: below)
    /\ stk = popped ++ parent :: below
    /\ Forall (fun r => exists o, h !! r = Some o /\ (depth <= objDepth o)%Q)
              popped
    /\ (below = [] \/
        exists o, h !! parent = Some o /\ (objDepth o < depth)%Q).
Proof.
  induction stk as [|top [|x rest] IH]; intros Hall Hne.
  - congruence.
  - exists [], top, []. simpl. auto.
  - inversion_clear Hall as [|? ? (k & v & d & dl & Htop) Hrest].
    cbn [popStack]. rewrite Htop. destruct (Qgtb depth d) eqn:Eg.
    + exists [], top, (x :: rest). split; [reflexivity|].
      split; [reflexivity|]. split; [constructor|]. right.
      eexists. split; [exact Htop|]. now apply Qgtb_true.
    + destruct (IH Hrest) as (popped & parent & below & Hp & Hs & Hd & Ht);
        [discriminate|].
      exists (top :: popped), parent, below. split; [exact Hp|].
      split; [simpl; now rewrite Hs|]. split; [|exact Ht].
      constructor; [|exact Hd]. eexists. split; [exact Htop|].
      now apply Qgtb_false.
Qed.

(** *** One line *)

(** Appending a fresh child to the array of the parent chosen by the
    [while] loop. *)
Lemma push_total (h : Heap) p child :
  refsOk h -> isNodeAt h p -> freshValue (objValue child) ->
  exists h' o elems,
    pushChild (ensureArray (ensureArray h p) p) p child = Some (h', length h)
    /\ evolves h h' /\ refsOk h' /\ length h' = S (length h)
    /\ h' !! length h = Some child
    /\ h' !! p = Some o /\ objValue o = VArray (elems ++ [length h]).
Proof.
  intros Hok (k & v & d & dl & Hp) Hfresh.
  destruct (ensureArray_array _ _ _ Hp) as (o1 & elems & H1 & Hv1).
  rewrite (ensureArray_id _ _ _ _ H1 Hv1).
  destruct (pushChild (ensureArray h p) p child) as [[h' r]|] eqn:Epush;
    [|now rewrite (pushChild_spec _ _ _ _ _ H1 Hv1) in Epush].
  destruct (pushChild_facts _ _ _ _ _ _ _ H1 Hv1 Epush)
    as (-> & Hlen & Hev & Hr & Hp').
  rewrite ensureArray_length in *.
  exists h', (setValue (VArray (elems ++ [length h])) o1), elems.
  split; [reflexivity|]. split.
  { eapply evolves_trans; [apply ensureArray_evolves|exact Hev]. }
  split.
  { apply (pushChild_refsOk _ _ _ _ _ _ _ H1 Hv1 Epush Hfresh).
    now apply ensureArray_refsOk. }
  split; [exact Hlen|]. split; [exact Hr|]. split; [exact Hp'|].
  apply objValue_setValue.
Qed.

Lemma wf_evolves rootKey delimiter h stk h' :
  wf rootKey delimiter (mkState h stk) -> evolves h h' -> refsOk h' ->
  wf rootKey delimiter (mkState h' stk).
Proof.
  intros [[v Hroot] Hstk Hbot _] Hev Hok. constructor; cbn [heap stack] in *.
  - destruct (evolves_root _ _ _ _ _ _ Hev Hroot) as [v' Hv']. now exists v'.
  - eapply Forall_impl; [exact Hstk|]. intros r. now apply evolves_isNodeAt.
  - exact Hbot.
  - exact Hok.
Qed.

Lemma wf_suffix rootKey delimiter h popped stk :
  stk <> [] -> wf rootKey delimiter (mkState h (popped ++ stk)) ->
  wf rootKey delimiter (mkState h stk).
Proof.
  intros Hne [Hroot Hstk Hbot Hok]. constructor; cbn [heap stack] in *; auto.
  - now apply Forall_app in Hstk.
  - rewrite last_app in Hbot. destruct (last stk) eqn:E; [exact Hbot|].
    apply last_None in E. congruence.
Qed.

Lemma wf_push rootKey delimiter h stk r :
  wf rootKey delimiter (mkState h stk) -> isNodeAt h r -> stk <> [] ->
  wf rootKey delimiter (mkState h (r :: stk)).
Proof.
  intros [Hroot Hstk Hbot Hok] Hr Hne. constructor; cbn [heap stack] in *; auto.
  destruct stk; [congruence|]. now rewrite last_cons_cons.
Qed.

Lemma processLine_total rootKey delimiter st line :
  wf rootKey delimiter st ->
  exists popped parent below st',
    popStack (heap st) (lineDepth (getIndentation line)) (stack st)
      = Some (parent :: below)
    /\ stack st = popped ++ parent :: below
    /\ processLine delimiter st line = Some st'
    /\ wf rootKey delimiter st'
    /\ stepsTo st parent below (lineDepth (getIndentation line)) st'.
Proof.
  intros Hwf. destruct st as [h stk].
  assert (Hne : stk <> []).
  { destruct Hwf as [_ _ Hbot _]. simpl in Hbot. intros ->. discriminate. }
  destruct (popStack_total h (lineDepth (getIndentation line)) stk)
    as (popped & parent & below & Hpop & Hs & _ & _);
    [apply Hwf|exact Hne|].
  exists popped, parent, below.
  enough (exists st', processLine delimiter (mkState h stk) line = Some st'
            /\ wf rootKey delimiter st'
            /\ stepsTo (mkState h stk) parent below
                 (lineDepth (getIndentation line)) st')
    as (st' & ? & ? & ?) by (exists st'; auto).
  unfold processLine. cbn [heap stack]. rewrite Hpop.
  assert (Hwf1 : wf rootKey delimiter (mkState h (parent :: below))).
  { apply (wf_suffix _ _ _ popped); [discriminate|now rewrite <- Hs]. }
  assert (Hparent : isNodeAt h parent).
  { destruct Hwf1 as [_ Hstk _ _]. now inversion Hstk. }
  assert (Hok : refsOk h) by apply Hwf.
  assert (Hpush : forall child,
     freshValue (objValue child) ->
     objDepth child = lineDepth (getIndentation line) ->
     exists h',
       pushChild (ensureArray (ensureArray h parent) parent) parent child
         = Some (h', length h)
       /\ wf rootKey delimiter (mkState h' (parent :: below))
       /\ stepsTo (mkState h stk) parent below
            (lineDepth (getIndentation line)) (mkState h' (parent :: below))
       /\ ((exists k v d dl, child = ONode k v d dl) ->
           wf rootKey delimiter (mkState h' (length h :: parent :: below))
           /\ stepsTo (mkState h stk) parent below
                (lineDepth (getIndentation line))
                (mkState h' (length h :: parent :: below)))).
  { intros child Hfresh Hdepth.
    destruct (push_total h parent child Hok Hparent Hfresh)
      as (h' & o & elems & E & Hev & Hok' & Hlen & Hr & Hp & Hv).
    exists h'. split; [exact E|].
    pose proof (wf_evolves _ _ _ _ _ Hwf1 Hev Hok') as Hwf'.
    split; [exact Hwf'|]. split.
    - split; [exact Hev|]. right. cbn [heap stack]. eauto 10.
    - intros (k & v & d & dl & ->). split.
      + apply wf_push; [exact Hwf'| |discriminate]. now exists k, v, d, dl.
      + split; [exact Hev|]. right. cbn [heap stack]. eauto 10. }
  destruct (startsWith (u "- ") (trim line)).
  { match goal with
    | |- context [pushChild _ _ ?c] =>
        destruct (Hpush c) as (h' & E & Hw & Hst & _)
    end.
    - destruct (keyValueMatch _ _) as [[k v]|]; simpl; [right|right]; eauto.
    - now destruct (keyValueMatch _ _) as [[k v]|].
    - rewrite E. eauto. }
  destruct (sectionMatch delimiter (trim line)) as [k|].
  { destruct (Hpush (ONode k (VArray []) (lineDepth (getIndentation line))
                       (Some delimiter)))
      as (h' & E & _ & _ & Hnode); [now left|reflexivity|].
    rewrite E. destruct Hnode as [Hw Hst]; eauto 8. }
  destruct (keyValueMatch delimiter (trim line)) as [[k v]|].
  { destruct (Hpush (ONode k (VString v) (lineDepth (getIndentation line))
                       (Some delimiter)))
      as (h' & E & Hw & Hst & _); [right; eauto|reflexivity|].
    rewrite E. eauto. }
  assert (Hev2 : evolves h (ensureArray (ensureArray h parent) parent)).
  { eapply evolves_trans; apply ensureArray_evolves. }
  assert (Hok2 : refsOk (ensureArray (ensureArray h parent) parent)).
  { now do 2 apply ensureArray_refsOk. }
  assert (Hlen2 : length (ensureArray (ensureArray h parent) parent) = length h).
  { now rewrite !ensureArray_length. }
  destruct (trim line) as [|c0 t0].
  - eexists. split; [reflexivity|]. split.
    + eapply wf_evolves; eauto.
    + split; [exact Hev2|]. left. cbn [heap stack]. auto.
  - destruct (evolves_isNodeAt _ _ _ Hev2 Hparent) as (k & v & d & dl & Hp2).
    destruct (appendToLastChild_total _ _ _ line (getIndentation line) Hp2 Hok2)
      as (h' & -> & Hev' & Hlen' & Hok').
    eexists. split; [reflexivity|].
    assert (Hev3 : evolves h h') by (eapply evolves_trans; eauto).
    split.
    + eapply wf_evolves; eauto.
    + split; [exact Hev3|]. left. cbn [heap stack]. split; [lia|reflexivity].
Qed.

(** *** All the lines *)

Lemma initialState_wf rootKey delimiter :
  wf rootKey delimiter (initialState rootKey delimiter).
Proof.
  constructor; cbn [heap stack initialState].
  - now exists (VArray []).
  - constructor; [|constructor]. now exists rootKey, (VArray []), 0%Q, (Some delimiter).
  - reflexivity.
  - intros [|r] o elems; simpl; [|discriminate].
    intros [= <-] [= <-]. constructor.
Qed.

Lemma processLines_total rootKey delimiter lines : forall st,
  wf rootKey delimiter st ->
  exists st', processLines delimiter st lines = Some st'
    /\ wf rootKey delimiter st'.
Proof.
  induction lines as [|line lines IH]; intros st Hwf; simpl.
  - now exists st.
  - destruct (processLine_total _ _ _ line Hwf)
      as (_ & _ & _ & st1 & _ & _ & -> & Hwf1 & _).
    now apply IH.
Qed.

(** [parseZW] never throws: every read of the loop goes through a
    reference the invariant vouches for. *)
Lemma parseZW_never_throws zwString options :
  parseZW zwString options <> Threw.
Proof.
  unfold parseZW. destruct (preprocess zwString) as [|c0 s0]; [discriminate|].
  destruct (semanticLines (c0 :: s0)) as [|l rest]; [discriminate|].
  destruct (rootLineMatch l) as [rootKey|]; [|discriminate].
  destruct (processLines_total rootKey (effectiveDelimiterOf options) rest
              _ (initialState_wf _ _)) as (st & -> & _).
  discriminate.
Qed.

(** *** Reading the tree back *)

Lemma readAll_total (rd : ref -> option ZWChild) rs :
  Forall (fun r => is_Some (rd r)) rs -> is_Some (readAll rd rs).
Proof.
  induction 1 as [|r rs [c Hc] _ [cs Hcs]]; simpl; [now eexists|].
  rewrite Hc, Hcs. now eexists.
Qed.

Lemma readChild_total (h : Heap) :
  refsOk h ->
  forall fuel r o, h !! r = Some o -> (length h - r <= fuel)%nat ->
    exists v', readValue (readChild (pred fuel) h) (objValue o) = Some v'
      /\ readChild fuel h r =
           Some match o with
                | ONode k _ d dl => ChildNode (Node k v' d dl)
                | OItem _ kv ik d dl => ChildItem (Item v' kv ik d dl)
                end.
Proof.
  intros Hok. induction fuel as [|fuel IH]; intros r o Hr Hfuel.
  - pose proof (lookup_lt_Some _ _ _ Hr). lia.
  - assert (Hv : is_Some (readValue (readChild fuel h) (objValue o))).
    { destruct (objValue o) as [| |elems] eqn:Ev; simpl; try now eexists.
      destruct (readAll_total (readChild fuel h) elems) as [cs ->];
        [|now eexists].
      eapply Forall_impl; [exact (Hok _ _ _ Hr Ev)|]. simpl. intros c Hc.
      destruct (lookup_lt_is_Some_2 h c) as [oc Hoc]; [lia|].
      destruct (IH c oc Hoc) as (v' & _ & ->); [lia|]. now eexists. }
    destruct Hv as [v' Hv']. exists v'. split; [exact Hv'|].
    cbn [readChild]. rewrite Hr. destruct o; simpl in *; now rewrite Hv'.
Qed.

Lemma readNode_total rootKey delimiter st :
  wf rootKey delimiter st ->
  exists value, readNode (heap st) 0%nat
                = Some (Node rootKey value 0 (Some delimiter)).
Proof.
  intros [[v Hroot] _ _ Hok].
  destruct (readChild_total _ Hok (length (heap st)) 0%nat _ Hroot)
    as (v' & _ & E); [lia|].
  exists v'. unfold readNode. now rewrite E.
Qed.

(** *** Keys *)

Lemma startsWith_true (p s : jsstring) :
  startsWith p s = true -> exists r, s = p ++ r.
Proof.
  revert s; induction p as [|x p IH]; intros s; simpl.
  - intros _. now exists s.
  - destruct s as [|y s]; [discriminate|].
    intros [Hx Hp]%andb_prop. apply N.eqb_eq in Hx as ->.
    destruct (IH _ Hp) as [r ->]. now exists r.
Qed.

(** A root type is never an error key: the error prefix holds a colon. *)
Lemma rootKey_not_error (key : jsstring) :
  forallb isRootKeyChar key = true -> startsWith (u "Error:") key = false.
Proof.
  intros Hkey. destruct (startsWith (u "Error:") key) eqn:E; [|reflexivity].
  apply startsWith_true in E as [r ->]. discriminate Hkey.
Qed.

Module RootAccepted.

(** C10. Whenever the first semantic line of the input is a root
    declaration, [parseZW] returns a node of the store it built, for every
    delimiter option and whatever the later lines hold: it does not throw
    and does not return [null]; the node read back carries the declared
    root type as its key, depth 0 and the effective delimiter, and it fails
    the callers' test [key.startsWith('Error:')].  The failed root match is
    the only path to an error node. *)
Theorem parseZW_valid_root_succeeds zwString options rootLineContent rest
    rootKey :
  semanticLines (preprocess zwString) = rootLineContent :: rest ->
  RootDeclaration rootKey rootLineContent ->
  exists h value,
    parseZW zwString options = Returned h 0%nat
    /\ parseTree zwString options =
         Some (Some (Node rootKey value 0
                          (Some (effectiveDelimiterOf options))))
    /\ isErrorNode (Node rootKey value 0
                         (Some (effectiveDelimiterOf options))) = false.
Proof.
  intros Hs Hroot. pose proof Hroot as (_ & Hkey & _).
  apply rootLineMatch_Some in Hroot.
  pose proof (semanticLines_nonempty _ _ _ Hs) as Hne.
  destruct (processLines_total rootKey (effectiveDelimiterOf options) rest
              _ (initialState_wf _ _)) as (st & Hrun & Hwf).
  destruct (readNode_total _ _ _ Hwf) as [value Hread].
  assert (Hp : parseZW zwString options = Returned (heap st) 0%nat).
  { unfold parseZW. destruct (preprocess zwString) as [|c0 s0]; [congruence|].
    now rewrite Hs, Hroot, Hrun. }
  exists (heap st), value. split; [exact Hp|]. split.
  - unfold parseTree. now rewrite Hp, Hread.
  - unfold isErrorNode. simpl. now apply rootKey_not_error.
Qed.

(** A document whose later lines include stray text and an over-indented
    list item. *)
Lemma parseZW_valid_root_example :
  exists h value,
    parseZW (doc ["ZW-TEST:"; "  a: 1"; "stray ~ text"; "      - x"]%string)
            None = Returned h 0%nat
    /\ parseTree (doc ["ZW-TEST:"; "  a: 1"; "stray ~ text"; "      - x"]%string)
                 None =
         Some (Some (Node (u "ZW-TEST") value 0 (Some (u ":"))))
    /\ isErrorNode (Node (u "ZW-TEST") value 0 (Some (u ":"))) = false.
Proof.
  apply (parseZW_valid_root_succeeds
           (doc ["ZW-TEST:"; "  a: 1"; "stray ~ text"; "      - x"]%string)
           None (u "ZW-TEST:")
           [u "  a: 1"; u "stray ~ text"; u "      - x"] (u "ZW-TEST")).
  - vm_compute; reflexivity.
  - split; [discriminate|]. split; [reflexivity|].
    exists []. split; reflexivity.
Defined.

(** The root line is matched against the colon whatever delimiter is
    passed: the option only governs the lines below the root. *)
Lemma root_line_ignores_delimiter_option :
  parseTree (u "FOO:") (Some (u "="))
    = Some (Some (Node (u "FOO") (Children []) 0 (Some (u "="))))
  /\ parseTree (u "FOO=") (Some (u "="))
    = Some (Some (Node errorKey (Scalar (errorValue (u "FOO="))) 0 None)).
Proof. split; by_evaluation. Qed.

End RootAccepted.

(** ** Depth of a line *)

Lemma inject_Z_max a b : (inject_Z (Z.max a b) == Qmax (inject_Z a) (inject_Z b))%Q.
Proof.
  destruct (Z.le_ge_cases a b) as [H|H].
  - rewrite Z.max_r by exact H. symmetry. apply Q.max_r. now rewrite <- Zle_Qle.
  - rewrite Z.max_l by exact H. symmetry. apply Q.max_l. now rewrite <- Zle_Qle.
Qed.

(** On an even indentation the quotient is an integer, and truncation
    changes nothing. *)
Lemma lineDepth_even (k : nat) :
  (lineDepth (2 * k) == inject_Z (truncatedDepth (2 * k)))%Q.
Proof.
  rewrite lineDepth_eq. unfold truncatedDepth.
  rewrite inject_Z_max. apply Q.max_compat; [reflexivity|].
  rewrite Nat2Z.inj_mul. simpl (Z.of_nat 2).
  rewrite Z.mul_comm, Z.div_mul by discriminate.
  rewrite inject_Z_mult. field.
Qed.

Module LineDepth.

(** C2, the claim as stated fails: three spaces give the depth 3/2, not the
    truncated 1.  The difference shows in the tree: under a section
    indented by two spaces, a line indented by three is its child, a line
    indented by two is its sibling. *)
Lemma three_spaces_are_deeper_than_two :
  lineDepth (getIndentation (u "   b: 1")) = (3 # 2)%Q
  /\ truncatedDepth (getIndentation (u "   b: 1")) = 1%Z
  /\ lineDepth (getIndentation (u "  b: 1")) = 1%Q
  /\ ~ (lineDepth (getIndentation (u "   b: 1"))
        == lineDepth (getIndentation (u "  b: 1")))%Q
  /\ parseTree (doc ["ROOT:"; "  a:"; "   b: 1"]%string) None =
       Some (Some (Node (u "ROOT")
         (Children
            [ChildNode (Node (u "a")
               (Children [ChildNode (Node (u "b") (Scalar (u "1")) (3 # 2)
                                          (Some (u ":")))])
               1 (Some (u ":")))])
         0 (Some (u ":"))))
  /\ parseTree (doc ["ROOT:"; "  a:"; "  b: 1"]%string) None =
       Some (Some (Node (u "ROOT")
         (Children
            [ChildNode (Node (u "a") (Children []) 1 (Some (u ":")));
             ChildNode (Node (u "b") (Scalar (u "1")) 1 (Some (u ":")))])
         0 (Some (u ":")))).
Proof.
  repeat split; try (by_evaluation).
  vm_compute. discriminate.
Qed.

(** C2, amended. The depth the loop gives a line is [max(1, indentation /
    2)] with the exact quotient: whatever object the line allocates carries
    that number as its depth.  Two spaces give 1, three spaces give 3/2; on
    every even indentation the number is the truncated one. *)
Theorem lineDepth_is_exact_half rootKey delimiter (lines : list jsstring)
    (line : jsstring) :
  exists st st',
    processLines delimiter (initialState rootKey delimiter) lines = Some st
    /\ processLine delimiter st line = Some st'
    /\ (forall child, heap st' !! length (heap st) = Some child ->
          (objDepth child
           == Qmax 1 (inject_Z (Z.of_nat (getIndentation line)) / 2))%Q)
    /\ lineDepth 2 = 1%Q /\ lineDepth 3 = (3 # 2)%Q
    /\ (forall k : nat,
          (lineDepth (2 * k) == inject_Z (truncatedDepth (2 * k)))%Q).
Proof.
  destruct (processLines_total rootKey delimiter lines _
              (initialState_wf _ _)) as (st & Hrun & Hwf).
  destruct (processLine_total _ _ _ line Hwf)
    as (popped & parent & below & st' & _ & _ & Hstep & _ & _ & Hto).
  exists st, st'. split; [exact Hrun|]. split; [exact Hstep|].
  split; [|split; [reflexivity|split; [reflexivity|apply lineDepth_even]]].
  intros child Hchild.
  destruct Hto as [[Hlen _]|(_ & _ & (c & Hc & Hd) & _)].
  - apply lookup_lt_Some in Hchild. lia.
  - rewrite Hchild in Hc. injection Hc as <-. rewrite Hd. apply lineDepth_eq.
Qed.

End LineDepth.

(** ** Lines with a key and nothing after the delimiter *)

Lemma takeWhile_app_all (p : N -> bool) (a b : jsstring) :
  forallb p a = true -> takeWhile p (a ++ b) = a ++ takeWhile p b.
Proof.
  induction a as [|x a IH]; simpl; [reflexivity|].
  intros [Hx Ha]%andb_prop. now rewrite Hx, IH.
Qed.

Lemma effectiveDelimiterOf_nonempty options : effectiveDelimiterOf options <> [].
Proof. destruct options as [[|c d]|]; discriminate. Qed.

Lemma matchKeyed_key_delimiter (key delimiter : jsstring) (n : nat) :
  key <> [] -> delimiter <> [] -> (length key <= n)%nat ->
  matchKeyed n delimiter (key ++ delimiter) sectionTail = Some (key, tt).
Proof.
  intros Hk Hd. induction n as [|n IH]; intros Hn.
  - destruct key; [congruence|simpl in Hn; lia].
  - cbn [matchKeyed]. destruct (decide (length key = S n)) as [E|Hne].
    + rewrite <- E, drop_app_length, startsWith_refl.
      rewrite drop_ge by (rewrite length_app; lia).
      simpl. now rewrite take_app_length.
    + destruct (startsWith delimiter (skipn (S n) (key ++ delimiter))) eqn:Es.
      * apply startsWith_length in Es. rewrite length_skipn, length_app in Es.
        destruct delimiter; [congruence|simpl in Es; lia].
      * apply IH. lia.
Qed.

Lemma sectionMatch_key_delimiter (key delimiter : jsstring) :
  key <> [] -> delimiter <> [] -> forallb isKeyChar key = true ->
  sectionMatch delimiter (key ++ delimiter) = Some key.
Proof.
  intros Hk Hd Hall. unfold sectionMatch.
  rewrite matchKeyed_key_delimiter; [reflexivity|exact Hk|exact Hd|].
  unfold keyRun. rewrite takeWhile_app_all, length_app by exact Hall. lia.
Qed.

Lemma key_is_not_list_marker (key rest : jsstring) :
  key <> [] -> forallb isKeyChar key = true ->
  startsWith (u "- ") (key ++ rest) = false.
Proof.
  destruct key as [|c key]; [congruence|]. intros _ [Hc _]%andb_prop.
  change (u "- ") with [45; 32]. cbn [startsWith app].
  destruct (N.eqb_spec 45 c) as [<-|Hne]; [discriminate Hc|reflexivity].
Qed.

(** The section branch of [processLine]. *)
Lemma processLine_section rootKey delimiter st line key :
  wf rootKey delimiter st ->
  startsWith (u "- ") (trim line) = false ->
  sectionMatch delimiter (trim line) = Some key ->
  exists parent below h',
    popStack (heap st) (lineDepth (getIndentation line)) (stack st)
      = Some (parent :: below)
    /\ processLine delimiter st line
       = Some (mkState h' (length (heap st) :: parent :: below))
    /\ h' !! length (heap st)
       = Some (ONode key (VArray []) (lineDepth (getIndentation line))
                     (Some delimiter))
    /\ (exists o elems, h' !! parent = Some o
          /\ objValue o = VArray (elems ++ [length (heap st)]))
    /\ refsOk h'.
Proof.
  intros Hwf Hlist Hsec. destruct st as [h stk].
  assert (Hne : stk <> []).
  { destruct Hwf as [_ _ Hbot _]. simpl in Hbot. intros ->. discriminate. }
  destruct (popStack_total h (lineDepth (getIndentation line)) stk)
    as (popped & parent & below & Hpop & Hs & _ & _);
    [apply Hwf|exact Hne|].
  assert (Hparent : isNodeAt h parent).
  { pose proof (wf_stack _ _ _ Hwf) as Hstk. cbn [stack] in Hstk.
    rewrite Hs in Hstk. apply Forall_app in Hstk as [_ Hstk].
    now inversion Hstk. }
  destruct (push_total h parent
              (ONode key (VArray []) (lineDepth (getIndentation line))
                     (Some delimiter)) (wf_refs _ _ _ Hwf) Hparent)
    as (h' & o & elems & E & _ & Hok' & _ & Hr & Hp & Hv); [now left|].
  exists parent, below, h'. cbn [heap stack]. split; [exact Hpop|].
  split; [|eauto 6].
  unfold processLine. cbn [heap stack]. now rewrite Hpop, Hlist, Hsec, E.
Qed.

Module EmptyValue.

(** C9, the claim as stated fails: the line ["  name: "], a key, the
    delimiter and nothing but a blank after it, yields a child whose value
    is the empty array of a section, not the empty string of a leaf. *)
Lemma key_with_empty_value_is_a_section :
  exists child,
    parseTree (doc ["ROOT:"; "  name: "; "  other: 1"]%string) None =
      Some (Some (Node (u "ROOT")
        (Children [ChildNode child;
                   ChildNode (Node (u "other") (Scalar (u "1")) 1
                                   (Some (u ":")))])
        0 (Some (u ":"))))
    /\ child = Node (u "name") (Children []) 1 (Some (u ":"))
    /\ nodeValue child <> Scalar [].
Proof.
  exists (Node (u "name") (Children []) 1 (Some (u ":"))).
  split; [by_evaluation|]. split; [reflexivity|discriminate].
Qed.

(** C9, amended. After any sequence of lines, a line that is, once
    trimmed, a key followed by the effective delimiter and nothing else is
    a section opener: the loop allocates for it a node with that key and
    the empty array as value (not [undefined], not a string), appends it to
    the parent's array and pushes it on the stack; read back, the node has
    an empty child sequence. *)
Theorem key_without_value_opens_empty_section rootKey options
    (lines : list jsstring) (line key : jsstring) :
  key <> [] -> forallb isKeyChar key = true ->
  trim line = key ++ effectiveDelimiterOf options ->
  exists st parent below h',
    processLines (effectiveDelimiterOf options)
      (initialState rootKey (effectiveDelimiterOf options)) lines = Some st
    /\ processLine (effectiveDelimiterOf options) st line
       = Some (mkState h' (length (heap st) :: parent :: below))
    /\ h' !! length (heap st)
       = Some (ONode key (VArray []) (lineDepth (getIndentation line))
                     (Some (effectiveDelimiterOf options)))
    /\ (exists o elems, h' !! parent = Some o
          /\ objValue o = VArray (elems ++ [length (heap st)]))
    /\ readChild (length h') h' (length (heap st))
       = Some (ChildNode (Node key (Children [])
                               (lineDepth (getIndentation line))
                               (Some (effectiveDelimiterOf options)))).
Proof.
  intros Hk Hall Htrim.
  destruct (processLines_total rootKey (effectiveDelimiterOf options) lines _
              (initialState_wf _ _)) as (st & Hrun & Hwf).
  destruct (processLine_section _ _ _ line key Hwf)
    as (parent & below & h' & _ & Hstep & Hnew & Hparent & Hok').
  { rewrite Htrim. now apply key_is_not_list_marker. }
  { rewrite Htrim. apply sectionMatch_key_delimiter; auto.
    apply effectiveDelimiterOf_nonempty. }
  exists st, parent, below, h'. repeat (split; [assumption|]).
  destruct (readChild_total _ Hok' (length h') _ _ Hnew) as (v' & Hv & ->);
    [lia|].
  simpl in Hv. now injection Hv as <-.
Qed.

(** The line ["  name: "] under a root, with the default delimiter. *)
Lemma key_without_value_example :
  exists st parent below h',
    processLines (effectiveDelimiterOf None)
      (initialState (u "ROOT") (effectiveDelimiterOf None)) [] = Some st
    /\ processLine (effectiveDelimiterOf None) st (u "  name: ")
       = Some (mkState h' (length (heap st) :: parent :: below))
    /\ h' !! length (heap st)
       = Some (ONode (u "name") (VArray [])
                     (lineDepth (getIndentation (u "  name: ")))
                     (Some (effectiveDelimiterOf None)))
    /\ (exists o elems, h' !! parent = Some o
          /\ objValue o = VArray (elems ++ [length (heap st)]))
    /\ readChild (length h') h' (length (heap st))
       = Some (ChildNode (Node (u "name") (Children [])
                               (lineDepth (getIndentation (u "  name: ")))
                               (Some (effectiveDelimiterOf None)))).
Proof.
  apply (key_without_value_opens_empty_section (u "ROOT") None []
           (u "  name: ") (u "name")).
  - discriminate.
  - reflexivity.
  - vm_compute; reflexivity.
Defined.

End EmptyValue.

(** ** The serializer *)

Lemma split_cons_LF (s : jsstring) : split LF (LF :: s) = [] :: split LF s.
Proof. reflexivity. Qed.

Lemma split_not_nil (sep : N) (s : jsstring) : split sep s <> [].
Proof.
  induction s as [|c s IH]; simpl; [discriminate|].
  destruct (c =? sep); [discriminate|]. now destruct (split sep s).
Qed.

Lemma split_app_LF (a b : jsstring) :
  includes LF a = false -> split LF (a ++ LF :: b) = a :: split LF b.
Proof.
  unfold includes. induction a as [|c a IH]; cbn [app split existsb].
  - intros _. now rewrite N.eqb_refl.
  - intros [Hc Ha]%orb_false_elim. rewrite N.eqb_sym, Hc, IH by exact Ha.
    reflexivity.
Qed.

Lemma split_single_line (a : jsstring) :
  includes LF a = false -> split LF a = [a].
Proof.
  unfold includes. induction a as [|c a IH]; cbn [split existsb];
    [reflexivity|].
  intros [Hc Ha]%orb_false_elim. now rewrite N.eqb_sym, Hc, IH.
Qed.

Section SerializerFacts.

Variable JSON_parse : jsstring -> JsonValue + jsstring.
Variable engineRoundTrip : jsstring -> bool.

Lemma ambiguous_nonempty (value : jsstring) :
  isPotentiallyAmbiguous engineRoundTrip value = true -> value <> [].
Proof. intros H ->. discriminate H. Qed.

Lemma convertStringToZw_ambiguous (value indent : jsstring) :
  isPotentiallyAmbiguous engineRoundTrip value = true ->
  convertStringToZw engineRoundTrip value indent = quoted (escapeQuotes value).
Proof.
  intros H. unfold convertStringToZw. rewrite H.
  apply ambiguous_nonempty, eqb_neq in H. now rewrite H.
Qed.

Lemma convertStringToZw_plain (value indent : jsstring) :
  value <> [] -> isPotentiallyAmbiguous engineRoundTrip value = false ->
  includes LF value = false ->
  convertStringToZw engineRoundTrip value indent = value.
Proof.
  intros Hne Ha Hl. unfold convertStringToZw. rewrite Ha, Hl.
  apply eqb_neq in Hne. now rewrite Hne.
Qed.


Lemma length_escapeQuotes (value : jsstring) :
  (length value <= length (escapeQuotes value))%nat.
Proof.
  induction value as [|c value IH]; simpl; [lia|].
  destruct (c =? QUOTE); simpl; lia.
Qed.

Lemma quoted_differs (value : jsstring) : quoted (escapeQuotes value) <> value.
Proof.
  intros E. apply (f_equal (@length N)) in E. unfold quoted in E.
  rewrite length_app in E. simpl in E. rewrite length_app in E. simpl in E.
  pose proof (length_escapeQuotes value). lia.
Qed.

End SerializerFacts.

Module Quoting.

(** C7. A string is emitted between quotes, with a backslash before each
    inner quote, whenever its lower-cased text is [true], [false] or [null]
    or its text is what [String(Number(text))] gives back; a non-empty
    single-line string is emitted as it is whenever that is not so, and so
    for such strings the quoted form is produced exactly in the first case.
    (The empty string has a branch of its own and is emitted as a pair of
    quotes.)  The string ["42"] is emitted between quotes and the number 42
    bare, also as property values of a document. *)
Theorem string_quoted_iff_ambiguous (engineRoundTrip : jsstring -> bool)
    (value : jsstring) (currentIndentLevel : nat) :
  (isPotentiallyAmbiguous engineRoundTrip value
   = (eqb (toLowerCase value) (u "true")
      || eqb (toLowerCase value) (u "false")
      || eqb (toLowerCase value) (u "null")
      || (negb (eqb value []) && numericRoundTrip engineRoundTrip value)))
  /\ (isPotentiallyAmbiguous engineRoundTrip value = true ->
      convertValueToZw engineRoundTrip (JString value) currentIndentLevel
      = quoted (escapeQuotes value))
  /\ (value <> [] ->
      isPotentiallyAmbiguous engineRoundTrip value = false ->
      includes LF value = false ->
      convertValueToZw engineRoundTrip (JString value) currentIndentLevel
      = value)
  /\ (value <> [] -> includes LF value = false ->
      (convertValueToZw engineRoundTrip (JString value) currentIndentLevel
       = quoted (escapeQuotes value)
       <-> isPotentiallyAmbiguous engineRoundTrip value = true))
  /\ convertValueToZw engineRoundTrip (JString []) currentIndentLevel
     = quoted []
  /\ convertValueToZw engineRoundTrip (JString (u "42")) currentIndentLevel
     = quoted (u "42")
  /\ convertValueToZw engineRoundTrip (JNumber 42) currentIndentLevel
     = u "42"
  /\ convertParsedJson engineRoundTrip
       (JObject [(u "a", JString (u "42")); (u "b", JNumber 42)])
       (Some (u "ZW-T"))
     = join [LF] [u "ZW-T:"; u "  a: " ++ quoted (u "42"); u "  b: 42"].
Proof.
  split; [reflexivity|]. split; [apply convertStringToZw_ambiguous|].
  split; [apply convertStringToZw_plain|].
  split; [|repeat split; by_evaluation].
  intros Hne Hl. split.
  - intros E. destruct (isPotentiallyAmbiguous engineRoundTrip value) eqn:Ha;
      [reflexivity|].
    cbn [convertValueToZw] in E.
    rewrite convertStringToZw_plain in E by assumption.
    symmetry in E. now apply quoted_differs in E.
  - apply convertStringToZw_ambiguous.
Qed.

End Quoting.

Module ListOfObjects.

(** C5. The value [{"items":[{"x":1},{"x":2}]}] is serialized as the header
    [items:] followed by the lines [- x: 1] and [- x: 2] one level deeper;
    [parseZW] reads that text as a node [items] holding exactly two list
    items, both with [isKeyValue] true and [itemKey] ["x"], with the values
    ["1"] and ["2"].  The same holds one level deeper under a root type. *)
Theorem list_of_objects_round_trip
    (JSON_parse : jsstring -> JsonValue + jsstring)
    (engineRoundTrip : jsstring -> bool) (jsonString : jsstring) :
  JSON_parse jsonString =
    inl (JObject [(u "items", JArray [JObject [(u "x", JNumber 1)];
                                      JObject [(u "x", JNumber 2)]])]) ->
  convertJsonToZwString JSON_parse engineRoundTrip jsonString None
    = doc ["items:"; "  - x: 1"; "  - x: 2"]%string
  /\ parseTree (convertJsonToZwString JSON_parse engineRoundTrip jsonString
                  None) None
     = Some (Some (Node (u "items")
         (Children
            [ChildItem (Item (Scalar (u "1")) (Some true) (Some (u "x")) 1
                             (u ":"));
             ChildItem (Item (Scalar (u "2")) (Some true) (Some (u "x")) 1
                             (u ":"))])
         0 (Some (u ":"))))
  /\ convertJsonToZwString JSON_parse engineRoundTrip jsonString
       (Some (u "ZW-TEST"))
     = doc ["ZW-TEST:"; "  items:"; "    - x: 1"; "    - x: 2"]%string
  /\ parseTree (convertJsonToZwString JSON_parse engineRoundTrip jsonString
                  (Some (u "ZW-TEST"))) None
     = Some (Some (Node (u "ZW-TEST")
         (Children
            [ChildNode (Node (u "items")
               (Children
                  [ChildItem (Item (Scalar (u "1")) (Some true)
                                   (Some (u "x")) 2 (u ":"));
                   ChildItem (Item (Scalar (u "2")) (Some true)
                                   (Some (u "x")) 2 (u ":"))])
               1 (Some (u ":")))])
         0 (Some (u ":")))).
Proof.
  intros H. unfold convertJsonToZwString. rewrite H.
  repeat split; by_evaluation.
Qed.

Lemma list_of_objects_example :
  convertJsonToZwString
    (parsesOnly itemsJson itemsValue (u "Unexpected end of JSON input"))
    (fun _ => false) itemsJson None
  = doc ["items:"; "  - x: 1"; "  - x: 2"]%string
  /\ parseTree (doc ["items:"; "  - x: 1"; "  - x: 2"]%string) None
     = Some (Some (Node (u "items")
         (Children
            [ChildItem (Item (Scalar (u "1")) (Some true) (Some (u "x")) 1
                             (u ":"));
             ChildItem (Item (Scalar (u "2")) (Some true) (Some (u "x")) 1
                             (u ":"))])
         0 (Some (u ":")))).
Proof.
  destruct (list_of_objects_round_trip
              (parsesOnly itemsJson itemsValue
                 (u "Unexpected end of JSON input"))
              (fun _ => false) itemsJson) as (H1 & H2 & _).
  - vm_compute; reflexivity.
  - split; [exact H1|]. rewrite <- H1. exact H2.
Defined.

End ListOfObjects.

Module SyntheticRoot.

(** C3, at the failing input. Without a root type, an array gets the first
    line [JSON_ARRAY_ROOT:] and a primitive the first line
    [JSON_PRIMITIVE_ROOT:], but an object gets no label at all: the output
    is just its properties.  For [{"a":1}] the output is the single line
    [a: 1], which is no root declaration, and [parseZW] answers it with the
    error node. *)
Theorem object_root_gets_no_label
    (JSON_parse : jsstring -> JsonValue + jsstring)
    (engineRoundTrip : jsstring -> bool) (jsonString : jsstring) :
  JSON_parse jsonString = inl (JObject [(u "a", JNumber 1)]) ->
  convertJsonToZwString JSON_parse engineRoundTrip jsonString None = u "a: 1"
  /\ rootLineMatch (u "a: 1") = None
  /\ parseTree (convertJsonToZwString JSON_parse engineRoundTrip jsonString
                  None) None
     = Some (Some (Node errorKey (Scalar (errorValue (u "a: 1"))) 0 None))
  /\ (forall props,
        convertParsedJson engineRoundTrip (JObject props) None
        = convertObjectToZwItems engineRoundTrip props 0 false)
  /\ (forall items,
        convertParsedJson engineRoundTrip (JArray items) None
        = u "JSON_ARRAY_ROOT:" ++ [LF]
          ++ convertValueToZw engineRoundTrip (JArray items) 0)
  /\ (forall value,
        match value with
        | JObject _ | JArray _ => True
        | _ =>
            convertParsedJson engineRoundTrip value None
            = u "JSON_PRIMITIVE_ROOT:" ++ [LF] ++ u "ROOT_VALUE: "
              ++ convertValueToZw engineRoundTrip value 0
        end)
  /\ rootLineMatch (u "JSON_ARRAY_ROOT:") = Some (u "JSON_ARRAY_ROOT")
  /\ rootLineMatch (u "JSON_PRIMITIVE_ROOT:")
     = Some (u "JSON_PRIMITIVE_ROOT").
Proof.
  intros H. unfold convertJsonToZwString. rewrite H.
  split; [by_evaluation|]. split; [by_evaluation|].
  split; [by_evaluation|].
  split; [|split; [|split; [|split; by_evaluation]]].
  - intros. unfold convertParsedJson. cbn [hasRootType noRootType andb].
    now rewrite andb_false_r.
  - intros. unfold convertParsedJson. cbn [hasRootType noRootType andb].
    now rewrite andb_false_r.
  - intros [| | | | | |]; try exact I;
      unfold convertParsedJson; cbn [hasRootType noRootType andb];
      now rewrite andb_false_r.
Qed.

Lemma object_root_example :
  convertJsonToZwString
    (parsesOnly objectText (JObject [(u "a", JNumber 1)])
       (u "Unexpected end of JSON input"))
    (fun _ => false) objectText None = u "a: 1"
  /\ rootLineMatch (u "a: 1") = None.
Proof.
  destruct (object_root_gets_no_label
              (parsesOnly objectText (JObject [(u "a", JNumber 1)])
                 (u "Unexpected end of JSON input"))
              (fun _ => false) objectText) as (H1 & H2 & _).
  - vm_compute; reflexivity.
  - split; [exact H1|exact H2].
Defined.

End SyntheticRoot.

Module InvalidJson.

(** C8. When [JSON.parse] throws, the function returns the line
    [# Error: Invalid JSON input.] followed by a line made of [# ] and the
    message of the engine: the result begins with [# Error:], and every
    line of it is a comment provided the message holds no line feed.  The
    lines of a message that spans several lines are not prefixed: for
    [unexpectedTokenMessage], the third line of the result is text outside
    any comment. *)
Theorem invalid_json_error_document
    (JSON_parse : jsstring -> JsonValue + jsstring)
    (engineRoundTrip : jsstring -> bool) (jsonString : jsstring)
    (rootZwType : option jsstring) (message : jsstring) :
  JSON_parse jsonString = inr message ->
  convertJsonToZwString JSON_parse engineRoundTrip jsonString rootZwType
    = u "# Error: Invalid JSON input." ++ [LF] ++ u "# " ++ message
  /\ startsWith (u "# Error:")
       (convertJsonToZwString JSON_parse engineRoundTrip jsonString
          rootZwType) = true
  /\ (includes LF message = false ->
      forallb isCommentLine
        (split LF (convertJsonToZwString JSON_parse engineRoundTrip
                     jsonString rootZwType)) = true)
  /\ (message = unexpectedTokenMessage ->
      split LF (convertJsonToZwString JSON_parse engineRoundTrip jsonString
                  rootZwType)
      = [u "# Error: Invalid JSON input.";
         u "# Unexpected token '}', " ++ [QUOTE] ++ u "[1,";
         u "}" ++ [QUOTE] ++ u " is not valid JSON"]
      /\ forallb isCommentLine
           (split LF (convertJsonToZwString JSON_parse engineRoundTrip
                        jsonString rootZwType)) = false).
Proof.
  intros H. unfold convertJsonToZwString. rewrite H.
  split; [reflexivity|]. split; [reflexivity|]. split.
  - intros Hl.
    change (u "# Error: Invalid JSON input." ++ [LF] ++ u "# " ++ message)
      with (u "# Error: Invalid JSON input." ++ LF :: (35 :: 32 :: message)).
    rewrite split_app_LF by reflexivity.
    rewrite split_single_line.
    + reflexivity.
    + unfold includes in *. cbn [existsb]. now rewrite Hl.
  - intros ->. split; by_evaluation.
Qed.

(** The failing input, with an engine that reports it as V8 does. *)
Lemma invalid_json_multi_line_message :
  convertJsonToZwString
    (parsesOnly [] JNull unexpectedTokenMessage) (fun _ => false)
    brokenJson None
  = u "# Error: Invalid JSON input." ++ [LF] ++ u "# "
    ++ unexpectedTokenMessage
  /\ forallb isCommentLine
       (split LF (convertJsonToZwString
                    (parsesOnly [] JNull unexpectedTokenMessage)
                    (fun _ => false) brokenJson None)) = false.
Proof.
  destruct (invalid_json_error_document
              (parsesOnly [] JNull unexpectedTokenMessage) (fun _ => false)
              brokenJson None unexpectedTokenMessage) as (H1 & _ & _ & H4).
  - vm_compute; reflexivity.
  - split; [exact H1|]. now destruct (H4 eq_refl).
Defined.

End InvalidJson.

(** ** Trimming and splitting *)

Lemma dropWhile_app (p : N -> bool) (x y : jsstring) :
  dropWhile p (x ++ y) =
    match dropWhile p x with
    | [] => dropWhile p y
    | d => d ++ y
    end.
Proof.
  induction x as [|c x IH]; simpl.
  - now destruct (dropWhile p y).
  - destruct (p c); [exact IH|reflexivity].
Qed.

Lemma dropWhile_all (p : N -> bool) (x : jsstring) :
  forallb p x = true -> dropWhile p x = [].
Proof.
  induction x as [|c x IH]; simpl; [reflexivity|].
  intros [Hc Hx]%andb_prop. rewrite Hc. now apply IH.
Qed.

Lemma dropWhile_nil_all (p : N -> bool) (x : jsstring) :
  dropWhile p x = [] -> forallb p x = true.
Proof.
  induction x as [|c x IH]; simpl; [reflexivity|].
  destruct (p c); [exact IH|discriminate].
Qed.

Lemma forallb_rev (p : N -> bool) (x : jsstring) :
  forallb p (rev x) = forallb p x.
Proof.
  induction x as [|c x IH]; simpl; [reflexivity|].
  rewrite forallb_app, IH. simpl. rewrite andb_true_r. apply andb_comm.
Qed.

(** [trimEnd], one character at a time. *)
Lemma trimEnd_cons (c : N) (s : jsstring) :
  trimEnd (c :: s) =
    match trimEnd s with
    | [] => if isWhiteSpace c then [] else [c]
    | t => c :: t
    end.
Proof.
  unfold trimEnd. simpl rev. rewrite dropWhile_app.
  destruct (dropWhile isWhiteSpace (rev s)) as [|d ds] eqn:E; simpl.
  - now destruct (isWhiteSpace c).
  - rewrite rev_app_distr. simpl.
    destruct (rev ds ++ [d]) eqn:E2; [now destruct (rev ds)|reflexivity].
Qed.

Lemma trimEnd_blank (s : jsstring) :
  forallb isWhiteSpace s = true -> trimEnd s = [].
Proof.
  intros H. unfold trimEnd. rewrite dropWhile_all; [reflexivity|].
  now rewrite forallb_rev.
Qed.

Lemma trimEnd_nil_blank (s : jsstring) :
  trimEnd s = [] -> forallb isWhiteSpace s = true.
Proof.
  unfold trimEnd. intros H. apply (f_equal (@rev N)) in H.
  rewrite rev_involutive in H. simpl in H.
  apply dropWhile_nil_all in H. now rewrite forallb_rev in H.
Qed.

Lemma trimEnd_app_blank (s w : jsstring) :
  forallb isWhiteSpace w = true -> trimEnd (s ++ w) = trimEnd s.
Proof.
  intros Hw. induction s as [|c s IH]; simpl.
  - now rewrite trimEnd_blank.
  - now rewrite !trimEnd_cons, IH.
Qed.

(** What [trimEnd] removes is whitespace. *)
Lemma trimEnd_split (s : jsstring) :
  exists w, forallb isWhiteSpace w = true /\ s = trimEnd s ++ w.
Proof.
  unfold trimEnd. exists (rev (takeWhile isWhiteSpace (rev s))). split.
  - rewrite forallb_rev. apply takeWhile_all.
  - rewrite <- rev_app_distr, takeWhile_dropWhile. now rewrite rev_involutive.
Qed.

Lemma trimStart_split (s : jsstring) :
  exists w, forallb isWhiteSpace w = true /\ s = w ++ trimStart s.
Proof.
  exists (takeWhile isWhiteSpace s). split; [apply takeWhile_all|].
  symmetry. apply takeWhile_dropWhile.
Qed.

Lemma trimStart_app_blank (w s : jsstring) :
  forallb isWhiteSpace w = true -> trimStart (w ++ s) = trimStart s.
Proof.
  intros Hw. unfold trimStart. now rewrite dropWhile_app, dropWhile_all.
Qed.

(** Whitespace around a text does not change what [trim] gives. *)
Lemma trim_blank_around (w1 s w2 : jsstring) :
  forallb isWhiteSpace w1 = true -> forallb isWhiteSpace w2 = true ->
  trim (w1 ++ s ++ w2) = trim s.
Proof.
  intros H1 H2. unfold trim. rewrite trimStart_app_blank by exact H1.
  unfold trimStart. rewrite dropWhile_app.
  destruct (dropWhile isWhiteSpace s) as [|d ds] eqn:E.
  - rewrite dropWhile_all by exact H2. reflexivity.
  - now apply trimEnd_app_blank.
Qed.

Lemma trim_blank_before (w s : jsstring) :
  forallb isWhiteSpace w = true -> trim (w ++ s) = trim s.
Proof.
  intros H. rewrite <- (app_nil_r s) at 1. now apply trim_blank_around.
Qed.

Lemma trim_blank_after (s w : jsstring) :
  forallb isWhiteSpace w = true -> trim (s ++ w) = trim s.
Proof. intros H. now apply (trim_blank_around [] s w). Qed.

Lemma trim_blank (w : jsstring) :
  forallb isWhiteSpace w = true -> trim w = [].
Proof.
  intros H. rewrite <- (app_nil_r w). now rewrite trim_blank_before.
Qed.

(** The input is its trimmed text between two runs of whitespace. *)
Lemma trim_split (s : jsstring) :
  exists w1 w2, forallb isWhiteSpace w1 = true
    /\ forallb isWhiteSpace w2 = true /\ s = w1 ++ trim s ++ w2.
Proof.
  destruct (trimStart_split s) as (w1 & H1 & E1).
  destruct (trimEnd_split (trimStart s)) as (w2 & H2 & E2).
  exists w1, w2. split; [exact H1|]. split; [exact H2|].
  unfold trim. now rewrite <- E2.
Qed.

(** A trimmed text does not begin with whitespace. *)
Lemma trim_head (s : jsstring) c r :
  trim s = c :: r -> isWhiteSpace c = false.
Proof.
  unfold trim. destruct (trimStart s) as [|d ds] eqn:E.
  - discriminate.
  - apply dropWhile_head in E. rewrite trimEnd_cons. rewrite E.
    destruct (trimEnd ds); now intros [= <- _].
Qed.

Lemma trimEnd_fixed (s : jsstring) c :
  isWhiteSpace c = false -> trimEnd (s ++ [c]) = s ++ [c].
Proof.
  intros Hc. unfold trimEnd. rewrite rev_app_distr. simpl. rewrite Hc.
  simpl. now rewrite rev_involutive.
Qed.

(** A text that begins and ends outside whitespace is its own trim. *)
Lemma trim_fixed (c : N) (s : jsstring) d :
  isWhiteSpace c = false -> isWhiteSpace d = false ->
  trim (c :: s ++ [d]) = c :: s ++ [d].
Proof.
  intros Hc Hd. unfold trim, trimStart. simpl. rewrite Hc.
  now apply (trimEnd_fixed (c :: s)).
Qed.

Lemma trim_idempotent (s : jsstring) : trim (trim s) = trim s.
Proof.
  destruct (trim_split s) as (w1 & w2 & H1 & H2 & E).
  rewrite E at 2. now rewrite trim_blank_around.
Qed.

(** Splitting a concatenation: the last line of the first part and the
    first line of the second part are one line. *)
Lemma split_app (a b : jsstring) xs x y ys :
  split LF a = xs ++ [x] -> split LF b = y :: ys ->
  split LF (a ++ b) = xs ++ (x ++ y) :: ys.
Proof.
  revert xs x. induction a as [|c a IH]; intros xs x Ha Hb.
  - simpl in Ha. destruct xs as [|x0 [|x1 xs]]; try discriminate.
    injection Ha as <-. exact Hb.
  - cbn [app split] in *. destruct (c =? LF).
    + destruct xs as [|x0 xs];
        [injection Ha as _ Ha; now apply split_not_nil in Ha|].
      injection Ha as <- Ha. simpl. f_equal. now apply IH.
    + destruct (split LF a) as [|l ls] eqn:Es; [now apply split_not_nil in Es|].
      destruct xs as [|x0 xs].
      * injection Ha as <- ->. now rewrite (IH [] l eq_refl Hb).
      * injection Ha as <- Ha. now rewrite (IH (l :: xs) x (f_equal _ Ha) Hb).
Qed.

Lemma split_snoc_exists (a : jsstring) : exists xs x, split LF a = xs ++ [x].
Proof.
  destruct (split LF a) as [|l ls] eqn:E; [now apply split_not_nil in E|].
  destruct (exists_last (l := l :: ls)) as (xs & x & ->); [discriminate|].
  now exists xs, x.
Qed.

Lemma split_cons_exists (a : jsstring) : exists y ys, split LF a = y :: ys.
Proof.
  destruct (split LF a) as [|l ls] eqn:E; [now apply split_not_nil in E|].
  now exists l, ls.
Qed.

(** The lines of a blank text are blank. *)
Lemma split_blank (w : jsstring) :
  forallb isWhiteSpace w = true ->
  Forall (fun l => forallb isWhiteSpace l = true) (split LF w).
Proof.
  induction w as [|c w IH]; cbn [split forallb].
  - intros _. now constructor.
  - intros [Hc Hw]%andb_prop. specialize (IH Hw). destruct (c =? LF).
    + now constructor.
    + destruct (split LF w) as [|l ls]; [now repeat constructor; simpl; rewrite Hc|].
      inversion_clear IH. constructor; [simpl; now rewrite Hc|assumption].
Qed.

Lemma split_join (ls : list jsstring) :
  ls <> [] -> Forall (fun l => includes LF l = false) ls ->
  split LF (join [LF] ls) = ls.
Proof.
  induction ls as [|l ls IH]; [congruence|]. intros _ Hall.
  inversion_clear Hall as [|? ? Hl Hls]. destruct ls as [|l' ls].
  - now apply split_single_line.
  - change (join [LF] (l :: l' :: ls)) with (l ++ LF :: join [LF] (l' :: ls)).
    rewrite split_app_LF by exact Hl. now rewrite IH.
Qed.

(** ** Semantic lines *)

Lemma isSemantic_blank_around (w1 l w2 : jsstring) :
  forallb isWhiteSpace w1 = true -> forallb isWhiteSpace w2 = true ->
  isSemantic (w1 ++ l ++ w2) = isSemantic l.
Proof. intros H1 H2. unfold isSemantic. now rewrite trim_blank_around. Qed.

Lemma isSemantic_blank (w : jsstring) :
  forallb isWhiteSpace w = true -> isSemantic w = false.
Proof. intros H. unfold isSemantic. now rewrite trim_blank. Qed.

Lemma filter_blank_lines (ls : list jsstring) :
  Forall (fun l => forallb isWhiteSpace l = true) ls ->
  List.filter isSemantic ls = [].
Proof.
  induction 1 as [|l ls Hl _ IH]; simpl; [reflexivity|].
  now rewrite isSemantic_blank.
Qed.

(** Blank text after a document adds no semantic line and changes none,
    up to the whitespace at the end of its last line. *)
Lemma semanticLines_blank_after (t w : jsstring) :
  forallb isWhiteSpace w = true ->
  map trim (semanticLines (t ++ w)) = map trim (semanticLines t).
Proof.
  intros Hw. unfold semanticLines.
  destruct (split_snoc_exists t) as (xs & x & Et).
  destruct (split_cons_exists w) as (y & ys & Ew).
  pose proof (split_blank w Hw) as Hb. rewrite Ew in Hb.
  inversion_clear Hb as [|? ? Hy Hys].
  rewrite (split_app _ _ _ _ _ _ Et Ew), Et, !List.filter_app. simpl.
  rewrite (filter_blank_lines ys Hys).
  rewrite <- (isSemantic_blank_around [] x y eq_refl Hy). simpl.
  destruct (isSemantic (x ++ y)); [|reflexivity].
  rewrite !map_app. simpl. now rewrite trim_blank_after.
Qed.

Lemma semanticLines_blank_before (w t : jsstring) :
  forallb isWhiteSpace w = true ->
  map trim (semanticLines (w ++ t)) = map trim (semanticLines t).
Proof.
  intros Hw. unfold semanticLines.
  destruct (split_snoc_exists w) as (xs & x & Ew).
  destruct (split_cons_exists t) as (y & ys & Et).
  pose proof (split_blank w Hw) as Hb. rewrite Ew in Hb.
  apply Forall_app in Hb as [Hxs Hx]. inversion_clear Hx as [|? ? Hx' _].
  rewrite (split_app _ _ _ _ _ _ Ew Et), Et, List.filter_app. simpl.
  rewrite (filter_blank_lines xs Hxs). simpl.
  replace (isSemantic (x ++ y)) with (isSemantic y).
  2:{ rewrite <- (app_nil_r y) at 2. now rewrite isSemantic_blank_around. }
  destruct (isSemantic y); [|reflexivity]. simpl.
  now rewrite trim_blank_before.
Qed.

(** Trimming a document keeps its semantic lines, up to the whitespace
    around each. *)
Lemma semanticLines_trim (s : jsstring) :
  map trim (semanticLines (trim s)) = map trim (semanticLines s).
Proof.
  destruct (trim_split s) as (w1 & w2 & H1 & H2 & E). rewrite E at 2.
  rewrite semanticLines_blank_before by exact H1.
  now rewrite semanticLines_blank_after.
Qed.

Lemma semanticLines_filter (s : jsstring) :
  semanticLines s = [] <->
  Forall (fun l => isSemantic l = false) (split LF s).
Proof.
  unfold semanticLines. induction (split LF s) as [|l ls IH]; simpl.
  - split; [constructor|reflexivity].
  - destruct (isSemantic l) eqn:E; split.
    + discriminate.
    + intros H. inversion_clear H. congruence.
    + intros H. constructor; [exact E|now apply IH].
    + intros H. inversion_clear H. now apply IH.
Qed.

Lemma semantic_unless_comment (c : N) (t : jsstring) :
  c <> 35 ->
  negb (eqb (c :: t) []) && negb (startsWith (u "#") (c :: t)) = true.
Proof.
  intros H. change (u "#") with [35]. cbn [JsString.eqb startsWith].
  assert (E : (35 =? c) = false) by (apply N.eqb_neq; congruence).
  now rewrite E.
Qed.

(** A text without semantic line that begins outside whitespace begins
    with the number sign. *)
Lemma comment_head (c : N) (r : jsstring) :
  isWhiteSpace c = false -> semanticLines (c :: r) = [] -> c = 35.
Proof.
  intros Hc H. destruct (N.eq_dec c 35) as [E|Hne]; [exact E|exfalso].
  unfold semanticLines in H. cbn [split] in H.
  destruct (c =? LF) eqn:Ec;
    [apply N.eqb_eq in Ec; rewrite Ec in Hc; vm_compute in Hc;
     discriminate Hc|].
  assert (Hsem : forall l, isSemantic (c :: l) = true).
  { intros l. unfold isSemantic.
    assert (Ht : exists t, trim (c :: l) = c :: t).
    { unfold trim, trimStart. cbn [dropWhile]. rewrite Hc, trimEnd_cons.
      destruct (trimEnd l); [rewrite Hc|]; eauto. }
    destruct Ht as [t ->]. now apply semantic_unless_comment. }
  destruct (split LF r) as [|l ls]; cbn [List.filter] in H;
    rewrite Hsem in H; discriminate H.
Qed.

Lemma codeFenceMatch_needs_backtick (s : jsstring) :
  startsWith (u "```") s = false -> codeFenceMatch s = None.
Proof. intros H. unfold codeFenceMatch. now rewrite H. Qed.

Lemma preprocess_unfenced (s : jsstring) :
  startsWith (u "```") (trim s) = false -> preprocess s = trim s.
Proof.
  intros H. unfold preprocess. now rewrite codeFenceMatch_needs_backtick.
Qed.

Lemma map_nil_inv {A B} (f : A -> B) (l : list A) : map f l = [] -> l = [].
Proof. now destruct l. Qed.

(** [parseZW] as a function of the semantic lines of the processed text. *)
Lemma parseZW_by_lines (zwString : jsstring) options :
  parseZW zwString options =
    match semanticLines (preprocess zwString) with
    | [] => Null
    | rootLineContent :: rest =>
        match rootLineMatch rootLineContent with
        | None =>
            Returned [ONode errorKey (VString (errorValue rootLineContent))
                            0 None] 0%nat
        | Some rootKey =>
            match processLines (effectiveDelimiterOf options)
                    (initialState rootKey (effectiveDelimiterOf options))
                    rest with
            | Some st => Returned (heap st) 0%nat
            | None => Threw
            end
        end
    end.
Proof. unfold parseZW. now destruct (preprocess zwString). Qed.

Lemma preprocess_without_semantic_line (s : jsstring) :
  semanticLines s = [] ->
  preprocess s = trim s /\ semanticLines (trim s) = [].
Proof.
  intros H.
  assert (Ht : semanticLines (trim s) = []).
  { apply (map_nil_inv trim). now rewrite semanticLines_trim, H. }
  split; [|exact Ht]. apply preprocess_unfenced.
  destruct (trim s) as [|c r] eqn:E; [reflexivity|].
  rewrite (comment_head c r (trim_head _ _ _ E) Ht). reflexivity.
Qed.

Lemma no_semantic_line_iff (ls : list jsstring) :
  Forall (fun l => isSemantic l = false) ls <->
  ~ Exists (fun l => isSemantic l = true) ls.
Proof.
  induction ls as [|l ls IH].
  - split; [intros _ H; inversion H|constructor].
  - split.
    + intros H He. inversion_clear H as [|? ? Hl Hls].
      inversion_clear He as [? ? Hl'|? ? Hls']; [congruence|].
      now apply IH in Hls.
    + intros H. constructor.
      * destruct (isSemantic l) eqn:E; [|reflexivity].
        exfalso. apply H. now left.
      * apply IH. intros He. apply H. now right.
Qed.

Module NoContent.

(** X1. An input none of whose lines is semantic (it is empty, blank, or
    made of blank lines and comment lines only) is answered with [null],
    for every delimiter option; [validateZWContent] then says [false]. *)
Theorem parseZW_null_without_semantic_line (zwString : jsstring) options :
  Forall (fun l => isSemantic l = false) (split LF zwString) ->
  parseZW zwString options = Null /\ validateZWContent zwString = false.
Proof.
  intros H. apply semanticLines_filter in H.
  destruct (preprocess_without_semantic_line _ H) as [Hp Hs].
  assert (Hnull : forall o, parseZW zwString o = Null).
  { intros o. now rewrite parseZW_by_lines, Hp, Hs. }
  split; [apply Hnull|]. unfold validateZWContent. now rewrite Hnull.
Qed.

Lemma parseZW_null_on_comments :
  parseZW (doc ["# a comment"; ""; "   # another, indented"; "  "]%string)
          (Some (u "="))
  = Null
  /\ validateZWContent
       (doc ["# a comment"; ""; "   # another, indented"; "  "]%string)
     = false.
Proof.
  apply (parseZW_null_without_semantic_line
           (doc ["# a comment"; ""; "   # another, indented"; "  "]%string)).
  vm_compute. repeat constructor.
Defined.

End NoContent.

Module Validation.

(** X2. On a content that is not wrapped in a code fence,
    [validateZWContent] answers [true] exactly when some line is semantic:
    any text that is not a comment makes the content valid for it, whether
    or not the first such line is a root declaration.  In particular it
    accepts a content [parseZW] answers with the error node. *)
Theorem validateZWContent_iff_some_semantic_line (content : jsstring) :
  startsWith (u "```") (trim content) = false ->
  (validateZWContent content = true <->
   Exists (fun l => isSemantic l = true) (split LF content))
  /\ (forall rootLineContent rest,
        semanticLines (preprocess content) = rootLineContent :: rest ->
        rootLineMatch rootLineContent = None ->
        validateZWContent content = true).
Proof.
  intros Hfence. split.
  - unfold validateZWContent.
    pose proof (parseZW_never_throws content None) as Hthrow.
    rewrite parseZW_by_lines in *. rewrite preprocess_unfenced in * by exact Hfence.
    assert (Hiff : semanticLines (trim content) = [] <->
                   ~ Exists (fun l => isSemantic l = true) (split LF content)).
    { rewrite <- no_semantic_line_iff, <- semanticLines_filter. split.
      - intros H. apply (map_nil_inv trim). now rewrite <- semanticLines_trim, H.
      - intros H. apply (map_nil_inv trim). now rewrite semanticLines_trim, H. }
    destruct (semanticLines (trim content)) as [|l rest] eqn:Es.
    + split; [discriminate|]. intros H. exfalso.
      exact (proj1 Hiff eq_refl H).
    + assert (Hex : Exists (fun l => isSemantic l = true) (split LF content)).
      { destruct (decide (Exists (fun l => isSemantic l = true)
                                 (split LF content))) as [He|Hne];
          [exact He|].
        apply Hiff in Hne. discriminate Hne. }
      destruct (rootLineMatch l); [|tauto].
      destruct (processLines _ _ rest); [tauto|congruence].
  - intros l rest Hs Hm. unfold validateZWContent.
    now rewrite parseZW_by_lines, Hs, Hm.
Qed.

Lemma validateZWContent_accepts_malformed_root :
  validateZWContent (u "FOO: bar") = true
  /\ parseTree (u "FOO: bar") None
     = Some (Some (Node errorKey (Scalar (errorValue (u "FOO: bar"))) 0 None)).
Proof.
  destruct (validateZWContent_iff_some_semantic_line (u "FOO: bar"))
    as [H _]; [vm_compute; reflexivity|].
  split; [|vm_compute; reflexivity].
  apply H. left. vm_compute; reflexivity.
Defined.

End Validation.

Module ApplicationValidation.

Section Marks.

Variable successMark errorMark caughtMessage : jsstring.

(** The outcome of the application's validation when [parseZW] returns a
    root node. *)
Lemma validateZwContent_of_parse (content contextLabel : jsstring) :
  trim content <> [] ->
  validateZwContent successMark errorMark caughtMessage content contextLabel =
    match semanticLines (preprocess content) with
    | [] =>
        ([mkFeedback error
            (errorMark ++ u " " ++ contextLabel
             ++ u " is invalid. Parser returned null.") None], false)
    | l :: _ =>
        match rootLineMatch l with
        | Some key =>
            ([mkFeedback success
                (successMark ++ u " " ++ contextLabel
                 ++ u " is valid ZW! Root Type: " ++ key) None], true)
        | None =>
            ([mkFeedback error
                (errorMark ++ u " " ++ contextLabel
                 ++ u " - ZW Parsing Error: " ++ errorKey)
                (Some [errorValue l])], false)
        end
    end.
Proof.
  intros Hne. unfold validateZwContent. apply eqb_neq in Hne. rewrite Hne.
  rewrite parseZW_by_lines.
  destruct (semanticLines (preprocess content)) as [|l rest]; [reflexivity|].
  destruct (rootLineMatch l) as [key|] eqn:Em; [|reflexivity].
  destruct (processLines_total key (effectiveDelimiterOf None) rest
              _ (initialState_wf _ _)) as (st & -> & Hwf).
  destruct (wf_root _ _ _ Hwf) as [v ->].
  apply rootLineMatch_Some in Em as (_ & Hkey & _).
  now rewrite (rootKey_not_error _ Hkey).
Qed.

End Marks.

(** X3. The validation of the application returns [true] exactly when the
    content has a first semantic line and that line is a root declaration.
    Its feedback is one entry: the warning when the content is blank; the
    success message naming the root type; the parsing error with the
    diagnostic text as details when the first semantic line is no root
    declaration; the notice that the parser returned [null] when a
    content that is not blank has no semantic line.  The message of the
    [catch] clause never shows. *)
Theorem validateZwContent_outcome
    (successMark errorMark caughtMessage content contextLabel : jsstring) :
  (snd (validateZwContent successMark errorMark caughtMessage content
          contextLabel) = true
   <-> exists key l rest,
         semanticLines (preprocess content) = l :: rest
         /\ RootDeclaration key l)
  /\ (trim content = [] ->
      validateZwContent successMark errorMark caughtMessage content
        contextLabel
      = ([mkFeedback warning
            (u "No ZW content provided for " ++ contextLabel
             ++ u " to validate.") None], false))
  /\ (forall key l rest,
        semanticLines (preprocess content) = l :: rest ->
        RootDeclaration key l ->
        validateZwContent successMark errorMark caughtMessage content
          contextLabel
        = ([mkFeedback success
              (successMark ++ u " " ++ contextLabel
               ++ u " is valid ZW! Root Type: " ++ key) None], true))
  /\ (forall l rest,
        semanticLines (preprocess content) = l :: rest ->
        (forall key, ~ RootDeclaration key l) ->
        validateZwContent successMark errorMark caughtMessage content
          contextLabel
        = ([mkFeedback error
              (errorMark ++ u " " ++ contextLabel
               ++ u " - ZW Parsing Error: " ++ errorKey)
              (Some [errorValue l])], false))
  /\ (trim content <> [] -> semanticLines (preprocess content) = [] ->
      validateZwContent successMark errorMark caughtMessage content
        contextLabel
      = ([mkFeedback error
            (errorMark ++ u " " ++ contextLabel
             ++ u " is invalid. Parser returned null.") None], false))
  /\ validateZwContent successMark errorMark caughtMessage content
       contextLabel
     = validateZwContent successMark errorMark [] content contextLabel.
Proof.
  assert (Hblank : trim content = [] ->
            semanticLines (preprocess content) = []
            /\ forall caught,
                 validateZwContent successMark errorMark caught content
                   contextLabel
                 = ([mkFeedback warning
                       (u "No ZW content provided for " ++ contextLabel
                        ++ u " to validate.") None], false)).
  { intros E. split.
    - unfold preprocess. now rewrite E.
    - intros caught. unfold validateZwContent. now rewrite E. }
  assert (Hnonempty : forall l rest,
            semanticLines (preprocess content) = l :: rest ->
            trim content <> []).
  { intros l rest Hs E. apply Hblank in E as [E _]. congruence. }
  split; [|split; [|split; [|split; [|split]]]].
  - destruct (trim content) as [|c t] eqn:Et.
    + destruct (Hblank eq_refl) as [Hs ->]. simpl. split; [discriminate|].
      intros (key & l & rest & Hl & _). congruence.
    + rewrite validateZwContent_of_parse by (rewrite Et; discriminate).
      destruct (semanticLines (preprocess content)) as [|l rest].
      * simpl. split; [discriminate|]. intros (? & ? & ? & ? & _). discriminate.
      * destruct (rootLineMatch l) as [key|] eqn:Em; simpl.
        -- split; [|reflexivity]. intros _. exists key, l, rest.
           split; [reflexivity|]. now apply rootLineMatch_Some.
        -- split; [discriminate|]. intros (key & l' & rest' & [= <- <-] & Hr).
           apply rootLineMatch_Some in Hr. congruence.
  - intros E. now apply Hblank.
  - intros key l rest Hs Hr.
    rewrite validateZwContent_of_parse by (now apply (Hnonempty l rest)).
    apply rootLineMatch_Some in Hr. now rewrite Hs, Hr.
  - intros l rest Hs Hr.
    rewrite validateZwContent_of_parse by (now apply (Hnonempty l rest)).
    apply rootLineMatch_None in Hr. now rewrite Hs, Hr.
  - intros Hne Hs. rewrite validateZwContent_of_parse by exact Hne.
    now rewrite Hs.
  - destruct (trim content) as [|c t] eqn:Et.
    + destruct (Hblank eq_refl) as [_ H]. now rewrite !H.
    + now rewrite !validateZwContent_of_parse by (rewrite Et; discriminate).
Qed.

End ApplicationValidation.

(** ** Code fences *)

Lemma isWhiteSpace_not_key (c : N) :
  isWhiteSpace c = true -> isRootKeyChar c = false.
Proof.
  unfold isWhiteSpace, isRootKeyChar, isUpper, isLower, isDigit.
  intros H. repeat rewrite orb_true_iff in H. rewrite ?andb_true_iff in H.
  rewrite ?N.leb_le, ?N.eqb_eq in H.
  repeat rewrite orb_false_iff. rewrite ?andb_false_iff.
  rewrite ?N.leb_gt, ?N.eqb_neq. lia.
Qed.

Lemma firstn_app_exact {A} (a b : list A) n :
  n = length a -> firstn n (a ++ b) = a.
Proof. intros ->. apply take_app_length. Qed.

(** The processed text of a fenced document is the trimmed content. *)
Lemma preprocess_fenced (tag w1 s w2 : jsstring) :
  forallb isRootKeyChar tag = true ->
  w1 <> [] -> forallb isWhiteSpace w1 = true ->
  forallb isWhiteSpace w2 = true ->
  trim s <> [] ->
  preprocess (u "```" ++ tag ++ w1 ++ s ++ w2 ++ u "```") = trim s.
Proof.
  intros Htag Hw1 Hws1 Hws2 Hs.
  set (middle := tag ++ w1 ++ s ++ w2).
  assert (Ef : u "```" ++ tag ++ w1 ++ s ++ w2 ++ u "```"
               = 96 :: ([96; 96] ++ middle ++ [96; 96]) ++ [96]).
  { unfold middle. change (u "```") with ([96; 96; 96] : jsstring).
    cbn [app]. rewrite <- ?app_assoc. cbn [app]. rewrite <- ?app_assoc.
    reflexivity. }
  unfold preprocess. rewrite Ef, trim_fixed by reflexivity. rewrite <- Ef.
  assert (Em : codeFenceMatch (u "```" ++ tag ++ w1 ++ s ++ w2 ++ u "```")
               = Some (trim s)).
  { unfold codeFenceMatch.
    replace (u "```" ++ tag ++ w1 ++ s ++ w2 ++ u "```")
      with (u "```" ++ middle ++ u "```")
      by (unfold middle; now rewrite <- !app_assoc).
    rewrite startsWith_app. unfold endsWith.
    rewrite !rev_app_distr, <- app_assoc, startsWith_app.
    rewrite !length_app. change (length (u "```")) with 3%nat.
    replace (6 <=? 3 + (length middle + 3))%nat with true
      by (symmetry; apply Nat.leb_le; lia).
    cbn [andb]. rewrite drop_app_length' by reflexivity.
    rewrite firstn_app_exact by lia.
    unfold middle. rewrite dropWhile_app_stop.
    - now rewrite trim_blank_around.
    - exact Htag.
    - destruct w1 as [|c w1]; [congruence|]. simpl in *.
      apply andb_prop in Hws1 as [Hc _]. now apply isWhiteSpace_not_key. }
  rewrite Em. destruct (trim s) as [|c t] eqn:Et; [congruence|].
  rewrite <- Et. apply trim_idempotent.
Qed.

Module Fences.

(** X4. A document wrapped in a markdown code fence, with or without a
    language tag, parses exactly as the document alone: the fence and its
    tag leave no trace, for every delimiter option.  The document must hold
    something else than whitespace and must not itself open with a
    fence. *)
Theorem parseZW_ignores_fence (tag w1 s w2 : jsstring) options :
  forallb isRootKeyChar tag = true ->
  w1 <> [] -> forallb isWhiteSpace w1 = true ->
  forallb isWhiteSpace w2 = true ->
  trim s <> [] -> startsWith (u "```") (trim s) = false ->
  parseZW (u "```" ++ tag ++ w1 ++ s ++ w2 ++ u "```") options
  = parseZW s options.
Proof.
  intros Htag Hw1 Hws1 Hws2 Hs Hplain.
  rewrite !parseZW_by_lines, preprocess_fenced by assumption.
  now rewrite preprocess_unfenced.
Qed.

Lemma parseZW_fenced_example :
  parseZW (doc ["```zw"; "ZW-TEST:"; "  a: 1"; "```"]%string) None
  = parseZW (doc ["ZW-TEST:"; "  a: 1"]%string) None
  /\ parseTree (doc ["```zw"; "ZW-TEST:"; "  a: 1"; "```"]%string) None
     = Some (Some (Node (u "ZW-TEST")
         (Children [ChildNode (Node (u "a") (Scalar (u "1")) 1
                                    (Some (u ":")))])
         0 (Some (u ":")))).
Proof.
  split; [|vm_compute; reflexivity].
  apply (parseZW_ignores_fence (u "zw") [LF]
           (doc ["ZW-TEST:"; "  a: 1"]%string) [LF] None);
    try (vm_compute; reflexivity); discriminate.
Defined.

End Fences.

(** ** The shape of the store *)

(** [processLine], by the object the line makes. *)
Lemma processLine_by_object (effectiveDelimiter : jsstring) (st : State)
    (line : jsstring) :
  processLine effectiveDelimiter st line =
    match popStack (heap st) (lineDepth (getIndentation line)) (stack st) with
    | Some ((parentNode :: _) as stk) =>
        let h := ensureArray (ensureArray (heap st) parentNode) parentNode in
        match lineObject effectiveDelimiter line with
        | Some (child, pushed) =>
            match pushChild h parentNode child with
            | Some (h', r) =>
                Some (mkState h' (if pushed : bool then r :: stk else stk))
            | None => None
            end
        | None =>
            match trim line with
            | _ :: _ =>
                match appendToLastChild h parentNode line
                        (getIndentation line) with
                | Some h' => Some (mkState h' stk)
                | None => None
                end
            | [] => Some (mkState h stk)
            end
        end
    | _ => None
    end.
Proof.
  unfold processLine, lineObject.
  destruct (popStack _ _ _) as [[|parentNode below]|]; try reflexivity.
  cbv zeta. destruct (startsWith (u "- ") (trim line)).
  - now destruct (pushChild _ _ _) as [[h' r]|].
  - destruct (sectionMatch _ _) as [k|].
    + now destruct (pushChild _ _ _) as [[h' r]|].
    + destruct (keyValueMatch _ _) as [[k v]|]; [|reflexivity].
      now destruct (pushChild _ _ _) as [[h' r]|].
Qed.

Lemma forallb_firstn (p : N -> bool) (s : jsstring) n :
  forallb p s = true -> forallb p (firstn n s) = true.
Proof.
  revert n; induction s as [|c s IH]; intros [|n]; simpl; auto.
  intros [Hc Hs]%andb_prop. now rewrite Hc, IH.
Qed.

(** What [matchKeyed] captures as the key is a key. *)
Lemma matchKeyed_key {A} (tail : jsstring -> option A) delimiter line :
  forall n k a, (n <= keyRun line)%nat ->
    matchKeyed n delimiter line tail = Some (k, a) -> isKey k.
Proof.
  induction n as [|n IH]; intros k a Hn; cbn [matchKeyed]; [discriminate|].
  destruct (if startsWith delimiter (skipn (S n) line) then _ else None).
  - intros [= <- _]. unfold keyRun in Hn.
    rewrite <- (takeWhile_dropWhile isKeyChar line).
    rewrite take_app_le by exact Hn. split.
    + intros E. apply (f_equal (@length N)) in E.
      rewrite length_take, Nat.min_l in E by exact Hn. discriminate E.
    + apply forallb_firstn, takeWhile_all.
  - apply IH. lia.
Qed.

Lemma sectionMatch_key delimiter line k :
  sectionMatch delimiter line = Some k -> isKey k.
Proof.
  unfold sectionMatch.
  destruct (matchKeyed _ _ _ _) as [[k' a]|] eqn:E; [|discriminate].
  intros [= <-]. eapply matchKeyed_key; [|exact E]. lia.
Qed.

Lemma keyValueMatch_key delimiter line k v :
  keyValueMatch delimiter line = Some (k, v) -> isKey k.
Proof. unfold keyValueMatch. apply matchKeyed_key. lia. Qed.

(** The object of a line is well formed, holds a fresh value, has the depth
    of the line, and is pushed only when it is a section. *)
Lemma lineObject_facts effectiveDelimiter line child pushed :
  lineObject effectiveDelimiter line = Some (child, pushed) ->
  wellFormedObject effectiveDelimiter child
  /\ freshValue (objValue child)
  /\ objDepth child = lineDepth (getIndentation line)
  /\ (pushed = true -> exists k,
        child = ONode k (VArray []) (lineDepth (getIndentation line))
                      (Some effectiveDelimiter)).
Proof.
  unfold lineObject, wellFormedObject.
  pose proof (lineDepth_ge_1 (getIndentation line)) as Hd.
  destruct (startsWith (u "- ") (trim line)).
  - destruct (keyValueMatch _ _) as [[k v]|] eqn:E; intros [= <- <-]; simpl.
    + apply keyValueMatch_key in E. repeat split; try tauto; try discriminate.
      * apply E.
      * apply E.
      * right. eauto.
    + repeat split; try tauto; try discriminate. right. eauto.
  - destruct (sectionMatch _ _) as [k|] eqn:Es.
    + apply sectionMatch_key in Es. intros [= <- <-]; simpl.
      repeat split; try tauto; try apply Es. * now left. * eauto.
    + destruct (keyValueMatch _ _) as [[k v]|] eqn:E; [|discriminate].
      apply keyValueMatch_key in E. intros [= <- <-]; simpl.
      repeat split; try tauto; try apply E; try discriminate. right. eauto.
Qed.

Lemma objDepth_setValue v o : objDepth (setValue v o) = objDepth o.
Proof. now destruct o. Qed.

Lemma wellFormedObject_setValue d v o :
  wellFormedObject d (setValue v o) <-> wellFormedObject d o.
Proof. now destruct o. Qed.

(** *** Nesting *)

Lemma nested_update (h : Heap) r o v :
  h !! r = Some o -> nested h ->
  (forall es c, v = VArray es -> In c es ->
     exists oc, h !! c = Some oc /\ (objDepth o < objDepth oc)%Q) ->
  nested (<[r := setValue v o]> h).
Proof.
  intros Hr Hn Hv x ox es c Hx Hes Hc.
  rewrite (update_lookup _ _ _ _ _ Hr) in Hx.
  assert (Hold : exists oc, h !! c = Some oc /\ (objDepth ox < objDepth oc)%Q).
  { destruct (decide (x = r)) as [->|Hne].
    - injection Hx as <-. rewrite objValue_setValue in Hes.
      rewrite objDepth_setValue. now apply (Hv es).
    - now apply (Hn x ox es). }
  destruct Hold as (oc & Hoc & Hlt).
  rewrite (update_lookup _ _ _ _ _ Hr).
  destruct (decide (c = r)) as [->|Hne]; [|eauto].
  exists (setValue v o). split; [reflexivity|].
  rewrite objDepth_setValue. congruence.
Qed.

Lemma nested_alloc (h : Heap) child :
  nested h -> freshValue (objValue child) -> nested (h ++ [child]).
Proof.
  intros Hn Hfresh x ox es c Hx Hes Hc.
  destruct (decide (x < length h)%nat) as [Hlt|Hge].
  - rewrite lookup_app_l in Hx by exact Hlt.
    destruct (Hn _ _ _ _ Hx Hes Hc) as (oc & Hoc & Hd).
    exists oc. split; [now apply lookup_app_l_Some|exact Hd].
  - rewrite lookup_app_r in Hx by lia.
    destruct (x - length h)%nat; simpl in Hx; [|discriminate].
    injection Hx as <-. destruct Hfresh as [E|[s E]]; rewrite E in Hes.
    + injection Hes as <-. destruct Hc.
    + discriminate.
Qed.

Lemma nested_ensureArray (h : Heap) p : nested h -> nested (ensureArray h p).
Proof.
  intros Hn. unfold ensureArray. destruct (h !! p) as [o|] eqn:E; [|exact Hn].
  destruct (objValue o); try exact Hn;
    (apply nested_update; [exact E|exact Hn|intros es c [= <-] []]).
Qed.

Lemma nested_append (h : Heap) p line indent h' :
  nested h -> appendToLastChild h p line indent = Some h' -> nested h'.
Proof.
  intros Hn. unfold appendToLastChild.
  destruct (h !! p) as [o|]; [|discriminate].
  destruct (objValue o) as [| |elems]; try (now intros [= <-]).
  destruct (last elems) as [r|]; [|now intros [= <-]].
  destruct (h !! r) as [c|] eqn:Ec; [|discriminate].
  destruct (objValue c); try (now intros [= <-]).
  intros [= <-]. apply nested_update; [exact Ec|exact Hn|discriminate].
Qed.

Lemma nested_push (h : Heap) p o elems child h' r :
  h !! p = Some o -> objValue o = VArray elems ->
  pushChild h p child = Some (h', r) ->
  nested h -> freshValue (objValue child) ->
  (objDepth o < objDepth child)%Q -> nested h'.
Proof.
  intros Hp Hv Hpush Hn Hfresh Hd.
  rewrite (pushChild_spec _ _ _ _ _ Hp Hv) in Hpush. injection Hpush as <- <-.
  apply nested_update.
  - now apply lookup_app_l_Some.
  - now apply nested_alloc.
  - intros es c [= <-] [Hc|Hc]%in_app_or.
    + destruct (Hn _ _ _ _ Hp Hv Hc) as (oc & Hoc & Hlt).
      exists oc. split; [now apply lookup_app_l_Some|exact Hlt].
    + destruct Hc as [<-|[]]. exists child. split; [|exact Hd].
      rewrite lookup_app_r by lia. now rewrite Nat.sub_diag.
Qed.

(** *** The stack *)

Lemma descending_evolves (h h' : Heap) stk :
  evolves h h' -> descending h stk -> descending h' stk.
Proof.
  intros He. induction stk as [|top [|next below] IH]; try exact id.
  intros [(ot & on & Ht & Hn & Hlt) Hrest]. split; [|now apply IH].
  destruct (evolves_depth _ _ _ _ He Ht) as (ot' & Ht' & Et).
  destruct (evolves_depth _ _ _ _ He Hn) as (on' & Hn' & En).
  exists ot', on'. repeat split; try assumption. now rewrite Et, En.
Qed.

Lemma descending_suffix (h : Heap) popped stk :
  descending h (popped ++ stk) -> descending h stk.
Proof.
  induction popped as [|x popped IH]; [exact id|].
  simpl. destruct (popped ++ stk) eqn:E.
  - destruct popped; [|discriminate]. simpl in E. now subst.
  - intros [_ H]. now apply IH.
Qed.

(** The node the [while] loop stops at is strictly shallower than the
    line. *)
Lemma parent_shallower rootKey delimiter st depth parent below :
  wf rootKey delimiter st -> (0 < depth)%Q ->
  popStack (heap st) depth (stack st) = Some (parent :: below) ->
  exists o, heap st !! parent = Some o /\ (objDepth o < depth)%Q.
Proof.
  intros Hwf Hpos Hpop.
  assert (Hne : stack st <> []).
  { intros E. pose proof (wf_bottom _ _ _ Hwf) as Hb. now rewrite E in Hb. }
  destruct (popStack_total (heap st) depth (stack st) (wf_stack _ _ _ Hwf) Hne)
    as (popped & parent0 & below0 & Hpop0 & Hs & _ & Htop).
  rewrite Hpop in Hpop0. injection Hpop0 as <- <-.
  destruct Htop as [->|Htop]; [|exact Htop].
  pose proof (wf_bottom _ _ _ Hwf) as Hb.
  rewrite Hs, last_app_cons in Hb. injection Hb as ->.
  destruct (wf_root _ _ _ Hwf) as [v Hv]. eexists. split; [exact Hv|exact Hpos].
Qed.

(** *** Objects *)

Lemma objectsOk_update d (h : Heap) r o v :
  h !! r = Some o -> objectsOk d h -> objectsOk d (<[r := setValue v o]> h).
Proof.
  intros Hr Hok x ox Hx Hpos. rewrite (update_lookup _ _ _ _ _ Hr) in Hx.
  destruct (decide (x = r)) as [->|]; [|now apply (Hok x)].
  injection Hx as <-. apply wellFormedObject_setValue. now apply (Hok r).
Qed.

Lemma objectsOk_ensureArray d (h : Heap) p :
  objectsOk d h -> objectsOk d (ensureArray h p).
Proof.
  intros Hok. unfold ensureArray. destruct (h !! p) as [o|] eqn:E; [|exact Hok].
  destruct (objValue o); try exact Hok; now apply objectsOk_update.
Qed.

Lemma objectsOk_append d (h : Heap) p line indent h' :
  objectsOk d h -> appendToLastChild h p line indent = Some h' ->
  objectsOk d h'.
Proof.
  intros Hok. unfold appendToLastChild.
  destruct (h !! p) as [o|]; [|discriminate].
  destruct (objValue o) as [| |elems]; try (now intros [= <-]).
  destruct (last elems) as [r|]; [|now intros [= <-]].
  destruct (h !! r) as [c|] eqn:Ec; [|discriminate].
  destruct (objValue c); try (now intros [= <-]).
  intros [= <-]. now apply objectsOk_update.
Qed.

Lemma objectsOk_push d (h : Heap) p o elems child h' r :
  h !! p = Some o -> objValue o = VArray elems ->
  pushChild h p child = Some (h', r) ->
  objectsOk d h -> wellFormedObject d child -> objectsOk d h'.
Proof.
  intros Hp Hv Hpush Hok Hchild.
  rewrite (pushChild_spec _ _ _ _ _ Hp Hv) in Hpush. injection Hpush as <- <-.
  apply objectsOk_update; [now apply lookup_app_l_Some|].
  intros x ox Hx Hpos. destruct (decide (x < length h)%nat) as [Hlt|Hge].
  - rewrite lookup_app_l in Hx by exact Hlt. now apply (Hok x).
  - rewrite lookup_app_r in Hx by lia.
    destruct (x - length h)%nat; simpl in Hx; [|discriminate].
    now injection Hx as <-.
Qed.

(** *** One line, and all the lines *)

Lemma processLine_shaped rootKey delimiter st line :
  shaped rootKey delimiter st ->
  exists st', processLine delimiter st line = Some st'
    /\ shaped rootKey delimiter st'
    /\ (length (heap st') <= S (length (heap st)))%nat.
Proof.
  intros [Hwf Hnest Hdesc Hobj].
  destruct (processLine_total _ _ _ line Hwf)
    as (popped & parent & below & st' & Hpop & Hs & Hstep & Hwf' & Hev & Hlen).
  exists st'. split; [exact Hstep|]. split.
  2:{ destruct Hlen as [[-> _]|(-> & _)]; lia. }
  constructor; [exact Hwf'| | |].
  all: rewrite processLine_by_object, Hpop in Hstep; cbv zeta in Hstep.
  all: set (h2 := ensureArray (ensureArray (heap st) parent) parent) in *.
  all: assert (Hev2 : evolves (heap st) h2)
         by (eapply evolves_trans; apply ensureArray_evolves).
  all: destruct (parent_shallower _ _ _ _ _ _ Hwf
                   (lineDepth_pos (getIndentation line)) Hpop)
         as (op & Hop & Hlt).
  all: destruct (ensureArray_array _ _ _ Hop) as (o1 & elems1 & H1 & Hv1).
  all: assert (H2 : h2 !! parent = Some o1)
         by (unfold h2; now rewrite (ensureArray_id _ _ _ _ H1 Hv1)).
  all: assert (Hd1 : objDepth o1 = objDepth op).
  all: try (destruct (evolves_depth _ _ _ _ Hev2 Hop) as (o1' & Ho1' & Ed);
            congruence).
  all: assert (Hdesc1 : descending (heap st) (parent :: below))
         by (apply (descending_suffix _ popped); now rewrite <- Hs).
  all: destruct (lineObject delimiter line) as [[child pushed]|] eqn:Eo.
  all: try (destruct (lineObject_facts _ _ _ _ Eo)
              as (Hchild & Hfresh & Hdepth & Hpushed)).
  all: try (destruct (pushChild h2 parent child) as [[h' r]|] eqn:Epush;
            [|discriminate];
            destruct (pushChild_facts _ _ _ _ _ _ _ H2 Hv1 Epush)
              as (-> & Hlen' & Hev' & Hr & Hp');
            injection Hstep as <-; cbn [heap stack]).
  - (* nested, a child is pushed *)
    apply (nested_push _ _ _ _ _ _ _ H2 Hv1 Epush).
    + now do 2 apply nested_ensureArray.
    + exact Hfresh.
    + rewrite Hd1, Hdepth. exact Hlt.
  - (* nested, no child *)
    destruct (trim line).
    + injection Hstep as <-. now do 2 apply nested_ensureArray.
    + destruct (appendToLastChild _ _ _ _) as [h'|] eqn:Ea; [|discriminate].
      injection Hstep as <-. cbn [heap].
      eapply nested_append; [|exact Ea]. now do 2 apply nested_ensureArray.
  - (* descending, a child is pushed *)
    assert (Hev3 : evolves (heap st) h') by (eapply evolves_trans; eauto).
    pose proof (descending_evolves _ _ _ Hev3 Hdesc1) as Hd'.
    destruct pushed; [|exact Hd'].
    split; [|exact Hd'].
    exists child, (setValue (VArray (elems1 ++ [length h2])) o1).
    repeat split; try assumption.
    rewrite objDepth_setValue, Hd1, Hdepth. exact Hlt.
  - (* descending, no child *)
    destruct (trim line).
    + injection Hstep as <-. cbn [heap stack].
      now apply (descending_evolves _ _ _ Hev2).
    + destruct (appendToLastChild _ _ _ _) as [h'|] eqn:Ea; [|discriminate].
      injection Hstep as <-. cbn [heap stack].
      destruct (appendToLastChild_total h2 parent o1 line (getIndentation line)
                  H2) as (h'' & Ea' & Hev' & _).
      { now do 2 apply ensureArray_refsOk; apply Hwf. }
      rewrite Ea in Ea'. injection Ea' as <-.
      apply (descending_evolves (heap st)); [|exact Hdesc1].
      eapply evolves_trans; eauto.
  - (* objects, a child is pushed *)
    apply (objectsOk_push _ _ _ _ _ _ _ _ H2 Hv1 Epush); [|exact Hchild].
    now do 2 apply objectsOk_ensureArray.
  - (* objects, no child *)
    destruct (trim line).
    + injection Hstep as <-. now do 2 apply objectsOk_ensureArray.
    + destruct (appendToLastChild _ _ _ _) as [h'|] eqn:Ea; [|discriminate].
      injection Hstep as <-. cbn [heap].
      eapply objectsOk_append; [|exact Ea]. now do 2 apply objectsOk_ensureArray.
Qed.

Lemma initialState_shaped rootKey delimiter :
  shaped rootKey delimiter (initialState rootKey delimiter).
Proof.
  constructor; [apply initialState_wf| | |]; cbn [heap stack initialState].
  - intros [|r] o es c; simpl; [|discriminate]. now intros [= <-] [= <-] [].
  - exact I.
  - intros [|r] o; simpl; [lia|discriminate].
Qed.

Lemma processLines_shaped rootKey delimiter lines : forall st,
  shaped rootKey delimiter st ->
  exists st', processLines delimiter st lines = Some st'
    /\ shaped rootKey delimiter st'
    /\ (length (heap st') <= length (heap st) + length lines)%nat.
Proof.
  induction lines as [|line lines IH]; intros st Hsh; simpl.
  - exists st. split; [reflexivity|]. split; [exact Hsh|lia].
  - destruct (processLine_shaped _ _ _ line Hsh) as (st1 & -> & Hsh1 & Hl1).
    destruct (IH st1 Hsh1) as (st' & Hrun & Hsh' & Hl').
    exists st'. split; [exact Hrun|]. split; [exact Hsh'|lia].
Qed.

(** ** The kinds of value in the store *)

Lemma holdsArray_update (h : Heap) r o v x :
  h !! r = Some o -> holdsArray h x ->
  (x = r -> exists elems, v = VArray elems) ->
  holdsArray (<[r := setValue v o]> h) x.
Proof.
  intros Hr (ox & elems & Hx & Hv) Hsame. unfold holdsArray.
  rewrite (update_lookup _ _ _ _ _ Hr).
  destruct (decide (x = r)) as [E|_]; [|now exists ox, elems].
  destruct (Hsame E) as [es ->]. exists (setValue (VArray es) o), es.
  now rewrite objValue_setValue.
Qed.

Lemma holdsArray_app (h : Heap) child x :
  holdsArray h x -> holdsArray (h ++ [child]) x.
Proof.
  intros (ox & elems & Hx & Hv). exists ox, elems.
  split; [now apply lookup_app_l_Some|exact Hv].
Qed.

Lemma valueKindOk_update (h : Heap) r o v :
  h !! r = Some o ->
  (forall x ox, h !! x = Some ox -> valueKindOk ox) ->
  valueKindOk (setValue v o) ->
  forall x ox, <[r := setValue v o]> h !! x = Some ox -> valueKindOk ox.
Proof.
  intros Hr Hall Hnew x ox. rewrite (update_lookup _ _ _ _ _ Hr).
  destruct (decide (x = r)); [now intros [= <-]|apply Hall].
Qed.

Lemma valueKindOk_array o elems elems' :
  valueKindOk o -> objValue o = VArray elems ->
  valueKindOk (setValue (VArray elems') o).
Proof.
  destruct o as [k v d dl|v kv ik d dl]; simpl; [discriminate|].
  intros [s ->]. discriminate.
Qed.

Lemma valueKindOk_string o s s' :
  objValue o = VString s -> valueKindOk (setValue (VString s') o).
Proof.
  destruct o as [k v d dl|v kv ik d dl]; simpl; intros _;
    [discriminate|now exists s'].
Qed.

Lemma lineObject_kind effectiveDelimiter line child pushed :
  lineObject effectiveDelimiter line = Some (child, pushed) ->
  valueKindOk child.
Proof.
  unfold lineObject. destruct (startsWith _ _).
  - destruct (keyValueMatch _ _) as [[k v]|]; intros [= <- <-]; simpl;
      now eexists.
  - destruct (sectionMatch _ _) as [k|].
    + now intros [= <- <-].
    + destruct (keyValueMatch _ _) as [[k v]|]; [|discriminate].
      now intros [= <- <-].
Qed.

Lemma appendToLastChild_kinded (h : Heap) p line indent h' stk :
  Forall (holdsArray h) stk ->
  (forall x ox, h !! x = Some ox -> valueKindOk ox) ->
  appendToLastChild h p line indent = Some h' ->
  Forall (holdsArray h') stk
  /\ (forall x ox, h' !! x = Some ox -> valueKindOk ox).
Proof.
  intros Hstk Hall. unfold appendToLastChild.
  destruct (h !! p) as [o|]; [|discriminate].
  destruct (objValue o) as [| |elems]; try (now intros [= <-]).
  destruct (last elems) as [r|]; [|now intros [= <-]].
  destruct (h !! r) as [c|] eqn:Ec; [|discriminate].
  destruct (objValue c) as [|s|] eqn:Ev; try (now intros [= <-]).
  intros [= <-]. split.
  - eapply Forall_impl; [exact Hstk|]. intros x Hx.
    apply holdsArray_update; [exact Ec|exact Hx|]. intros ->.
    destruct Hx as (ox & es & Hx & Hv). congruence.
  - apply valueKindOk_update; [exact Ec|exact Hall|].
    now apply (valueKindOk_string _ s).
Qed.

(** One line keeps the kinds, and finds the value of its parent already
    an array: neither reset of [parentNode.value] changes the store. *)
Lemma processLine_kinded rootKey delimiter st line :
  wf rootKey delimiter st -> kinded st ->
  exists parent below st',
    popStack (heap st) (lineDepth (getIndentation line)) (stack st)
      = Some (parent :: below)
    /\ holdsArray (heap st) parent
    /\ ensureArray (heap st) parent = heap st
    /\ processLine delimiter st line = Some st'
    /\ wf rootKey delimiter st' /\ kinded st'.
Proof.
  intros Hwf [Hstk Hall].
  destruct (processLine_total _ _ _ line Hwf)
    as (popped & parent & below & st' & Hpop & Hs & Hstep & Hwf' & _).
  rewrite Hs in Hstk. apply Forall_app in Hstk as [_ Hstk].
  pose proof (Forall_inv Hstk) as Hparent.
  destruct Hparent as (o & elems & Ho & Hv).
  pose proof (ensureArray_id _ _ _ _ Ho Hv) as Hid.
  exists parent, below, st'. split; [exact Hpop|].
  split; [now exists o, elems|]. split; [exact Hid|].
  split; [exact Hstep|]. split; [exact Hwf'|].
  rewrite processLine_by_object, Hpop in Hstep. cbv zeta in Hstep.
  rewrite !Hid in Hstep.
  destruct (lineObject delimiter line) as [[child pushed]|] eqn:Eo.
  - rewrite (pushChild_spec _ _ _ _ child Ho Hv) in Hstep.
    injection Hstep as <-.
    assert (Ho' : (heap st ++ [child]) !! parent = Some o)
      by now apply lookup_app_l_Some.
    assert (Hstk' : Forall
              (holdsArray (<[parent := setValue
                               (VArray (elems ++ [length (heap st)])) o]>
                             (heap st ++ [child])))
              (parent :: below)).
    { eapply Forall_impl; [exact Hstk|]. intros x Hx.
      apply holdsArray_update; [exact Ho'|now apply holdsArray_app|].
      intros _. now eexists. }
    constructor; cbn [heap stack].
    + destruct pushed; [|exact Hstk']. constructor; [|exact Hstk'].
      destruct (lineObject_facts _ _ _ _ Eo) as (_ & _ & _ & Hpushed).
      destruct (Hpushed eq_refl) as [k ->].
      exists (ONode k (VArray []) (lineDepth (getIndentation line))
                    (Some delimiter)), [].
      split; [|reflexivity].
      rewrite (update_lookup _ _ _ _ _ Ho').
      pose proof (lookup_lt_Some _ _ _ Ho) as Hlt.
      rewrite decide_False by lia.
      rewrite lookup_app_r by lia. now rewrite Nat.sub_diag.
    + apply valueKindOk_update; [exact Ho'| |].
      * intros x ox Hx.
        destruct (decide (x < length (heap st))%nat) as [Hlt|Hge].
        -- rewrite lookup_app_l in Hx by exact Hlt. now apply (Hall x).
        -- rewrite lookup_app_r in Hx by lia.
           destruct (x - length (heap st))%nat; simpl in Hx; [|discriminate].
           injection Hx as <-. exact (lineObject_kind _ _ _ _ Eo).
      * apply (valueKindOk_array _ elems); [now apply (Hall parent)|exact Hv].
  - destruct (trim line).
    + injection Hstep as <-. now constructor.
    + destruct (appendToLastChild _ _ _ _) as [h'|] eqn:Ea; [|discriminate].
      injection Hstep as <-.
      destruct (appendToLastChild_kinded _ _ _ _ _ _ Hstk Hall Ea) as [H1 H2].
      now constructor.
Qed.

Lemma initialState_kinded rootKey delimiter :
  kinded (initialState rootKey delimiter).
Proof.
  constructor; cbn [heap stack initialState].
  - constructor; [|constructor]. now eexists _, [].
  - intros [|r] o; simpl; [|discriminate]. now intros [= <-].
Qed.

Lemma processLines_kinded rootKey delimiter lines : forall st,
  wf rootKey delimiter st -> kinded st ->
  exists st', processLines delimiter st lines = Some st'
    /\ wf rootKey delimiter st' /\ kinded st'.
Proof.
  induction lines as [|line lines IH]; intros st Hwf Hk; simpl.
  - now exists st.
  - destruct (processLine_kinded _ _ _ line Hwf Hk)
      as (_ & _ & st1 & _ & _ & _ & -> & Hwf1 & Hk1).
    now apply IH.
Qed.

(** ** From the store to the tree *)

Lemma readAll_Forall2 (rd : ref -> option ZWChild) rs : forall cs,
  readAll rd rs = Some cs -> Forall2 (fun r c => rd r = Some c) rs cs.
Proof.
  induction rs as [|r rs IH]; simpl; intros cs.
  - intros [= <-]. constructor.
  - destruct (rd r) as [c|] eqn:Er; [|discriminate].
    destruct (readAll rd rs) as [cs'|]; [|discriminate].
    intros [= <-]. constructor; [exact Er|now apply IH].
Qed.

Lemma readValue_kind (rd : ref -> option ZWChild) v v' :
  readValue rd v = Some v' -> sameKind v v'.
Proof.
  destruct v as [|s|elems]; simpl.
  - now intros [= <-].
  - now intros [= <-].
  - destruct (readAll rd elems) as [cs|] eqn:E; [|discriminate].
    intros [= <-]. simpl.
    exact (Forall2_length _ _ _ (readAll_Forall2 _ _ _ E)).
Qed.

Lemma readChild_shows (h : Heap) fuel r c :
  readChild fuel h r = Some c ->
  exists o fuel', h !! r = Some o /\ shows o c /\ fuel = S fuel'
    /\ readValue (readChild fuel' h) (objValue o) = Some (childValue c)
    /\ objDepth o = childDepth c.
Proof.
  destruct fuel as [|fuel]; [discriminate|]. cbn [readChild].
  destruct (h !! r) as [[k v d dl|v kv ik d dl]|]; [| |discriminate];
    destruct (readValue _ v) as [v'|] eqn:Ev; try discriminate;
    intros [= <-]; eexists _, fuel; (split; [reflexivity|]);
    simpl; pose proof (readValue_kind _ _ _ Ev); auto 10.
Qed.

(** A property of all parent-child pairs of the store holds of all the
    pairs of the tree read from it. *)
Lemma edges_from_store (P : Q -> ZWChild -> Prop) (h : Heap) :
  (forall r o elems c oc tc,
     h !! r = Some o -> objValue o = VArray elems -> In c elems ->
     h !! c = Some oc -> shows oc tc -> P (objDepth o) tc) ->
  forall fuel r c, readChild fuel h r = Some c ->
    Forall (fun e => P (fst e) (snd e)) (edgesOfChild c).
Proof.
  intros HP. induction fuel as [|fuel IH]; intros r c Hread; [discriminate|].
  destruct (readChild_shows _ _ _ _ Hread)
    as (o & fuel' & Ho & _ & [= <-] & Hv & Hd).
  assert (Hedges : edgesOfChild c = edgesOfValue (objDepth o) (childValue c)).
  { rewrite Hd. now destruct c as [[k v d dl]|[v kv ik d dl]]. }
  rewrite Hedges. destruct (objValue o) as [|s|elems] eqn:Eo; simpl in Hv.
  - injection Hv as <-. constructor.
  - injection Hv as <-. constructor.
  - destruct (readAll _ elems) as [cs|] eqn:Ea; [|discriminate].
    injection Hv as <-. simpl.
    pose proof (readAll_Forall2 _ _ _ Ea) as Hall.
    assert (Hgen : forall xs tcs,
              Forall2 (fun r c => readChild fuel h r = Some c) xs tcs ->
              (forall x, In x xs -> In x elems) ->
              Forall (fun e => P (fst e) (snd e))
                (flat_map (fun c => (objDepth o, c) :: edgesOfChild c) tcs)).
    { induction 1 as [|x tc xs tcs Hx _ IHall]; intros Hin; simpl;
        [constructor|].
      constructor; [|apply Forall_app; split].
      - destruct (readChild_shows _ _ _ _ Hx) as (oc & _ & Hoc & Hsh & _).
        simpl. eapply HP; eauto. apply Hin. now left.
      - exact (IH _ _ Hx).
      - apply IHall. intros y Hy. apply Hin. now right. }
    now apply (Hgen elems).
Qed.

(** The store a call returns. *)
Lemma parseZW_store (zwString : jsstring) options h r :
  parseZW zwString options = Returned h r ->
  r = 0%nat
  /\ nested h /\ objectsOk (effectiveDelimiterOf options) h
  /\ (forall x o, h !! x = Some o -> valueKindOk o)
  /\ (exists k v dl, h !! 0%nat = Some (ONode k v 0 dl)).
Proof.
  rewrite parseZW_by_lines.
  destruct (semanticLines (preprocess zwString)) as [|rootLineContent rest];
    [discriminate|].
  destruct (rootLineMatch rootLineContent) as [rootKey|].
  - destruct (processLines_shaped rootKey (effectiveDelimiterOf options) rest
                _ (initialState_shaped _ _)) as (st & Hrun & Hsh & _).
    destruct (processLines_kinded rootKey (effectiveDelimiterOf options) rest
                _ (initialState_wf _ _) (initialState_kinded _ _))
      as (st' & Hrun' & _ & Hk).
    rewrite Hrun in Hrun'. injection Hrun' as <-. rewrite Hrun.
    intros [= <- <-]. destruct Hsh as [Hwf Hn _ Hobj].
    split; [reflexivity|]. split; [exact Hn|]. split; [exact Hobj|].
    split; [apply Hk|].
    destruct (wf_root _ _ _ Hwf) as [v Hv]. eauto.
  - intros [= <- <-]. split; [reflexivity|]. split; [|split; [|split]].
    + intros [|x] o es c; simpl; [|discriminate]. now intros [= <-].
    + intros [|x] o; simpl; [lia|discriminate].
    + intros [|x] o; simpl; [|discriminate]. now intros [= <-].
    + simpl. eauto.
Qed.

Lemma parseTree_store (zwString : jsstring) options root :
  parseTree zwString options = Some (Some root) ->
  exists h, parseZW zwString options = Returned h 0%nat
    /\ readChild (length h) h 0%nat = Some (ChildNode root).
Proof.
  unfold parseTree. destruct (parseZW zwString options) as [|h r|] eqn:E;
    try discriminate.
  destruct (parseZW_store _ _ _ _ E) as (-> & _).
  unfold readNode.
  destruct (readChild _ _ _) as [[n|i]|] eqn:Er; try discriminate.
  intros [= <-]. now exists h.
Qed.

Lemma shows_depth o c : shows o c -> objDepth o = childDepth c.
Proof.
  destruct o as [k v d dl|v kv ik d dl], c as [[k' v' d' dl']|[v' kv' ik' d' dl']];
    simpl; try tauto.
Qed.

(** No array holds the root. *)
Lemma child_is_not_root d (h : Heap) k v dl r o elems c :
  nested h -> objectsOk d h -> h !! 0%nat = Some (ONode k v 0 dl) ->
  h !! r = Some o -> objValue o = VArray elems -> In c elems ->
  (0 < c)%nat.
Proof.
  intros Hn Hobj Hroot Hr Hv Hc.
  destruct (Hn _ _ _ _ Hr Hv Hc) as (oc & Hoc & Hlt).
  destruct c as [|c]; [|lia]. exfalso.
  rewrite Hroot in Hoc. injection Hoc as <-. simpl in Hlt.
  destruct r as [|r].
  - rewrite Hroot in Hr. injection Hr as <-. simpl in Hlt.
    now apply Qlt_irrefl in Hlt.
  - destruct (Hobj _ _ Hr ltac:(lia)) as [Hone _].
    assert (1 < 0)%Q by (eapply Qle_lt_trans; eauto). discriminate.
Qed.

Module TreeDepths.

(** X5. In the tree [parseZW] returns, the root has depth 0 and, at every
    level, a child is strictly deeper than the node that holds it and has
    depth 1 at least: along any path from the root the depths strictly
    increase, whatever the indentation of the input was. *)
Theorem parseZW_children_are_deeper (zwString : jsstring) options root :
  parseTree zwString options = Some (Some root) ->
  nodeDepth root = 0%Q
  /\ Forall (fun e => deeperChild (fst e) (snd e)) (edgesOfNode root).
Proof.
  intros Htree. destruct (parseTree_store _ _ _ Htree) as (h & Hp & Hread).
  destruct (parseZW_store _ _ _ _ Hp) as (_ & Hn & Hobj & _ & k & v & dl & Hroot).
  split.
  - destruct (readChild_shows _ _ _ _ Hread) as (o & _ & Ho & Hsh & _).
    rewrite Hroot in Ho. injection Ho as <-. destruct root. simpl in *.
    now destruct Hsh as (_ & <- & _).
  - apply (edges_from_store _ h) with (fuel := length h) (r := 0%nat)
                                      (c := ChildNode root); [|exact Hread].
    intros r o elems c oc tc Hr Hv Hc Hoc Hsh.
    destruct (Hn _ _ _ _ Hr Hv Hc) as (oc' & Hoc' & Hlt).
    rewrite Hoc in Hoc'. injection Hoc' as <-.
    pose proof (child_is_not_root _ _ _ _ _ _ _ _ _ Hn Hobj Hroot Hr Hv Hc)
      as Hpos.
    destruct (Hobj _ _ Hoc Hpos) as [Hone _].
    unfold deeperChild. rewrite <- (shows_depth _ _ Hsh). now split.
Qed.

Lemma parseZW_children_are_deeper_example :
  exists root,
    parseTree (doc ["ROOT:"; "      a:"; "   b: 1"; " c:"; "       - x"]%string)
              None = Some (Some root)
    /\ nodeDepth root = 0%Q
    /\ Forall (fun e => deeperChild (fst e) (snd e)) (edgesOfNode root).
Proof.
  eexists. split; [vm_compute; reflexivity|].
  apply (parseZW_children_are_deeper
           (doc ["ROOT:"; "      a:"; "   b: 1"; " c:"; "       - x"]%string)
           None).
  vm_compute; reflexivity.
Defined.

End TreeDepths.

Module TreePatterns.

(** X6. In the tree [parseZW] returns, every node below the root has a
    non-empty key over [[A-Za-z0-9_]], carries the effective delimiter and
    holds a string or an array; every list item carries the effective
    delimiter, holds a string (never children), and has an [itemKey], an
    identifier, exactly when [isKeyValue] is [true] ([isKeyValue] is never
    [false]: it is [true] or absent).  The value of the root is never
    left undefined. *)
Theorem parseZW_children_follow_patterns (zwString : jsstring) options root :
  parseTree zwString options = Some (Some root) ->
  Forall (fun e => patternChild (effectiveDelimiterOf options) (snd e))
         (edgesOfNode root)
  /\ nodeValue root <> Undefined.
Proof.
  intros Htree. destruct (parseTree_store _ _ _ Htree) as (h & Hp & Hread).
  destruct (parseZW_store _ _ _ _ Hp)
    as (_ & Hn & Hobj & Hkind & k & v & dl & Hroot).
  split.
  - apply (edges_from_store
             (fun _ c => patternChild (effectiveDelimiterOf options) c) h)
      with (fuel := length h) (r := 0%nat) (c := ChildNode root);
      [|exact Hread].
    intros r o elems c oc tc Hr Hv Hc Hoc Hsh.
    pose proof (child_is_not_root _ _ _ _ _ _ _ _ _ Hn Hobj Hroot Hr Hv Hc)
      as Hpos.
    destruct (Hobj _ _ Hoc Hpos) as [_ Hwell].
    pose proof (Hkind _ _ Hoc) as Hk.
    destruct oc as [k1 v1 d1 dl1|v1 kv1 ik1 d1 dl1],
             tc as [[k2 v2 d2 dl2]|[v2 kv2 ik2 d2 dl2]];
      simpl in *; try tauto.
    + destruct Hsh as (<- & _ & <- & Hsame), Hwell as [Hkey Hdl].
      repeat split; try apply Hkey; try assumption.
      intros ->. destruct v1; simpl in Hsame; tauto.
    + destruct Hsh as (<- & <- & _ & <- & Hsame), Hwell as [Hdl Hik].
      destruct Hk as [s ->]. repeat split; try assumption.
      destruct v2; simpl in Hsame; try tauto. now exists s0.
  - destruct (readChild_shows _ _ _ _ Hread) as (o & _ & Ho & Hsh & _).
    rewrite Hroot in Ho. injection Ho as <-.
    pose proof (Hkind _ _ Hroot) as Hk. destruct root as [k2 v2 d2 dl2].
    simpl in *. destruct Hsh as (_ & _ & _ & Hsame).
    intros ->. destruct v; simpl in Hsame; tauto.
Qed.

Lemma parseZW_children_follow_patterns_example :
  exists root,
    parseTree (doc ["ROOT:"; "  a = 1"; "  b ="; "    - k = v"; "    - text";
                    "    more text"]%string)
              (Some (u "=")) = Some (Some root)
    /\ Forall (fun e => patternChild (u "=") (snd e)) (edgesOfNode root)
    /\ nodeValue root <> Undefined.
Proof.
  eexists. split; [vm_compute; reflexivity|].
  apply (parseZW_children_follow_patterns
           (doc ["ROOT:"; "  a = 1"; "  b ="; "    - k = v"; "    - text";
                 "    more text"]%string)
           (Some (u "="))).
  vm_compute; reflexivity.
Defined.

End TreePatterns.

Module DefensiveResets.

(** X7. Whatever the root, the delimiter and the lines read so far, the
    node the [while] loop stops at for the next line already holds an
    array in [value]: the two tests that would reset [parentNode.value]
    to an empty array (it is undefined or a string; it is not an array)
    are false at every line, so no reset ever discards children or a
    string, and the line is processed. *)
Theorem parent_value_is_always_an_array
    (rootKey effectiveDelimiter : jsstring) (lines : list jsstring)
    (line : jsstring) :
  exists st parent below st',
    processLines effectiveDelimiter (initialState rootKey effectiveDelimiter)
                 lines = Some st
    /\ popStack (heap st) (lineDepth (getIndentation line)) (stack st)
       = Some (parent :: below)
    /\ holdsArray (heap st) parent
    /\ ensureArray (heap st) parent = heap st
    /\ processLine effectiveDelimiter st line = Some st'.
Proof.
  destruct (processLines_kinded rootKey effectiveDelimiter lines _
              (initialState_wf _ _) (initialState_kinded _ _))
    as (st & Hrun & Hwf & Hk).
  destruct (processLine_kinded _ _ _ line Hwf Hk)
    as (parent & below & st' & Hpop & Harr & Hid & Hstep & _).
  now exists st, parent, below, st'.
Qed.

End DefensiveResets.

(** ** Depth resolution and attachment *)


Module DepthResolution.



End DepthResolution.

(** ** Comment lines inside a document *)

Lemma trimEnd_app_nonblank (x y : jsstring) :
  trimEnd y <> [] -> trimEnd (x ++ y) = x ++ trimEnd y.
Proof.
  intros Hy. induction x as [|c x IH]; [reflexivity|]. simpl.
  rewrite trimEnd_cons, IH. destruct (x ++ trimEnd y) eqn:E; [|reflexivity].
  apply app_eq_nil in E as [_ E]. contradiction.
Qed.

Lemma trim_app_nonblank (x y : jsstring) :
  trimStart x <> [] -> trimEnd y <> [] ->
  trim (x ++ y) = trimStart x ++ trimEnd y.
Proof.
  intros Hx Hy. unfold trim at 1, trimStart at 1. rewrite dropWhile_app.
  fold (trimStart x). destruct (trimStart x) as [|c r] eqn:E; [contradiction|].
  now apply trimEnd_app_nonblank.
Qed.

Lemma trim_nonblank_ends (s : jsstring) :
  trim s <> [] -> trimStart s <> [] /\ trimEnd s <> [].
Proof.
  intros H. split; intros E; apply H.
  - unfold trim. now rewrite E.
  - apply trim_blank. now apply trimEnd_nil_blank.
Qed.

Lemma split_around_LF (p q : jsstring) :
  split LF (p ++ LF :: q) = split LF p ++ split LF q.
Proof.
  induction p as [|x p IH]; [reflexivity|]. cbn [app split].
  destruct (x =? LF); [now rewrite IH|]. rewrite IH.
  destruct (split LF p) eqn:E; [now apply split_not_nil in E|reflexivity].
Qed.

Lemma trimStart_head (s : jsstring) c r :
  trimStart s = c :: r -> exists r', trim s = c :: r'.
Proof.
  intros E. pose proof (dropWhile_head _ _ _ _ E) as Hc.
  unfold trim. rewrite E, trimEnd_cons, Hc. destruct (trimEnd r); eauto.
Qed.

Module Comments.

(** X8. A comment line or a blank line between two parts of a document
    does not change what [parseZW] does: with [a] and [b] holding each a
    character that is not white space, and the first such character of [a]
    not a backtick, the document [a], line feed, [c], line feed, [b] gives
    the same outcome, same store included, as [a], line feed, [b] for every
    line [c] that is blank or starts with [#] after white space. *)
Theorem parseZW_skips_inner_comment (a c b : jsstring) options :
  trim a <> [] -> trim b <> [] ->
  startsWith (u "`") (trim a) = false ->
  includes LF c = false -> isSemantic c = false ->
  parseZW (a ++ LF :: c ++ LF :: b) options
  = parseZW (a ++ LF :: b) options.
Proof.
  intros Ha Hb Htick Hline Hc.
  destruct (trim_nonblank_ends _ Ha) as [Ha1 _].
  destruct (trim_nonblank_ends _ Hb) as [_ Hb2].
  assert (Hfence : forall rest, startsWith (u "```") (trimStart a ++ rest)
                                = false).
  { intros rest. destruct (trimStart a) as [|x r] eqn:E; [contradiction|].
    destruct (trimStart_head _ _ _ E) as [r' E']. rewrite E' in Htick.
    cbn [u startsWith] in *. change (u "`") with [96] in Htick.
    cbn [startsWith] in Htick. rewrite andb_true_r in Htick.
    cbn [app]. change (u "```") with [96; 96; 96]. cbn [startsWith].
    now rewrite Htick. }
  assert (Ht : trimEnd (LF :: c ++ LF :: b) = LF :: c ++ LF :: trimEnd b).
  { replace (LF :: c ++ LF :: b) with ((LF :: c ++ [LF]) ++ b)
      by (cbn [app]; now rewrite <- app_assoc).
    rewrite (trimEnd_app_nonblank _ _ Hb2). cbn [app].
    now rewrite <- app_assoc. }
  assert (E1 : trim (a ++ LF :: c ++ LF :: b)
               = trimStart a ++ LF :: c ++ LF :: trimEnd b).
  { rewrite trim_app_nonblank; [now rewrite Ht|exact Ha1|].
    rewrite Ht. discriminate. }
  assert (E2 : trim (a ++ LF :: b) = trimStart a ++ LF :: trimEnd b).
  { pose proof (trimEnd_app_nonblank [LF] b Hb2) as Ht2. cbn [app] in Ht2.
    rewrite trim_app_nonblank; [now rewrite Ht2|exact Ha1|].
    rewrite Ht2. discriminate. }
  rewrite !parseZW_by_lines.
  rewrite !preprocess_unfenced by (rewrite ?E1, ?E2; apply Hfence).
  rewrite E1, E2. unfold semanticLines.
  rewrite !split_around_LF, (split_single_line c Hline).
  rewrite !List.filter_app. cbn [List.filter]. rewrite Hc. reflexivity.
Qed.

Lemma parseZW_skips_inner_comment_example :
  parseZW (doc ["ZW-TEST:"; "  a: 1"; "   # no child of a"; "  b: 2"]%string)
          None
  = parseZW (doc ["ZW-TEST:"; "  a: 1"; "  b: 2"]%string) None.
Proof.
  apply (parseZW_skips_inner_comment
           (doc ["ZW-TEST:"; "  a: 1"]%string) (u "   # no child of a")
           (u "  b: 2") None);
    try (vm_compute; reflexivity); discriminate.
Defined.

End Comments.

(** ** Documents that open with a root declaration *)

Lemma rootKeyChar_facts (c : N) :
  isRootKeyChar c = true ->
  isWhiteSpace c = false /\ c <> 35 /\ c <> 96 /\ c <> LF.
Proof.
  intros H. split.
  - destruct (isWhiteSpace c) eqn:E; [|reflexivity].
    apply isWhiteSpace_not_key in E. congruence.
  - unfold isRootKeyChar, isUpper, isLower, isDigit, LF in *.
    repeat rewrite orb_true_iff in H. rewrite ?andb_true_iff in H.
    rewrite ?N.leb_le, ?N.eqb_eq in H. lia.
Qed.

Lemma includes_forallb (p : N -> bool) (c : N) (s : jsstring) :
  forallb p s = true -> p c = false -> includes c s = false.
Proof.
  intros Hs Hc. unfold includes. induction s as [|x s IH]; [reflexivity|].
  simpl in *. apply andb_prop in Hs as [Hx Hs]. rewrite (IH Hs), orb_false_r.
  apply N.eqb_neq. intros ->. congruence.
Qed.

Lemma includes_app (c : N) (a b : jsstring) :
  includes c (a ++ b) = includes c a || includes c b.
Proof. unfold includes. apply existsb_app. Qed.

(** The text that opens with a root type, the colon and a line feed: the
    trimmed text keeps the first line whole, and loses the white space at
    the end of [body] only. *)
Lemma trim_rooted (T body : jsstring) :
  T <> [] -> forallb isRootKeyChar T = true ->
  trim (T ++ u ":" ++ LF :: body)
  = T ++ u ":" ++ match trimEnd body with
                  | [] => []
                  | (_ :: _) as t => LF :: t
                  end.
Proof.
  intros Hne HT. destruct T as [|t0 T]; [contradiction|].
  cbn [forallb] in HT. apply andb_prop in HT as [Ht0 HT].
  destruct (rootKeyChar_facts _ Ht0) as (Hws & _).
  unfold trim, trimStart. cbn [app dropWhile]. rewrite Hws.
  change (u ":") with [58]. cbn [app].
  destruct (trimEnd body) as [|b bs] eqn:Eb.
  - replace (t0 :: T ++ 58 :: LF :: body)
      with (((t0 :: T) ++ [58]) ++ LF :: body)
      by (rewrite <- app_assoc; reflexivity).
    rewrite trimEnd_app_blank.
    + rewrite trimEnd_fixed by reflexivity. reflexivity.
    + cbn [forallb]. now rewrite (trimEnd_nil_blank _ Eb).
  - replace (t0 :: T ++ 58 :: LF :: body)
      with (((t0 :: T) ++ [58; LF]) ++ body)
      by (rewrite <- app_assoc; reflexivity).
    rewrite trimEnd_app_nonblank by (rewrite Eb; discriminate).
    rewrite Eb, <- app_assoc. reflexivity.
Qed.

Lemma isSemantic_root_line (T : jsstring) :
  T <> [] -> forallb isRootKeyChar T = true ->
  isSemantic (T ++ u ":") = true.
Proof.
  intros Hne HT. destruct T as [|t0 T]; [contradiction|].
  cbn [forallb] in HT. apply andb_prop in HT as [Ht0 HT].
  destruct (rootKeyChar_facts _ Ht0) as (Hws & Hhash & _).
  unfold isSemantic. change (u ":") with [58]. cbn [app].
  rewrite trim_fixed by (exact Hws || reflexivity).
  now apply semantic_unless_comment.
Qed.

Lemma semanticLines_rooted (T body : jsstring) :
  T <> [] -> forallb isRootKeyChar T = true ->
  semanticLines (preprocess (T ++ u ":" ++ LF :: body))
  = (T ++ u ":") :: semanticLines (trimEnd body).
Proof.
  intros Hne HT. pose proof (trim_rooted T body Hne HT) as Et.
  assert (Hline : includes LF (T ++ u ":") = false).
  { rewrite includes_app. rewrite (includes_forallb isRootKeyChar);
      [reflexivity|exact HT|reflexivity]. }
  rewrite preprocess_unfenced.
  2:{ rewrite Et. destruct T as [|t0 T]; [contradiction|].
      cbn [forallb] in HT. apply andb_prop in HT as [Ht0 _].
      destruct (rootKeyChar_facts _ Ht0) as (_ & _ & Htick & _).
      change (u "```") with [96; 96; 96]. cbn [app startsWith].
      apply N.eqb_neq in Htick. now rewrite N.eqb_sym, Htick. }
  rewrite Et. unfold semanticLines.
  destruct (trimEnd body) as [|b bs] eqn:Eb.
  - rewrite app_nil_r, (split_single_line _ Hline). cbn [List.filter split].
    now rewrite (isSemantic_root_line T Hne HT).
  - rewrite app_assoc, (split_app_LF _ _ Hline). cbn [List.filter].
    now rewrite (isSemantic_root_line T Hne HT).
Qed.

(** Whatever follows the root declaration, the document is accepted. *)
Lemma parseTree_rooted (T body : jsstring) options :
  T <> [] -> forallb isRootKeyChar T = true ->
  exists st value,
    processLines (effectiveDelimiterOf options)
      (initialState T (effectiveDelimiterOf options))
      (semanticLines (trimEnd body)) = Some st
    /\ readNode (heap st) 0%nat
       = Some (Node T value 0 (Some (effectiveDelimiterOf options)))
    /\ parseZW (T ++ u ":" ++ LF :: body) options = Returned (heap st) 0%nat
    /\ parseTree (T ++ u ":" ++ LF :: body) options
       = Some (Some (Node T value 0 (Some (effectiveDelimiterOf options)))).
Proof.
  intros Hne HT.
  destruct (processLines_total T (effectiveDelimiterOf options)
              (semanticLines (trimEnd body)) _ (initialState_wf _ _))
    as (st & Hrun & Hwf).
  destruct (readNode_total _ _ _ Hwf) as [value Hread].
  assert (Hroot : rootLineMatch (T ++ u ":") = Some T).
  { apply rootLineMatch_Some. split; [exact Hne|]. split; [exact HT|].
    exists []. split; reflexivity. }
  assert (Hp : parseZW (T ++ u ":" ++ LF :: body) options
               = Returned (heap st) 0%nat).
  { rewrite parseZW_by_lines, (semanticLines_rooted T body Hne HT).
    now rewrite Hroot, Hrun. }
  exists st, value. split; [exact Hrun|]. split; [exact Hread|].
  split; [exact Hp|]. unfold parseTree. now rewrite Hp, Hread.
Qed.

Section RootedOutput.

Variable JSON_parse : jsstring -> JsonValue + jsstring.
Variable engineRoundTrip : jsstring -> bool.

Lemma hasRootType_trimmed (rootZwType : jsstring) :
  trim rootZwType <> [] -> hasRootType (Some rootZwType) = true.
Proof.
  intros H. unfold hasRootType.
  destruct rootZwType as [|c r]; [now destruct H|].
  destruct (trim (c :: r)); [contradiction|reflexivity].
Qed.

(** With a root type, the output is the declaration line and a body. *)
Lemma convertParsedJson_rooted (parsedJson : JsonValue)
    (rootZwType : jsstring) :
  trim rootZwType <> [] -> forallb isRootKeyChar (trim rootZwType) = true ->
  convertParsedJson engineRoundTrip parsedJson (Some rootZwType)
  = trim rootZwType ++ u ":" ++ LF ::
      match parsedJson with
      | JObject props =>
          convertObjectToZwItems engineRoundTrip props 1 false
      | JArray _ => convertValueToZw engineRoundTrip parsedJson 1
      | _ => spaces (1 * JSON_TO_ZW_INDENT_SPACES) ++ u "ROOT_VALUE: "
             ++ convertValueToZw engineRoundTrip parsedJson 0
      end.
Proof.
  intros Hne HT. unfold convertParsedJson.
  rewrite (hasRootType_trimmed _ Hne). cbn [trimmedRootType andb].
  assert (Hno : noRootType (Some rootZwType) = false).
  { destruct rootZwType; [now destruct Hne|reflexivity]. }
  rewrite Hno.
  set (body := match parsedJson with
               | JObject props =>
                   convertObjectToZwItems engineRoundTrip props 1 false
               | JArray _ => convertValueToZw engineRoundTrip parsedJson 1
               | _ => spaces (1 * JSON_TO_ZW_INDENT_SPACES) ++ u "ROOT_VALUE: "
                      ++ convertValueToZw engineRoundTrip parsedJson 0
               end).
  assert (Hout : forall out, out = trim rootZwType ++ u ":" ++ LF :: body ->
            (if eqb (trim out) [] && true
             then trim rootZwType ++ u ":" else out)
            = trim rootZwType ++ u ":" ++ LF :: body).
  { intros out ->. rewrite (trim_rooted _ body Hne HT).
    destruct (trim rootZwType); [contradiction|reflexivity]. }
  destruct parsedJson; apply Hout; unfold body;
    rewrite <- ?app_assoc; reflexivity.
Qed.

End RootedOutput.

Module RootedOutputs.

(** X9. When [JSON.parse] accepts the text and the root type, trimmed, is
    an identifier over [[A-Za-z0-9_-]], the output of
    [convertJsonToZwString] is a document [parseZW] accepts, whatever the
    JSON value and the delimiter option: the parser returns a node whose
    key is the trimmed root type, at depth 0, which fails the callers'
    test [key.startsWith('Error:')], and [validateZWContent] answers
    [true]. *)
Theorem convertJsonToZwString_output_is_accepted
    (JSON_parse : jsstring -> JsonValue + jsstring)
    (engineRoundTrip : jsstring -> bool)
    (jsonString rootZwType : jsstring) (parsedJson : JsonValue) options :
  JSON_parse jsonString = inl parsedJson ->
  trim rootZwType <> [] -> forallb isRootKeyChar (trim rootZwType) = true ->
  exists value,
    parseTree (convertJsonToZwString JSON_parse engineRoundTrip jsonString
                 (Some rootZwType)) options
    = Some (Some (Node (trim rootZwType) value 0
                       (Some (effectiveDelimiterOf options))))
    /\ isErrorNode (Node (trim rootZwType) value 0
                         (Some (effectiveDelimiterOf options))) = false
    /\ validateZWContent (convertJsonToZwString JSON_parse engineRoundTrip
                            jsonString (Some rootZwType)) = true.
Proof.
  intros Hjson Hne HT. unfold convertJsonToZwString. rewrite Hjson.
  rewrite (convertParsedJson_rooted engineRoundTrip _ _ Hne HT).
  match goal with |- context [LF :: ?b] => generalize b end. intros body.
  destruct (parseTree_rooted (trim rootZwType) body options Hne HT)
    as (st & value & _ & _ & _ & Htree).
  destruct (parseTree_rooted (trim rootZwType) body None Hne HT)
    as (st' & value' & _ & _ & Hp & _).
  exists value. split; [exact Htree|]. split.
  - unfold isErrorNode. simpl. now apply rootKey_not_error.
  - unfold validateZWContent. now rewrite Hp.
Qed.

Lemma convertJsonToZwString_output_example :
  exists value,
    parseTree (convertJsonToZwString
                 (parsesOnly itemsJson itemsValue
                    (u "Unexpected end of JSON input"))
                 (fun _ => false) itemsJson (Some (u " ZW-DATA ")))
              (Some (u "="))
    = Some (Some (Node (u "ZW-DATA") value 0 (Some (u "="))))
    /\ validateZWContent
         (convertJsonToZwString
            (parsesOnly itemsJson itemsValue
               (u "Unexpected end of JSON input"))
            (fun _ => false) itemsJson (Some (u " ZW-DATA "))) = true.
Proof.
  destruct (convertJsonToZwString_output_is_accepted
              (parsesOnly itemsJson itemsValue
                 (u "Unexpected end of JSON input"))
              (fun _ => false) itemsJson (u " ZW-DATA ") itemsValue
              (Some (u "=")))
    as (value & H1 & _ & H3).
  - vm_compute; reflexivity.
  - vm_compute; discriminate.
  - vm_compute; reflexivity.
  - exists value. split; [exact H1|exact H3].
Defined.

End RootedOutputs.


(** ** Lines of the form key, colon, space, text *)

Lemma keyChar_facts (c : N) :
  isKeyChar c = true ->
  isWhiteSpace c = false /\ c <> 35 /\ c <> LF /\ c <> 58.
Proof.
  intros H. assert (Hr : isRootKeyChar c = true).
  { unfold isRootKeyChar. unfold isKeyChar in H. now rewrite H. }
  destruct (rootKeyChar_facts _ Hr) as (Hws & Hhash & _ & Hlf).
  repeat split; try assumption.
  unfold isKeyChar, isUpper, isLower, isDigit in H.
  repeat rewrite orb_true_iff in H. rewrite ?andb_true_iff in H.
  rewrite ?N.leb_le, ?N.eqb_eq in H. lia.
Qed.

Lemma trim_fixed_ends (t : jsstring) :
  trim t = t -> trimStart t = t /\ trimEnd t = t.
Proof.
  intros Ht. destruct (trimStart_split t) as (w & _ & Hw).
  destruct (trimEnd_split (trimStart t)) as (w' & _ & Hw').
  fold (trim t) in Hw'. rewrite Ht in Hw'.
  assert (Hlen : length w = 0%nat).
  { apply (f_equal (@length N)) in Hw, Hw'. rewrite length_app in Hw, Hw'. lia. }
  destruct w; [|discriminate]. simpl in Hw.
  split; [now symmetry|]. unfold trim in Ht. now rewrite <- Hw in Ht.
Qed.

Lemma plainText_head (t : jsstring) :
  plainText t -> exists c r, t = c :: r /\ isWhiteSpace c = false.
Proof.
  intros (Hne & Ht & _). destruct t as [|c r]; [contradiction|].
  exists c, r. split; [reflexivity|]. exact (trim_head _ _ _ Ht).
Qed.

Lemma lineTerminator_LF (t : jsstring) :
  existsb isLineTerminator t = false -> includes LF t = false.
Proof.
  unfold includes. induction t as [|c t IH]; [reflexivity|]. cbn [existsb].
  intros [Hc Ht]%orb_false_elim. rewrite (IH Ht), orb_false_r.
  apply N.eqb_neq. intros <-. discriminate Hc.
Qed.

Lemma getIndentation_spaces (n : nat) (c : N) (r : jsstring) :
  isWhiteSpace c = false -> getIndentation (spaces n ++ c :: r) = n.
Proof.
  intros Hc. unfold getIndentation, spaces.
  induction n as [|n IH]; cbn [repeat app takeWhile].
  - now rewrite Hc.
  - change (isWhiteSpace 32) with true. cbn [length]. now rewrite IH.
Qed.

Lemma spaces_blank (n : nat) : forallb isWhiteSpace (spaces n) = true.
Proof. induction n as [|n IH]; [reflexivity|exact IH]. Qed.

(** No shorter key than the whole run of key characters reaches the
    colon. *)
Lemma matchKeyed_before_colon {A} (tail : jsstring -> option A)
    (k rest : jsstring) :
  forallb isKeyChar k = true ->
  forall n, (n < length k)%nat -> matchKeyed n (u ":") (k ++ rest) tail = None.
Proof.
  intros Hk. induction n as [|n IH]; intros Hn; [reflexivity|].
  cbn [matchKeyed]. rewrite IH by lia.
  rewrite skipn_app. replace (S n - length k)%nat with 0%nat by lia.
  destruct (skipn (S n) k) as [|c r] eqn:E.
  - apply (f_equal (@length N)) in E. rewrite length_skipn in E. simpl in E. lia.
  - assert (Hc : isKeyChar c = true).
    { assert (Hall : forallb isKeyChar (skipn (S n) k) = true).
      { rewrite <- (firstn_skipn (S n) k) in Hk. rewrite forallb_app in Hk.
        now apply andb_prop in Hk as [_ Hk]. }
      rewrite E in Hall. now apply andb_prop in Hall as [Hall _]. }
    destruct (keyChar_facts _ Hc) as (_ & _ & _ & Hcolon).
    change (u ":") with [58]. cbn [app skipn startsWith].
    apply N.eqb_neq in Hcolon. now rewrite N.eqb_sym, Hcolon.
Qed.

Lemma keyRun_before_colon (k rest : jsstring) :
  forallb isKeyChar k = true -> keyRun (k ++ 58 :: rest) = length k.
Proof.
  intros Hk. unfold keyRun. rewrite takeWhile_app_all by exact Hk.
  cbn [takeWhile]. change (isKeyChar 58) with false. now rewrite app_nil_r.
Qed.

(** At the whole run, the colon is found and the continuation decides. *)
Lemma matchKeyed_at_colon {A} (tail : jsstring -> option A)
    (k rest : jsstring) :
  k <> [] -> forallb isKeyChar k = true ->
  matchKeyed (length k) (u ":") (k ++ 58 :: rest) tail
  = option_map (fun a => (k, a)) (tail rest).
Proof.
  intros Hne Hk. destruct (length k) as [|m] eqn:E.
  - destruct k; [contradiction|discriminate].
  - cbn [matchKeyed]. rewrite <- E.
    rewrite (matchKeyed_before_colon tail k (58 :: rest) Hk m) by lia.
    rewrite skipn_app, skipn_all, Nat.sub_diag. cbn [app skipn].
    change (u ":") with [58]. cbn [startsWith length]. rewrite N.eqb_refl.
    cbn [andb]. rewrite skipn_app, skipn_all2 by lia.
    replace (length k + 1 - length k)%nat with 1%nat by lia.
    cbn [app skipn]. change (skipn 0 rest) with rest.
    destruct (tail rest); [|reflexivity]. cbn [option_map].
    now rewrite firstn_app, firstn_all, Nat.sub_diag, app_nil_r.
Qed.

Lemma sectionMatch_key_value (k v : jsstring) :
  isKey k -> plainText v -> sectionMatch (u ":") (k ++ u ": " ++ v) = None.
Proof.
  intros [Hne Hk] Hv. destruct (plainText_head _ Hv) as (c & r & -> & Hc).
  unfold sectionMatch. change (u ": ") with [58; 32]. cbn [app].
  rewrite keyRun_before_colon, matchKeyed_at_colon by assumption.
  unfold sectionTail. cbn [forallb]. now rewrite Hc.
Qed.

Lemma keyValueMatch_key_value (k v : jsstring) :
  isKey k -> plainText v ->
  keyValueMatch (u ":") (k ++ u ": " ++ v) = Some (k, v).
Proof.
  intros [Hne Hk] Hv. destruct (plainText_head _ Hv) as (c & r & -> & Hc).
  destruct Hv as (_ & _ & Hlt).
  unfold keyValueMatch. change (u ": ") with [58; 32]. cbn [app].
  rewrite keyRun_before_colon, matchKeyed_at_colon by assumption.
  unfold keyValueTail. cbn [dropWhile]. change (isWhiteSpace 32) with true.
  cbv iota. now rewrite Hc, Hlt.
Qed.

Lemma kv_line_trim (n : nat) (k v : jsstring) :
  isKey k -> plainText v ->
  trim (spaces n ++ k ++ u ": " ++ v) = k ++ u ": " ++ v.
Proof.
  intros Hkey Hplain.
  rewrite trim_blank_before by apply spaces_blank.
  destruct Hkey as [Hne Hk]. destruct k as [|k0 k'] eqn:Ek; [contradiction|].
  cbn [forallb] in Hk. apply andb_prop in Hk as [Hk0 _].
  destruct (keyChar_facts _ Hk0) as (Hws & _).
  unfold trim, trimStart. cbn [app dropWhile]. rewrite Hws.
  destruct Hplain as (Hv & Ht & _). destruct (trim_fixed_ends _ Ht) as [_ He].
  change (k0 :: k' ++ u ": " ++ v) with ((k0 :: k') ++ u ": " ++ v).
  rewrite app_assoc, trimEnd_app_nonblank by (now rewrite He).
  now rewrite He, <- app_assoc.
Qed.

Lemma kv_line_trimEnd (n : nat) (k v : jsstring) :
  isKey k -> plainText v ->
  trimEnd (spaces n ++ k ++ u ": " ++ v) = spaces n ++ k ++ u ": " ++ v.
Proof.
  intros Hkey Hplain.
  destruct Hplain as (Hv & Ht & _). destruct (trim_fixed_ends _ Ht) as [_ He].
  rewrite !app_assoc, trimEnd_app_nonblank by (now rewrite He).
  now rewrite He.
Qed.

Lemma kv_line_indent (n : nat) (k v : jsstring) :
  isKey k -> plainText v -> getIndentation (spaces n ++ k ++ u ": " ++ v) = n.
Proof.
  intros Hkey Hplain.
  destruct Hkey as [Hne Hk]. destruct k as [|k0 k']; [contradiction|].
  cbn [forallb] in Hk. apply andb_prop in Hk as [Hk0 _].
  destruct (keyChar_facts _ Hk0) as (Hws & _).
  now apply getIndentation_spaces.
Qed.

Lemma kv_line_no_LF (n : nat) (k v : jsstring) :
  isKey k -> plainText v -> includes LF (spaces n ++ k ++ u ": " ++ v) = false.
Proof.
  intros Hkey Hplain.
  destruct Hkey as [_ Hk], Hplain as (_ & _ & Hlt).
  assert (Hs : includes LF (spaces n) = false).
  { unfold includes, spaces. clear. induction n; [reflexivity|assumption]. }
  assert (Hk' : includes LF k = false).
  { apply (includes_forallb isKeyChar); [exact Hk|reflexivity]. }
  rewrite !includes_app, Hs, Hk', (lineTerminator_LF _ Hlt). reflexivity.
Qed.

Lemma kv_line_semantic (n : nat) (k v : jsstring) :
  isKey k -> plainText v ->
  isSemantic (spaces n ++ k ++ u ": " ++ v) = true.
Proof.
  intros Hkey Hplain.
  unfold isSemantic. rewrite kv_line_trim by assumption.
  destruct Hkey as [Hne Hk]. destruct k as [|k0 k']; [contradiction|].
  cbn [forallb] in Hk. apply andb_prop in Hk as [Hk0 _].
  destruct (keyChar_facts _ Hk0) as (_ & Hhash & _).
  now apply semantic_unless_comment.
Qed.

Lemma kv_line_object (n : nat) (k v : jsstring) :
  isKey k -> plainText v ->
  lineObject (u ":") (spaces n ++ k ++ u ": " ++ v)
  = Some (ONode k (VString v) (lineDepth n) (Some (u ":")), false).
Proof.
  intros Hkey Hplain.
  unfold lineObject. rewrite kv_line_trim, kv_line_indent by assumption.
  rewrite (key_is_not_list_marker k _ (proj1 Hkey) (proj2 Hkey)).
  now rewrite (sectionMatch_key_value k v Hkey Hplain),
              (keyValueMatch_key_value k v Hkey Hplain).
Qed.


(** ** Texts that are plain *)

Lemma lineTerminator_is_whiteSpace (c : N) :
  isLineTerminator c = true -> isWhiteSpace c = true.
Proof.
  unfold isLineTerminator. rewrite !orb_true_iff, !N.eqb_eq.
  intros [[[->| ->]| ->]| ->]; reflexivity.
Qed.

Lemma plainText_without_whiteSpace (t : jsstring) :
  t <> [] -> forallb (fun c => negb (isWhiteSpace c)) t = true ->
  plainText t.
Proof.
  intros Hne Hall. split; [exact Hne|]. split.
  - unfold trim, trimStart. destruct t as [|c t]; [contradiction|].
    cbn [forallb] in Hall. apply andb_prop in Hall as [Hc Hall].
    apply negb_true_iff in Hc. cbn [dropWhile]. rewrite Hc.
    clear Hne. revert c Hc. induction t as [|d t IH]; intros c Hc.
    + rewrite trimEnd_cons. cbn. now rewrite Hc.
    + cbn [forallb] in Hall. apply andb_prop in Hall as [Hd Hall].
      apply negb_true_iff in Hd. rewrite trimEnd_cons, (IH Hall d Hd).
      reflexivity.
  - clear Hne. induction t as [|c t IH]; [reflexivity|].
    cbn [forallb existsb] in *. apply andb_prop in Hall as [Hc Hall].
    rewrite (IH Hall), orb_false_r. apply negb_true_iff in Hc.
    destruct (isLineTerminator c) eqn:E; [|reflexivity].
    apply lineTerminator_is_whiteSpace in E. congruence.
Qed.

Lemma digits_of_uint (d : Decimal.uint) :
  forallb isDigit (u (NilEmpty.string_of_uint d)) = true.
Proof. induction d; [reflexivity|exact IHd..]. Qed.

(** [String] of an integer: an optional minus sign and digits. *)
Lemma numberToString_chars (z : Z) :
  numberToString z <> []
  /\ forallb (fun c => isDigit c || (c =? 45)) (numberToString z) = true.
Proof.
  assert (Hwiden : forall t, forallb isDigit t = true ->
            forallb (fun c => isDigit c || (c =? 45)) t = true).
  { induction t as [|c t IH]; [reflexivity|]. cbn [forallb].
    intros [Hc Ht]%andb_prop. now rewrite Hc, (IH Ht). }
  assert (Huint : forall d, u (NilZero.string_of_uint d) <> []
            /\ forallb isDigit (u (NilZero.string_of_uint d)) = true).
  { intros d. split.
    - destruct d; discriminate.
    - destruct d; try exact (digits_of_uint _); reflexivity. }
  unfold numberToString. destruct (Z.to_int z) as [d|d].
  - destruct (Huint d) as [Hne Hd]. split; [exact Hne|now apply Hwiden].
  - split; [discriminate|]. destruct (Huint d) as [_ Hd].
    apply Hwiden in Hd. exact Hd.
Qed.

Lemma numberToString_plain (z : Z) :
  plainText (numberToString z) /\ includes 58 (numberToString z) = false.
Proof.
  destruct (numberToString_chars z) as [Hne Hall]. split.
  - apply plainText_without_whiteSpace; [exact Hne|].
    clear Hne. induction (numberToString z) as [|c t IH]; [reflexivity|].
    cbn [forallb] in *. apply andb_prop in Hall as [Hc Ht].
    rewrite (IH Ht), andb_true_r. apply negb_true_iff.
    destruct (isWhiteSpace c) eqn:E; [|reflexivity].
    apply isWhiteSpace_not_key in E. unfold isRootKeyChar in E.
    apply orb_prop in Hc as [Hc|Hc]; rewrite Hc in E;
      now rewrite ?orb_true_r in E.
  - apply (includes_forallb _ _ _ Hall). reflexivity.
Qed.

(** The text of any other number: no white space and no colon either. *)
Lemma numberText_plain (text : jsstring) :
  text <> [] -> forallb isNumberTextChar text = true ->
  plainText text /\ includes 58 text = false.
Proof.
  intros Hne Hall. split.
  - apply plainText_without_whiteSpace; [exact Hne|].
    clear Hne. induction text as [|c t IH]; [reflexivity|].
    cbn [forallb] in *. apply andb_prop in Hall as [Hc Ht].
    rewrite (IH Ht), andb_true_r. apply negb_true_iff.
    destruct (isWhiteSpace c) eqn:E; [|reflexivity].
    pose proof (isWhiteSpace_not_key _ E) as Hk.
    unfold isNumberTextChar in Hc. unfold isRootKeyChar in Hk.
    rewrite !orb_true_iff, !N.eqb_eq in Hc.
    destruct Hc as [[[[Hc|Hc]|Hc]|Hc]|Hc]; subst;
      try discriminate E; try discriminate Hk.
    rewrite Hc in Hk. now rewrite ?orb_true_r in Hk.
  - apply (includes_forallb _ _ _ Hall). reflexivity.
Qed.

(** ** The delimiter inside the patterns *)

Module EscapedDelimiter.

(** X11. [escapeRegExp] makes a pattern that stands for the string itself:
    in its result no syntax character of a regular expression is left
    bare and no backslash stands before an ordinary character, and read as
    a pattern it is the literal text of the argument, for every string.
    When the string holds no syntax character, the result is the string
    unchanged.  So the [delimiter] option is always matched as plain text,
    whatever characters it holds. *)
Theorem escapeRegExp_is_literal (s : jsstring) :
  literalOf (escapeRegExp s) = Some s
  /\ (escapeRegExp s = s
      <-> forallb (fun c => negb (isRegExpSpecial c)) s = true).
Proof.
  split.
  - induction s as [|c s IH]; [reflexivity|].
    unfold escapeRegExp in *. cbn [flat_map].
    destruct (isRegExpSpecial c) eqn:Ec; cbn [app literalOf].
    + rewrite N.eqb_refl, Ec, IH. reflexivity.
    + destruct (N.eqb_spec c BACKSLASH) as [->|_]; [discriminate Ec|].
      now rewrite Ec, IH.
  - assert (Hlen : forall t, (length t <= length (escapeRegExp t))%nat).
    { induction t as [|c t IH]; [reflexivity|]. unfold escapeRegExp in *.
      cbn [flat_map]. rewrite length_app.
      destruct (isRegExpSpecial c); simpl; lia. }
    induction s as [|c s IH]; [easy|]. unfold escapeRegExp in *.
    cbn [flat_map forallb].
    destruct (isRegExpSpecial c) eqn:Ec; cbn [app negb andb].
    + split; [|discriminate]. intros [= _ E]. exfalso.
      apply (f_equal (@length N)) in E. cbn [length] in E.
      specialize (Hlen s). unfold escapeRegExp in Hlen. lia.
    + rewrite <- IH. split; [now intros [= E]|now intros ->].
Qed.

End EscapedDelimiter.

(** ** Names of exported files *)

Lemma stripExtension_of_extension (stem ext : jsstring) :
  ext <> [] -> forallb isExtensionChar ext = true ->
  stripExtension (stem ++ u "." ++ ext) = stem.
Proof.
  intros Hne Hext. unfold stripExtension. cbv zeta.
  change (u ".") with [46]. rewrite !rev_app_distr. cbn [rev app].
  rewrite <- app_assoc. cbn [app].
  assert (Hrev : forallb isExtensionChar (rev ext) = true)
    by now rewrite forallb_rev.
  rewrite (takeWhile_app_stop _ _ _ Hrev) by reflexivity.
  destruct (rev ext) as [|x xs] eqn:E.
  - apply (f_equal (@rev N)) in E. rewrite rev_involutive in E. contradiction.
  - rewrite skipn_app, skipn_all, Nat.sub_diag. cbn [app skipn].
    change (46 =? 46) with true. cbv iota. apply rev_involutive.
Qed.

Lemma stripExtension_without_dot (name : jsstring) :
  includes 46 name = false -> stripExtension name = name.
Proof.
  intros Hdot. unfold stripExtension. cbv zeta.
  destruct (takeWhile isExtensionChar (rev name)) as [|t ts] eqn:Et;
    [reflexivity|].
  destruct (skipn _ (rev name)) as [|dot stem] eqn:Es; [reflexivity|].
  destruct (N.eqb_spec dot 46) as [->|_]; [|reflexivity]. exfalso.
  assert (Hin : In 46 (rev name)).
  { rewrite <- (firstn_skipn (length (t :: ts)) (rev name)), Es.
    apply in_or_app. right. now left. }
  apply in_rev in Hin. unfold includes in Hdot.
  assert (Hex : existsb (N.eqb 46) name = true).
  { apply existsb_exists. exists 46. split; [exact Hin|apply N.eqb_refl]. }
  congruence.
Qed.

Module ExportNames.

(** X12. The file name of an export: when the name entered ends with a
    dot and an extension (not empty, without dot or slash), the extension
    is replaced, so that [packet.zw] exported as JSON is [packet.json],
    and exporting under a name that already went through the JSON export
    gives the same [.zw] name as the original; a name without any dot gets
    the extension appended. *)
Theorem export_name_replaces_extension (stem ext : jsstring) :
  ext <> [] -> forallb isExtensionChar ext = true ->
  jsonExportName (stem ++ u "." ++ ext) = stem ++ u ".json"
  /\ zwExportName (stem ++ u "." ++ ext) = stem ++ u ".zw"
  /\ zwExportName (jsonExportName (stem ++ u "." ++ ext))
     = zwExportName (stem ++ u "." ++ ext)
  /\ (includes 46 stem = false ->
      jsonExportName stem = stem ++ u ".json"
      /\ zwExportName stem = stem ++ u ".zw").
Proof.
  intros Hne Hext. unfold jsonExportName, zwExportName.
  rewrite (stripExtension_of_extension stem ext Hne Hext).
  split; [reflexivity|]. split; [reflexivity|]. split.
  - change (u ".json") with (u "." ++ u "json").
    now rewrite stripExtension_of_extension.
  - intros Hdot. now rewrite (stripExtension_without_dot stem Hdot).
Qed.

Lemma export_name_example :
  jsonExportName (u "my.packet.zw") = u "my.packet.json"
  /\ zwExportName (u "my.packet.json") = u "my.packet.zw".
Proof.
  split.
  - apply (export_name_replaces_extension (u "my.packet") (u "zw"));
      [discriminate|reflexivity].
  - apply (export_name_replaces_extension (u "my.packet") (u "json"));
      [discriminate|reflexivity].
Defined.

End ExportNames.

(** ** The header of an exported schema *)

Lemma isSemantic_comment (l : jsstring) :
  startsWith (u "#") l = true -> isSemantic l = false.
Proof.
  intros H. apply startsWith_true in H as [r ->]. change (u "#") with [35].
  cbn [app]. unfold isSemantic, trim, trimStart. cbn [dropWhile].
  change (isWhiteSpace 35) with false. cbv iota. rewrite trimEnd_cons.
  destruct (trimEnd r); reflexivity.
Qed.

Lemma comment_line_dropped (a rest : jsstring) :
  includes LF a = false -> isSemantic a = false ->
  semanticLines (a ++ LF :: rest) = semanticLines rest.
Proof.
  intros Hline Hsem. unfold semanticLines.
  rewrite (split_app_LF _ _ Hline). cbn [List.filter]. now rewrite Hsem.
Qed.

Lemma commentContinuation_dropped (t : jsstring) : forall pre rest,
  startsWith (u "#") pre = true -> includes LF pre = false ->
  semanticLines (pre ++ commentContinuation t ++ LF :: rest)
  = semanticLines rest.
Proof.
  induction t as [|c t IH]; intros pre rest Hpre Hline.
  - apply comment_line_dropped; [exact Hline|now apply isSemantic_comment].
  - unfold commentContinuation in *. cbn [flat_map].
    destruct (N.eqb_spec c LF) as [->|Hc].
    + rewrite <- !app_assoc. cbn [app].
      rewrite comment_line_dropped
        by (exact Hline || now apply isSemantic_comment).
      apply (IH (u "#   ")); reflexivity.
    + cbn [app]. change (pre ++ c :: ?x) with (pre ++ [c] ++ x).
      rewrite app_assoc. apply IH.
      * apply startsWith_true in Hpre as [r ->]. rewrite <- app_assoc.
        apply startsWith_app.
      * rewrite includes_app, Hline. unfold includes. cbn [existsb].
        apply N.eqb_neq in Hc. now rewrite N.eqb_sym, Hc.
Qed.

Lemma header_line_dropped (p t rest : jsstring) :
  startsWith (u "#") p = true -> includes LF p = false ->
  includes LF t = false ->
  semanticLines (p ++ t ++ [LF] ++ rest) = semanticLines rest.
Proof.
  intros Hp Hline Ht. rewrite app_assoc. apply comment_line_dropped.
  - now rewrite includes_app, Hline, Ht.
  - apply isSemantic_comment. apply startsWith_true in Hp as [r ->].
    rewrite <- app_assoc. apply startsWith_app.
Qed.

Module SchemaExport.

(** X13. In an entry of the schema export, the header (name, id and, when
    there is one, the natural-language origin) adds no semantic line to
    what follows it: every header line begins with the number sign, also
    the lines after the first of an origin that spans several lines, since
    each line feed of the origin is followed by a number sign.  This holds
    whenever the name and the id hold no line feed. *)
Theorem schemaHeader_is_comment_only (s : Schema) (rest : jsstring) :
  includes LF (schemaName s) = false -> includes LF (schemaId s) = false ->
  semanticLines (schemaHeader s ++ rest) = semanticLines rest
  /\ (forall others,
        semanticLines (exportAllSchemas (s :: others))
        = semanticLines
            (definition s ++ [LF] ++ u "///---END OF SCHEMA "
             ++ schemaName s ++ u "---" ++ [LF] ++ [LF]
             ++ exportAllSchemas others)).
Proof.
  intros Hname Hid.
  assert (Hheader : forall x,
            semanticLines (schemaHeader s ++ x) = semanticLines x).
  { intros x. unfold schemaHeader. rewrite <- !app_assoc.
    rewrite !header_line_dropped by (reflexivity || assumption).
    destruct (nlOrigin s) as [[|c origin]|]; try reflexivity.
    rewrite <- !app_assoc.
    now apply (commentContinuation_dropped (c :: origin) (u "# NL Origin: ")). }
  split; [apply Hheader|]. intros others.
  unfold exportAllSchemas. cbn [map concat]. fold (exportAllSchemas others).
  unfold schemaEntry. rewrite <- !app_assoc. apply Hheader.
Qed.

Lemma schemaHeader_example :
  semanticLines
    (schemaHeader (mkSchema (u "npc") (u "s-1")
                     (Some (doc ["first line"; "ROOT:"; "  k: v"]%string))
                     (u "ZW-NPC:"))
     ++ u "ZW-NPC:")
  = [u "ZW-NPC:"].
Proof.
  destruct (schemaHeader_is_comment_only
              (mkSchema (u "npc") (u "s-1")
                 (Some (doc ["first line"; "ROOT:"; "  k: v"]%string))
                 (u "ZW-NPC:")) (u "ZW-NPC:")) as [H _].
  - vm_compute; reflexivity.
  - vm_compute; reflexivity.
  - rewrite H. vm_compute; reflexivity.
Defined.

End SchemaExport.

(** ** Nested objects *)

Lemma JsonValue_nested_ind (P : JsonValue -> Prop) :
  P JNull -> (forall b, P (JBool b)) -> (forall z, P (JNumber z)) ->
  (forall text, P (JNumberPrinted text)) -> (forall s, P (JString s)) ->
  (forall items, Forall P items -> P (JArray items)) ->
  (forall props, Forall (fun kv => P (snd kv)) props -> P (JObject props)) ->
  forall v, P v.
Proof.
  intros HN HB HZ HT HS HA HO. fix IH 1. intros [|b|z|text|s|items|props].
  - exact HN.
  - apply HB.
  - apply HZ.
  - apply HT.
  - apply HS.
  - apply HA. revert items. fix IHitems 1. intros [|i items].
    + constructor.
    + constructor; [apply IH|apply IHitems].
  - apply HO. revert props. fix IHprops 1. intros [|[k v] props].
    + constructor.
    + constructor; [apply IH|apply IHprops].
Qed.

Section NestedFacts.

Variable engineRoundTrip : jsstring -> bool.

Lemma nestable_all (level : nat) (l : list (jsstring * JsonValue)) :
  (fix all (ps : list (jsstring * JsonValue)) : Prop :=
     match ps with
     | [] => True
     | (k, v) :: ps' =>
         isKey k /\ nestable engineRoundTrip (S level) v /\ all ps'
     end) l
  <-> nestableProps engineRoundTrip (S level) l.
Proof.
  unfold nestableProps. induction l as [|[k v] l IH].
  - split; [constructor|easy].
  - split.
    + intros (Hk & Hv & Hl). constructor; [now split|now apply IH].
    + intros H. inversion_clear H as [|? ? [Hk Hv] Hl]. cbn [fst snd] in *.
      split; [exact Hk|]. split; [exact Hv|now apply IH].
Qed.

Lemma nestable_object (level : nat) p ps :
  nestable engineRoundTrip level (JObject (p :: ps))
  <-> nestableProps engineRoundTrip (S level) (p :: ps).
Proof. exact (nestable_all level (p :: ps)). Qed.

Lemma nestable_flat (level : nat) (v : JsonValue) :
  nestable engineRoundTrip level v -> isNonEmptyContainer v = false ->
  plainText (convertValueToZw engineRoundTrip v level).
Proof.
  destruct v as [| | | | |[|i items]|[|p ps]]; try easy.
  intros _ _. apply numberToString_plain.
Qed.

(** *** What the serializer writes *)

Lemma join_terminated (ls : list jsstring) :
  ls <> [] -> join [LF] ls ++ [LF] = flat_map (fun l => l ++ [LF]) ls.
Proof.
  induction ls as [|l ls IH]; [easy|]. intros _.
  destruct ls as [|l' ls]; [cbn [join flat_map]; now rewrite app_nil_r|].
  change (join [LF] (l :: l' :: ls)) with (l ++ [LF] ++ join [LF] (l' :: ls)).
  cbn [flat_map] in *. rewrite <- IH by discriminate.
  now rewrite <- !app_assoc.
Qed.

Lemma linesOf_nonempty (level : nat) k v :
  linesOf engineRoundTrip level k v <> [].
Proof. destruct v as [| | | | |[|i items]|[|p ps]]; discriminate. Qed.

Lemma objectLines_nonempty (props : list (jsstring * JsonValue)) level fk :
  props <> [] ->
  objectLines (convertValueToZw engineRoundTrip) props level false fk <> [].
Proof.
  destruct props as [|[k v] props]; [easy|]. intros _. cbn [objectLines].
  destruct (isNonEmptyContainer v); discriminate.
Qed.

(** A non-empty list of scalars, written at [level]. *)
Lemma convertValueToZw_list (level : nat) i items :
  Forall (listable engineRoundTrip level) (i :: items) ->
  convertValueToZw engineRoundTrip (JArray (i :: items)) level
  = join [LF] (map (itemLine engineRoundTrip level) (i :: items)).
Proof.
  intros Hall. cbn [convertValueToZw]. f_equal.
  generalize (i :: items) Hall. clear i items Hall.
  induction 1 as [|x xs Hx _ IH]; [reflexivity|]. cbn [map]. rewrite IH.
  f_equal. unfold itemLine, levelIndent. rewrite Nat.add_1_r.
  now destruct x.
Qed.

Lemma objectLines_text_list (props : list (jsstring * JsonValue)) :
  Forall (fun kv => forall level k,
            nestable engineRoundTrip level (snd kv) ->
            flat_map (fun l => l ++ [LF])
              (if isNonEmptyContainer (snd kv)
               then [levelIndent level ++ formatZwKey k ++ u ":";
                     convertValueToZw engineRoundTrip (snd kv) (level + 1)]
               else [levelIndent level ++ formatZwKey k ++ u ": "
                     ++ convertValueToZw engineRoundTrip (snd kv) level])
            = flat_map (fun l => l ++ [LF])
                (linesOf engineRoundTrip level k (snd kv))) props ->
  forall level fk,
    nestableProps engineRoundTrip level props ->
    flat_map (fun l => l ++ [LF])
      (objectLines (convertValueToZw engineRoundTrip) props level false fk)
    = flat_map (fun l => l ++ [LF])
        (flat_map (fun kv => linesOf engineRoundTrip level (fst kv) (snd kv))
                  props).
Proof.
  induction 1 as [|[k v] props Hv _ IH]; intros level fk Hall; [reflexivity|].
  inversion_clear Hall as [|? ? [_ Hnest] Hrest]. cbn [fst snd] in *.
  cbn [objectLines flat_map andb]. rewrite !flat_map_app.
  rewrite (IH level false Hrest). f_equal. exact (Hv level k Hnest).
Qed.

Lemma objectLines_text (v : JsonValue) :
  forall level k,
    nestable engineRoundTrip level v ->
    flat_map (fun l => l ++ [LF])
      (if isNonEmptyContainer v
       then [levelIndent level ++ formatZwKey k ++ u ":";
             convertValueToZw engineRoundTrip v (level + 1)]
       else [levelIndent level ++ formatZwKey k ++ u ": "
             ++ convertValueToZw engineRoundTrip v level])
    = flat_map (fun l => l ++ [LF]) (linesOf engineRoundTrip level k v).
Proof.
  induction v as [|b|z|text|s|items _|props IH] using JsonValue_nested_ind;
    intros level k Hnest; try reflexivity.
  - destruct items as [|i items]; [reflexivity|].
    cbn [isNonEmptyContainer linesOf flat_map]. rewrite app_nil_r.
    f_equal. rewrite Nat.add_1_r, (convertValueToZw_list _ _ _ Hnest).
    now rewrite join_terminated by discriminate.
  - destruct props as [|p ps]; [reflexivity|].
    apply nestable_object in Hnest.
    cbn [isNonEmptyContainer linesOf flat_map]. rewrite app_nil_r.
    f_equal. cbn [convertValueToZw].
    rewrite join_terminated by (now apply objectLines_nonempty).
    rewrite Nat.add_1_r. now apply objectLines_text_list.
Qed.

Lemma convertObjectToZwItems_lines (props : list (jsstring * JsonValue))
    level :
  nestableProps engineRoundTrip level props ->
  convertObjectToZwItems engineRoundTrip props level false
  = join [LF]
      (flat_map (fun kv => linesOf engineRoundTrip level (fst kv) (snd kv))
                props).
Proof.
  intros Hall. destruct props as [|[k v] props]; [reflexivity|].
  unfold convertObjectToZwItems. apply (app_inv_tail [LF]).
  rewrite !join_terminated.
  - apply objectLines_text_list; [|exact Hall].
    apply Forall_forall. intros kv _ lv kk. apply objectLines_text.
  - cbn [flat_map fst snd]. intros E. apply app_eq_nil in E as [E _].
    now apply linesOf_nonempty in E.
  - now apply objectLines_nonempty.
Qed.

(** *** The lines, one by one *)

Lemma section_line_trim (n : nat) (k : jsstring) :
  isKey k -> trim (spaces n ++ k ++ u ":") = k ++ u ":".
Proof.
  intros [Hne Hk]. rewrite trim_blank_before by apply spaces_blank.
  destruct k as [|k0 k']; [contradiction|].
  cbn [forallb] in Hk. apply andb_prop in Hk as [Hk0 _].
  destruct (keyChar_facts _ Hk0) as (Hws & _).
  change (u ":") with [58]. cbn [app]. now apply trim_fixed.
Qed.

Lemma section_line_kept (n : nat) (k : jsstring) :
  isKey k -> keptLine (spaces n ++ k ++ u ":").
Proof.
  intros Hkey. pose proof Hkey as [Hne Hk]. split; [|split; [|split]].
  - rewrite !includes_app.
    assert (Hs : includes LF (spaces n) = false).
    { unfold includes, spaces. clear. induction n; [reflexivity|assumption]. }
    rewrite Hs, (includes_forallb isKeyChar LF k Hk) by reflexivity.
    reflexivity.
  - unfold isSemantic. rewrite section_line_trim by exact Hkey.
    destruct k as [|k0 k']; [contradiction|].
    cbn [forallb] in Hk. apply andb_prop in Hk as [Hk0 _].
    destruct (keyChar_facts _ Hk0) as (_ & Hhash & _).
    now apply semantic_unless_comment.
  - change (u ":") with [58]. rewrite !app_assoc.
    now apply trimEnd_fixed.
  - intros E. apply app_eq_nil in E as [_ E].
    apply app_eq_nil in E as [_ E]. discriminate E.
Qed.

Lemma section_line_object (n : nat) (k : jsstring) :
  isKey k ->
  getIndentation (spaces n ++ k ++ u ":") = n
  /\ lineObject (u ":") (spaces n ++ k ++ u ":")
     = Some (ONode k (VArray []) (lineDepth n) (Some (u ":")), true).
Proof.
  intros Hkey. pose proof Hkey as [Hne Hk].
  assert (Hindent : getIndentation (spaces n ++ k ++ u ":") = n).
  { destruct k as [|k0 k']; [contradiction|].
    cbn [forallb] in Hk. apply andb_prop in Hk as [Hk0 _].
    destruct (keyChar_facts _ Hk0) as (Hws & _).
    now apply getIndentation_spaces. }
  split; [exact Hindent|].
  unfold lineObject. rewrite section_line_trim, Hindent by exact Hkey.
  rewrite (key_is_not_list_marker k _ Hne Hk).
  now rewrite sectionMatch_key_delimiter.
Qed.

Lemma kv_line_kept (n : nat) (k v : jsstring) :
  isKey k -> plainText v -> keptLine (spaces n ++ k ++ u ": " ++ v).
Proof.
  intros Hkey Hplain. split; [|split; [|split]].
  - now apply kv_line_no_LF.
  - now apply kv_line_semantic.
  - now apply kv_line_trimEnd.
  - destruct Hplain as (Hv & _). intros E.
    apply app_eq_nil in E as [_ E]. apply app_eq_nil in E as [_ E].
    now apply app_eq_nil in E as [_ E].
Qed.

Lemma listable_text (level : nat) (item : JsonValue) :
  listable engineRoundTrip level item ->
  plainText (convertValueToZw engineRoundTrip item (S level))
  /\ includes 58 (convertValueToZw engineRoundTrip item (S level)) = false.
Proof.
  destruct item; try easy; try (now intros (_ & ? & ?)).
  intros _. apply numberToString_plain.
Qed.

Lemma item_line_trim (n : nat) (text : jsstring) :
  plainText text -> trim (spaces n ++ u "- " ++ text) = u "- " ++ text.
Proof.
  intros (Hne & Ht & _). destruct (trim_fixed_ends _ Ht) as [_ He].
  rewrite trim_blank_before by apply spaces_blank.
  unfold trim, trimStart. change (u "- ") with [45; 32]. cbn [app dropWhile].
  change (isWhiteSpace 45) with false. cbv iota.
  change (45 :: 32 :: text) with ([45; 32] ++ text).
  rewrite trimEnd_app_nonblank by (now rewrite He). now rewrite He.
Qed.

Lemma item_line_kept (level : nat) (item : JsonValue) :
  listable engineRoundTrip level item ->
  keptLine (itemLine engineRoundTrip level item).
Proof.
  intros Hitem. destruct (listable_text _ _ Hitem) as [Hplain _].
  unfold itemLine, levelIndent.
  set (text := convertValueToZw engineRoundTrip item (S level)) in *.
  set (n := (level * JSON_TO_ZW_INDENT_SPACES)%nat).
  pose proof Hplain as (Hne & Ht & Hlt).
  destruct (trim_fixed_ends _ Ht) as [_ He].
  split; [|split; [|split]].
  - rewrite !includes_app, (lineTerminator_LF _ Hlt).
    assert (Hs : includes LF (spaces n) = false).
    { unfold includes, spaces. clear. induction n; [reflexivity|assumption]. }
    now rewrite Hs.
  - unfold isSemantic. now rewrite item_line_trim.
  - rewrite !app_assoc, trimEnd_app_nonblank by (now rewrite He).
    now rewrite He.
  - intros E. apply app_eq_nil in E as [_ E].
    now apply app_eq_nil in E as [E _].
Qed.

Lemma linesOf_flat (level : nat) k (v : JsonValue) :
  isNonEmptyContainer v = false ->
  linesOf engineRoundTrip level k v
  = [levelIndent level ++ formatZwKey k ++ u ": "
     ++ convertValueToZw engineRoundTrip v level].
Proof. destruct v as [| | | | |[|i items]|[|p ps]]; easy. Qed.

Lemma treeOf_flat (level : nat) k (v : JsonValue) :
  isNonEmptyContainer v = false ->
  treeOf engineRoundTrip level k v
  = ChildNode (Node k (Scalar (convertValueToZw engineRoundTrip v level))
                    (levelDepth level) (Some (u ":"))).
Proof. destruct v as [| | | | |[|i items]|[|p ps]]; easy. Qed.

Lemma linesOf_kept (v : JsonValue) :
  forall level k,
    isKey k -> nestable engineRoundTrip level v ->
    Forall keptLine (linesOf engineRoundTrip level k v).
Proof.
  assert (Hflat : forall level k w,
            isKey k -> nestable engineRoundTrip level w ->
            isNonEmptyContainer w = false ->
            Forall keptLine (linesOf engineRoundTrip level k w)).
  { intros level k w Hkey Hnest Hw. rewrite (linesOf_flat _ _ _ Hw).
    constructor; [|constructor].
    apply kv_line_kept; [exact Hkey|now apply nestable_flat]. }
  induction v as [|b|z|text|s|items _|props IH] using JsonValue_nested_ind;
    intros level k Hkey Hnest; try (now apply Hflat).
  - destruct items as [|i items]; [now apply Hflat|]. cbn [linesOf].
    constructor; [now apply section_line_kept|].
    apply Forall_map. eapply List.Forall_impl; [|exact Hnest].
    intros x Hx. now apply item_line_kept.
  - destruct props as [|p ps]; [now apply Hflat|].
    apply nestable_object in Hnest. cbn [linesOf].
    constructor; [now apply section_line_kept|].
    apply Forall_flat_map. unfold nestableProps in Hnest.
    rewrite Forall_forall in IH, Hnest |- *. intros kv Hin.
    destruct (Hnest kv Hin) as [Hk Hv]. now apply IH.
Qed.

Lemma kept_lines (ls : list jsstring) :
  Forall keptLine ls -> semanticLines (trimEnd (join [LF] ls)) = ls.
Proof.
  intros Hall.
  assert (Hend : ls <> [] ->
            trimEnd (join [LF] ls) = join [LF] ls /\ join [LF] ls <> []).
  { induction Hall as [|l ls (_ & _ & Hl & Hne) _ IH]; [easy|]. intros _.
    destruct ls as [|l' ls]; [now split|].
    destruct (IH ltac:(discriminate)) as [Ht Hn].
    change (join [LF] (l :: l' :: ls))
      with (l ++ [LF] ++ join [LF] (l' :: ls)).
    split.
    - rewrite !app_assoc, trimEnd_app_nonblank by (now rewrite Ht).
      now rewrite Ht.
    - intros E. now apply app_eq_nil in E as [E _]. }
  destruct ls as [|l ls]; [reflexivity|].
  destruct (Hend ltac:(discriminate)) as [-> _]. unfold semanticLines.
  rewrite split_join.
  - apply forallb_filter_id. apply forallb_forall. intros x Hx.
    rewrite List.Forall_forall in Hall. now destruct (Hall x Hx) as (_ & ? & _).
  - discriminate.
  - eapply List.Forall_impl; [|exact Hall]. now intros x (? & _).
Qed.

End NestedFacts.

(** *** Levels and depths *)

Lemma levelDepth_eq (level : nat) :
  (levelDepth level == inject_Z (Z.max 1 (Z.of_nat level)))%Q.
Proof.
  unfold levelDepth, JSON_TO_ZW_INDENT_SPACES. rewrite Nat.mul_comm.
  rewrite lineDepth_even. unfold truncatedDepth.
  rewrite Nat2Z.inj_mul. simpl (Z.of_nat 2).
  now rewrite Z.mul_comm, Z.div_mul by discriminate.
Qed.

Lemma levelDepth_lt (level : nat) :
  (1 <= level)%nat -> (levelDepth level < levelDepth (S level))%Q.
Proof.
  intros H. rewrite !levelDepth_eq, <- Zlt_Qlt. lia.
Qed.

Lemma levelDepth_le (level : nat) :
  (levelDepth level <= levelDepth (S level))%Q.
Proof. rewrite !levelDepth_eq, <- Zle_Qle. lia. Qed.

(** *** A line under an open node *)

Lemma popStack_open st d p key dp dl below elems :
  openUnder st d p key dp dl below elems ->
  popStack (heap st) d (stack st) = Some (p :: below).
Proof.
  intros [(extra & -> & Hextra) [Hp Hlt] _].
  induction Hextra as [|r extra (k & v & d' & dl' & Hr & Hle) _ IH].
  - cbn [app popStack]. destruct below; [reflexivity|].
    rewrite Hp. apply Qgtb_true in Hlt. now rewrite Hlt.
  - cbn [app popStack]. destruct (extra ++ p :: below) eqn:E.
    + now destruct extra.
    + rewrite Hr. apply Qgtb_false in Hle. now rewrite Hle.
Qed.

Lemma processLine_under st p key dp dl below elems line child
    (pushed : bool) :
  openUnder st (lineDepth (getIndentation line)) p key dp dl below elems ->
  lineObject (u ":") line = Some (child, pushed) ->
  processLine (u ":") st line
  = Some (mkState
            (<[p := ONode key (VArray (elems ++ [length (heap st)])) dp dl]>
               (heap st ++ [child]))
            (if pushed then length (heap st) :: p :: below else p :: below)).
Proof.
  intros Hopen Hobj. rewrite processLine_by_object.
  rewrite (popStack_open _ _ _ _ _ _ _ _ Hopen). cbv zeta.
  destruct Hopen as [_ [Hp _] _].
  rewrite !(ensureArray_id _ _ _ elems Hp) by reflexivity.
  rewrite Hobj, (pushChild_spec _ _ _ elems child Hp) by reflexivity.
  reflexivity.
Qed.

Lemma push_facts (h : Heap) p key dp dl elems child :
  h !! p = Some (ONode key (VArray elems) dp dl) ->
  freshValue (objValue child) -> refsOk h ->
  let h' := <[p := ONode key (VArray (elems ++ [length h])) dp dl]>
              (h ++ [child]) in
  h' !! p = Some (ONode key (VArray (elems ++ [length h])) dp dl)
  /\ h' !! length h = Some child
  /\ (forall x, (x < length h)%nat -> x <> p -> h' !! x = h !! x)
  /\ length h' = S (length h)
  /\ refsOk h'.
Proof.
  intros Hp Hfresh Hok h'.
  pose proof (lookup_lt_Some _ _ _ Hp) as Hlt.
  assert (Hp' : (h ++ [child]) !! p
                = Some (ONode key (VArray elems) dp dl))
    by now apply lookup_app_l_Some.
  assert (Hlook : forall x, h' !! x =
            if decide (x = p)
            then Some (ONode key (VArray (elems ++ [length h])) dp dl)
            else (h ++ [child]) !! x).
  { intros x. exact (update_lookup _ _ _ (VArray (elems ++ [length h])) x Hp'). }
  split; [|split; [|split; [|split]]].
  - rewrite Hlook. now rewrite decide_True.
  - rewrite Hlook, decide_False by lia.
    rewrite lookup_app_r by lia. now rewrite Nat.sub_diag.
  - intros x Hx Hne. rewrite Hlook, decide_False by exact Hne.
    now apply lookup_app_l.
  - unfold h'. rewrite length_insert, length_app. simpl. lia.
  - apply (pushChild_refsOk h p _ elems child _ (length h) Hp eq_refl);
      [|exact Hfresh|exact Hok].
    now rewrite (pushChild_spec _ _ _ elems child Hp).
Qed.

(** *** Reading a part of the store that no longer changes *)

Lemma readAll_ext (rd rd' : ref -> option ZWChild) rs :
  (forall r, In r rs -> rd r = rd' r) -> readAll rd rs = readAll rd' rs.
Proof.
  induction rs as [|r rs IH]; intros H; [reflexivity|]. cbn [readAll].
  rewrite (H r) by now left. rewrite IH; [reflexivity|].
  intros x Hx. apply H. now right.
Qed.

Lemma readChild_frame (h h' : Heap) :
  refsOk h ->
  forall fuel r,
    (r < length h)%nat ->
    (forall x, (r <= x < length h)%nat -> h' !! x = h !! x) ->
    readChild fuel h' r = readChild fuel h r.
Proof.
  intros Hok. induction fuel as [|fuel IH]; intros r Hr Hsame; [reflexivity|].
  cbn [readChild]. rewrite (Hsame r) by lia.
  destruct (h !! r) as [o|] eqn:Ho; [|reflexivity].
  assert (Hval : readValue (readChild fuel h') (objValue o)
                 = readValue (readChild fuel h) (objValue o)).
  { destruct (objValue o) as [| |elems] eqn:Ev; try reflexivity.
    cbn [readValue]. f_equal. apply readAll_ext. intros c Hc.
    pose proof (Hok _ _ _ Ho Ev) as Hrange.
    rewrite List.Forall_forall in Hrange. specialize (Hrange c Hc).
    apply IH; [lia|]. intros x Hx. apply Hsame. lia. }
  destruct o; cbn [objValue] in Hval; now rewrite Hval.
Qed.

Lemma reads_frame (h h' : Heap) r t :
  refsOk h -> (length h <= length h')%nat ->
  (forall x, (r <= x < length h)%nat -> h' !! x = h !! x) ->
  reads h r t -> reads h' r t.
Proof.
  intros Hok Hlen Hsame Hread fuel Hfuel.
  assert (Hr : (r < length h)%nat).
  { specialize (Hread (S (length h)) ltac:(lia)). cbn [readChild] in Hread.
    destruct (h !! r) eqn:E; [|discriminate].
    now apply lookup_lt_Some in E. }
  rewrite (readChild_frame h h' Hok fuel r Hr Hsame).
  apply Hread. lia.
Qed.

Lemma reads_all (h : Heap) (rs : list ref) (ts : list ZWChild) fuel :
  Forall2 (reads h) rs ts ->
  Forall (fun r => (length h - r <= fuel)%nat) rs ->
  readAll (readChild fuel h) rs = Some ts.
Proof.
  induction 1 as [|r t rs ts Hr _ IH]; intros Hfuel; [reflexivity|].
  inversion_clear Hfuel as [|? ? Hf Hfs]. cbn [readAll].
  now rewrite (Hr fuel Hf), (IH Hfs).
Qed.

(** *** Children under an open node *)

Lemma processLines_app d (l1 l2 : list jsstring) : forall st,
  processLines d st (l1 ++ l2)
  = match processLines d st l1 with
    | Some st1 => processLines d st1 l2
    | None => None
    end.
Proof.
  induction l1 as [|l l1 IH]; intros st; [reflexivity|]. cbn [app processLines].
  destruct (processLine d st l); [apply IH|reflexivity].
Qed.

Lemma flat_map_single {A B} (f : A -> B) (xs : list A) :
  flat_map (fun x => [f x]) xs = map f xs.
Proof. induction xs as [|x xs IH]; [reflexivity|]. cbn. now rewrite IH. Qed.

(** A line that makes an object which is not pushed: a leaf or a list
    item. *)
Lemma attaches_line (line : jsstring) (child : Obj) (tree : ZWChild) :
  lineObject (u ":") line = Some (child, false) ->
  (exists s, objValue child = VString s) ->
  (forall (h : Heap) r fuel, h !! r = Some child ->
     readChild (S fuel) h r = Some tree) ->
  attaches (lineDepth (getIndentation line)) [line] tree.
Proof.
  intros Hobj Hstring Htree st p key dp dl below elems Hopen.
  cbn [processLines].
  rewrite (processLine_under _ _ _ _ _ _ _ _ _ _ Hopen Hobj).
  destruct Hopen as [_ [Hp Hlt] Hok].
  destruct (push_facts (heap st) p key dp dl elems child Hp
              ltac:(now right) Hok)
    as (Hp' & Hn' & Hframe & Hlen & Hok').
  eexists. split; [reflexivity|]. cbn [heap stack].
  split; [|split; [|split]].
  - constructor; cbn [heap stack].
    + exists []. split; [reflexivity|constructor].
    + split; [exact Hp'|exact Hlt].
    + exact Hok'.
  - intros fuel Hfuel. rewrite Hlen in Hfuel.
    destruct fuel as [|fuel]; [lia|]. now apply Htree.
  - rewrite Hlen. lia.
  - exact Hframe.
Qed.

(** Children attached one after the other. *)
Lemma attaches_list {A} (d : Q) (linesOfA : A -> list jsstring)
    (treeOfA : A -> ZWChild) (xs : list A) :
  Forall (fun x => attaches d (linesOfA x) (treeOfA x)) xs ->
  attachesAll d (flat_map linesOfA xs) (map treeOfA xs).
Proof.
  induction 1 as [|a xs Ha _ IH]; intros st p key dp dl below elems Hopen.
  - exists st, []. rewrite app_nil_r. cbn [flat_map processLines map].
    repeat split; try constructor; try assumption; try apply Hopen.
  - destruct (Ha st p key dp dl below elems Hopen)
      as (st1 & Hrun1 & Hopen1 & Hread1 & Hlen1 & Hframe1).
    destruct (IH st1 p key dp dl below _ Hopen1)
      as (st2 & news & Hrun2 & Hopen2 & Hreads2 & Hrange2 & Hlen2 & Hframe2).
    assert (Hp : (p < length (heap st))%nat).
    { destruct Hopen as [_ [Hp _] _]. now apply lookup_lt_Some in Hp. }
    exists st2, (length (heap st) :: news).
    cbn [flat_map map]. rewrite processLines_app, Hrun1.
    split; [exact Hrun2|]. split.
    { now rewrite <- app_assoc in Hopen2. }
    split; [|split; [|split]].
    + constructor; [|exact Hreads2].
      apply (reads_frame (heap st1)); [apply Hopen1|exact Hlen2| |exact Hread1].
      intros y Hy. apply Hframe2; lia.
    + constructor; [lia|].
      eapply List.Forall_impl; [|exact Hrange2]. cbv beta. intros r Hr. lia.
    + lia.
    + intros y Hy Hne. rewrite Hframe2 by (lia || exact Hne).
      now apply Hframe1.
Qed.

(** A section line and the lines of its children. *)
Lemma attaches_section (level : nat) (k : jsstring)
    (childLines : list jsstring) (childTrees : list ZWChild) :
  (1 <= level)%nat -> isKey k ->
  attachesAll (levelDepth (S level)) childLines childTrees ->
  attaches (levelDepth level)
    ((levelIndent level ++ formatZwKey k ++ u ":") :: childLines)
    (ChildNode (Node k (Children childTrees) (levelDepth level)
                     (Some (u ":")))).
Proof.
  intros Hlevel Hkey Hchildren st p key dp dl below elems Hopen.
  cbn [processLines]. unfold formatZwKey, levelIndent.
  set (n := (level * JSON_TO_ZW_INDENT_SPACES)%nat).
  destruct (section_line_object n k Hkey) as [Hindent Hobj].
  assert (Hopen' : openUnder st
            (lineDepth (getIndentation (spaces n ++ k ++ u ":")))
            p key dp dl below elems) by now rewrite Hindent.
  rewrite (processLine_under _ _ _ _ _ _ _ _ _ _ Hopen' Hobj).
  pose proof Hopen as [_ [Hp Hlt] Hok].
  destruct (push_facts (heap st) p key dp dl elems
              (ONode k (VArray []) (lineDepth n) (Some (u ":")))
              Hp ltac:(now left) Hok)
    as (Hp' & Hn' & Hframe & Hlen & Hok').
  pose proof (lookup_lt_Some _ _ _ Hp) as Hplt.
  set (h1 := <[p := ONode key (VArray (elems ++ [length (heap st)])) dp dl]>
               (heap st ++ [ONode k (VArray []) (lineDepth n)
                                  (Some (u ":"))])) in *.
  assert (Hopen1 : openUnder
            (mkState h1 (length (heap st) :: p :: below))
            (levelDepth (S level)) (length (heap st)) k (levelDepth level)
            (Some (u ":")) (p :: below) []).
  { constructor; cbn [heap stack].
    - exists []. split; [reflexivity|constructor].
    - split; [exact Hn'|now apply levelDepth_lt].
    - exact Hok'. }
  destruct (Hchildren _ _ _ _ _ _ _ Hopen1)
    as (st2 & news & Hrun2 & Hopen2 & Hreads2 & Hrange2 & Hlen2 & Hframe2).
  cbn [heap stack app] in *.
  exists st2. split; [exact Hrun2|].
  pose proof Hopen2 as [(extra2 & Hstack2 & Hextra2) [Hn2 _] Hok2].
  split; [|split; [|split]].
  - constructor.
    + exists (extra2 ++ [length (heap st)]).
      split; [now rewrite <- app_assoc|].
      apply Forall_app. split.
      * eapply List.Forall_impl; [|exact Hextra2]. cbv beta.
        intros r (k' & v' & d' & dl' & Hr & Hd).
        exists k', v', d', dl'. split; [exact Hr|].
        eapply Qle_trans; [apply levelDepth_le|exact Hd].
      * constructor; [|constructor].
        eexists _, _, _, _. split; [exact Hn2|apply Qle_refl].
    + split; [|exact Hlt].
      rewrite Hframe2 by (rewrite ?Hlen; lia). exact Hp'.
    + exact Hok2.
  - intros fuel Hfuel. destruct fuel as [|fuel]; [lia|].
    cbn [readChild]. rewrite Hn2. cbn [readValue].
    rewrite (reads_all _ _ _ fuel Hreads2); [reflexivity|].
    eapply List.Forall_impl; [|exact Hrange2]. cbv beta.
    intros r Hr. rewrite Hlen in Hr. lia.
  - lia.
  - intros x Hx Hne. rewrite Hframe2 by (rewrite ?Hlen; lia).
    now apply Hframe.
Qed.

(** *** The lines of a list item *)

Lemma includes_skipn (c : N) (t : jsstring) (n : nat) :
  includes c t = false -> includes c (skipn n t) = false.
Proof.
  unfold includes. revert n. induction t as [|x t IH]; intros [|n] H;
    try reflexivity; try exact H.
  cbn [skipn]. cbn [existsb] in H. apply orb_false_elim in H as [_ H].
  now apply IH.
Qed.

(** A text without colon is no key and value. *)
Lemma keyValueMatch_without_colon (t : jsstring) :
  includes 58 t = false -> keyValueMatch (u ":") t = None.
Proof.
  intros Ht. unfold keyValueMatch. generalize (keyRun t).
  induction n as [|n IH]; [reflexivity|]. cbn [matchKeyed]. rewrite IH.
  pose proof (includes_skipn 58 t (S n) Ht) as Hs.
  destruct (skipn (S n) t) as [|c r]; [reflexivity|].
  unfold includes in Hs. cbn [existsb] in Hs.
  apply orb_false_elim in Hs as [Hc _].
  change (u ":") with [58]. cbn [startsWith]. now rewrite Hc.
Qed.

Lemma item_line_object (n : nat) (text : jsstring) :
  plainText text -> includes 58 text = false ->
  getIndentation (spaces n ++ u "- " ++ text) = n
  /\ lineObject (u ":") (spaces n ++ u "- " ++ text)
     = Some (OItem (VString text) None None (lineDepth n) (u ":"), false).
Proof.
  intros Hplain Hcolon.
  assert (Hindent : getIndentation (spaces n ++ u "- " ++ text) = n)
    by now apply getIndentation_spaces.
  split; [exact Hindent|]. unfold lineObject.
  rewrite Hindent, (item_line_trim n text Hplain), startsWith_app.
  change (substringFrom 2 (u "- " ++ text)) with text.
  destruct Hplain as (_ & -> & _).
  now rewrite (keyValueMatch_without_colon text Hcolon).
Qed.

Section NestedParsing.

Variable engineRoundTrip : jsstring -> bool.

Lemma attaches_flat (v : JsonValue) :
  isNonEmptyContainer v = false -> attachesProperty engineRoundTrip v.
Proof.
  intros Hflat level k Hlevel Hkey Hnest.
  pose proof (nestable_flat _ _ _ Hnest Hflat) as Hplain.
  rewrite (linesOf_flat _ _ _ _ Hflat), (treeOf_flat _ _ _ _ Hflat).
  unfold formatZwKey, levelIndent, levelDepth.
  set (text := convertValueToZw engineRoundTrip v level) in *.
  set (n := (level * JSON_TO_ZW_INDENT_SPACES)%nat).
  rewrite <- (kv_line_indent n k text Hkey Hplain) at 1.
  apply (attaches_line _ _ _ (kv_line_object n k text Hkey Hplain)).
  - now eexists.
  - intros h r fuel Hr. cbn [readChild]. now rewrite Hr.
Qed.

Lemma attaches_item (level : nat) (item : JsonValue) :
  listable engineRoundTrip level item ->
  attaches (levelDepth level) [itemLine engineRoundTrip level item]
           (itemTree engineRoundTrip level item).
Proof.
  intros Hitem. destruct (listable_text _ _ _ Hitem) as [Hplain Hcolon].
  unfold itemLine, itemTree, levelIndent, levelDepth.
  set (text := convertValueToZw engineRoundTrip item (S level)) in *.
  set (n := (level * JSON_TO_ZW_INDENT_SPACES)%nat).
  destruct (item_line_object n text Hplain Hcolon) as [Hindent Hobj].
  rewrite <- Hindent at 1. apply (attaches_line _ _ _ Hobj).
  - now eexists.
  - intros h r fuel Hr. cbn [readChild]. now rewrite Hr.
Qed.

Lemma attaches_property (v : JsonValue) : attachesProperty engineRoundTrip v.
Proof.
  induction v as [|b|z|text|s|items _|props IH] using JsonValue_nested_ind;
    try (now apply attaches_flat).
  - destruct items as [|i items]; [now apply attaches_flat|].
    intros level k Hlevel Hkey Hnest. cbn [linesOf treeOf].
    apply attaches_section; [exact Hlevel|exact Hkey|].
    rewrite <- (flat_map_single (itemLine engineRoundTrip (S level))).
    apply (attaches_list (levelDepth (S level))
             (fun x => [itemLine engineRoundTrip (S level) x])
             (itemTree engineRoundTrip (S level))).
    eapply List.Forall_impl; [|exact Hnest].
    intros x Hx. now apply attaches_item.
  - destruct props as [|q qs]; [now apply attaches_flat|].
    intros level k Hlevel Hkey Hnest. apply nestable_object in Hnest.
    cbn [linesOf treeOf].
    apply attaches_section; [exact Hlevel|exact Hkey|].
    apply (attaches_list (levelDepth (S level))
             (fun kv => linesOf engineRoundTrip (S level) (fst kv) (snd kv))
             (fun kv => treeOf engineRoundTrip (S level) (fst kv) (snd kv))).
    unfold nestableProps in Hnest.
    rewrite List.Forall_forall in IH, Hnest |- *. intros kv Hin.
    destruct (Hnest kv Hin) as [Hk Hv]. apply (IH kv Hin); [lia|exact Hk|exact Hv].
Qed.

(** The properties of an object, at the first level. *)
Lemma attaches_props (props : list (jsstring * JsonValue)) (level : nat) :
  (1 <= level)%nat -> nestableProps engineRoundTrip level props ->
  attachesAll (levelDepth level)
    (flat_map (fun kv => linesOf engineRoundTrip level (fst kv) (snd kv))
              props)
    (map (fun kv => treeOf engineRoundTrip level (fst kv) (snd kv)) props).
Proof.
  intros Hlevel Hall. apply attaches_list. unfold nestableProps in Hall.
  eapply List.Forall_impl; [|exact Hall]. cbv beta.
  intros kv [Hk Hv]. now apply attaches_property.
Qed.

End NestedParsing.

(** The tree of a document made of a root declaration and lines that
    attach children to the root. *)
Lemma parseTree_attached (T : jsstring) (d : Q) (lines : list jsstring)
    (trees : list ZWChild) :
  T <> [] -> forallb isRootKeyChar T = true -> (0 < d)%Q ->
  Forall keptLine lines -> attachesAll d lines trees ->
  parseTree (T ++ u ":" ++ LF :: join [LF] lines) None
  = Some (Some (Node T (Children trees) 0 (Some (u ":")))).
Proof.
  intros Hne HT Hd Hkept Hattach. unfold parseTree.
  rewrite parseZW_by_lines, (semanticLines_rooted _ _ Hne HT).
  assert (Hroot : rootLineMatch (T ++ u ":") = Some T).
  { apply rootLineMatch_Some. split; [exact Hne|]. split; [exact HT|].
    exists []. split; reflexivity. }
  rewrite Hroot, (kept_lines _ Hkept).
  change (effectiveDelimiterOf None) with (u ":").
  assert (Hopen : openUnder (initialState T (u ":")) d 0%nat T 0
                            (Some (u ":")) [] []).
  { constructor; cbn [heap stack initialState].
    - exists []. split; [reflexivity|constructor].
    - split; [reflexivity|exact Hd].
    - apply (wf_refs _ _ _ (initialState_wf T (u ":"))). }
  destruct (Hattach _ _ _ _ _ _ _ Hopen)
    as (st & news & -> & Hopen' & Hreads & Hrange & Hlen & _).
  cbn [heap initialState length app] in *.
  destruct Hopen' as [_ [Hp _] _]. unfold readNode.
  destruct (length (heap st)) as [|m] eqn:Em; [lia|].
  cbn [readChild]. rewrite Hp. cbn [readValue].
  rewrite (reads_all _ _ _ m Hreads); [reflexivity|].
  eapply List.Forall_impl; [|exact Hrange]. cbv beta. intros r Hr. lia.
Qed.

Section NestedRoundTrip.

Variable engineRoundTrip : jsstring -> bool.

(** The tree an object comes back as, under a root type. *)
Lemma parseTree_nested (T : jsstring) (props : list (jsstring * JsonValue)) :
  T <> [] -> forallb isRootKeyChar T = true ->
  nestableProps engineRoundTrip 1 props ->
  parseTree (T ++ u ":" ++ LF ::
               convertObjectToZwItems engineRoundTrip props 1 false) None
  = Some (Some (Node T
                  (Children
                     (map (fun kv => treeOf engineRoundTrip 1 (fst kv) (snd kv))
                          props))
                  0 (Some (u ":")))).
Proof.
  intros Hne HT Hall. rewrite (convertObjectToZwItems_lines _ _ _ Hall).
  apply (parseTree_attached T (levelDepth 1)); try assumption.
  - apply lineDepth_pos.
  - apply Forall_flat_map. unfold nestableProps in Hall.
    eapply List.Forall_impl; [|exact Hall]. cbv beta.
    intros kv [Hk Hv]. now apply linesOf_kept.
  - now apply attaches_props.
Qed.

(** A list of scalars as the root, at the level the root type decides. *)
Lemma parseTree_list (T : jsstring) (level : nat) i items :
  T <> [] -> forallb isRootKeyChar T = true ->
  Forall (listable engineRoundTrip level) (i :: items) ->
  parseTree (T ++ u ":" ++ LF ::
               convertValueToZw engineRoundTrip (JArray (i :: items)) level)
            None
  = Some (Some (Node T
                  (Children (map (itemTree engineRoundTrip level)
                                 (i :: items)))
                  0 (Some (u ":")))).
Proof.
  intros Hne HT Hall. rewrite (convertValueToZw_list _ _ _ _ Hall).
  apply (parseTree_attached T (levelDepth level)); try assumption.
  - apply lineDepth_pos.
  - apply Forall_map. eapply List.Forall_impl; [|exact Hall].
    intros x Hx. now apply item_line_kept.
  - rewrite <- (flat_map_single (itemLine engineRoundTrip level)).
    apply (attaches_list (levelDepth level)
             (fun x => [itemLine engineRoundTrip level x])
             (itemTree engineRoundTrip level)).
    eapply List.Forall_impl; [|exact Hall].
    intros x Hx. now apply attaches_item.
Qed.

(** A scalar as the root: the line [ROOT_VALUE], indented or not. *)
Lemma parseTree_primitive (T : jsstring) (level : nat) (text : jsstring) :
  T <> [] -> forallb isRootKeyChar T = true -> plainText text ->
  parseTree (T ++ u ":" ++ LF ::
               levelIndent level ++ u "ROOT_VALUE: " ++ text) None
  = Some (Some (Node T
                  (Children [ChildNode (Node (u "ROOT_VALUE") (Scalar text)
                                             (levelDepth level)
                                             (Some (u ":")))])
                  0 (Some (u ":")))).
Proof.
  intros Hne HT Hplain.
  assert (Hkey : isKey (u "ROOT_VALUE")) by (split; [discriminate|reflexivity]).
  change (levelIndent level ++ u "ROOT_VALUE: " ++ text)
    with (join [LF] [spaces (level * JSON_TO_ZW_INDENT_SPACES)
                     ++ u "ROOT_VALUE" ++ u ": " ++ text]).
  apply (parseTree_attached T (levelDepth level)); try assumption.
  - apply lineDepth_pos.
  - constructor; [now apply kv_line_kept|constructor].
  - pose proof (attaches_list (levelDepth level)
                  (fun _ : unit =>
                     [spaces (level * JSON_TO_ZW_INDENT_SPACES)
                      ++ u "ROOT_VALUE" ++ u ": " ++ text])
                  (fun _ => ChildNode (Node (u "ROOT_VALUE") (Scalar text)
                                            (levelDepth level)
                                            (Some (u ":"))))
                  [tt]) as Hone.
    cbn [flat_map map app] in Hone. apply Hone. constructor; [|constructor].
    unfold levelDepth at 1.
    rewrite <- (kv_line_indent (level * JSON_TO_ZW_INDENT_SPACES)
                  (u "ROOT_VALUE") text Hkey Hplain) at 1.
    apply (attaches_line _ _ _ (kv_line_object _ _ _ Hkey Hplain)).
    + now eexists.
    + intros h r fuel Hr. cbn [readChild]. now rewrite Hr.
Qed.

End NestedRoundTrip.

Module NestedRoundTrips.

(** X10. Round trip of nested objects.  Take a JSON object in which, at
    every level, the keys are identifiers and each value is a non-empty
    object of the same kind, a non-empty list of scalars, or a value
    written on one line (a text that is not empty, has no white space at
    its ends and no line terminator; in a list, no colon either).  With a
    root type that is an identifier, [parseZW] reads the output of
    [convertJsonToZwString] as the tree of the object: the root, keyed by
    the trimmed root type, and below it, level by level, one node for each
    property, in the order of the properties, with the key of the property
    and, for an object, the nodes of its properties as children, for a list
    one list item for each element, otherwise the text of the value; a
    property at level [n] has the depth of an indentation of [2 n] spaces,
    which is [n].  Booleans, [null] and the empty array are such values;
    so is every number: a safe integer (magnitude below [2^53]) comes back
    as its decimal numeral, and any other number as the text [String]
    prints for it (digits, sign, point, exponent).  So is every string
    that is not empty, not ambiguous, without white space at its ends and
    without line terminator: it comes back as the very same string. *)
Theorem nested_object_round_trip
    (JSON_parse : jsstring -> JsonValue + jsstring)
    (engineRoundTrip : jsstring -> bool)
    (jsonString rootZwType : jsstring)
    (props : list (jsstring * JsonValue)) :
  JSON_parse jsonString = inl (JObject props) ->
  trim rootZwType <> [] -> forallb isRootKeyChar (trim rootZwType) = true ->
  nestableProps engineRoundTrip 1 props ->
  parseTree (convertJsonToZwString JSON_parse engineRoundTrip jsonString
               (Some rootZwType)) None
  = Some (Some (Node (trim rootZwType)
                  (Children
                     (map (fun kv => treeOf engineRoundTrip 1 (fst kv) (snd kv))
                          props))
                  0 (Some (u ":"))))
  /\ (forall level b,
        Forall (fun v => nestable engineRoundTrip level v
                         /\ listable engineRoundTrip level v)
               [JBool b; JNull; JArray []])
  /\ (forall level z,
        isSafeInteger z = true ->
        nestable engineRoundTrip level (JNumber z)
        /\ listable engineRoundTrip level (JNumber z)
        /\ (forall k,
              treeOf engineRoundTrip level k (JNumber z)
              = ChildNode (Node k (Scalar (numberToString z))
                                (levelDepth level) (Some (u ":"))))
        /\ itemTree engineRoundTrip level (JNumber z)
           = ChildItem (Item (Scalar (numberToString z)) None None
                             (levelDepth level) (u ":")))
  /\ (forall level text,
        text <> [] -> forallb isNumberTextChar text = true ->
        nestable engineRoundTrip level (JNumberPrinted text)
        /\ listable engineRoundTrip level (JNumberPrinted text)
        /\ (forall k,
              treeOf engineRoundTrip level k (JNumberPrinted text)
              = ChildNode (Node k (Scalar text) (levelDepth level)
                                (Some (u ":"))))
        /\ itemTree engineRoundTrip level (JNumberPrinted text)
           = ChildItem (Item (Scalar text) None None (levelDepth level)
                             (u ":")))
  /\ (forall level s,
        plainText s -> isPotentiallyAmbiguous engineRoundTrip s = false ->
        nestable engineRoundTrip level (JString s)
        /\ (forall k,
              treeOf engineRoundTrip level k (JString s)
              = ChildNode (Node k (Scalar s) (levelDepth level)
                                (Some (u ":"))))
        /\ (includes 58 s = false ->
            listable engineRoundTrip level (JString s)
            /\ itemTree engineRoundTrip level (JString s)
               = ChildItem (Item (Scalar s) None None (levelDepth level)
                                 (u ":"))))
  /\ (forall level, (1 <= level)%nat ->
        (levelDepth level == inject_Z (Z.of_nat level))%Q).
Proof.
  intros Hjson Hne HT Hall. split; [|split; [|split; [|split; [|split]]]].
  - unfold convertJsonToZwString. rewrite Hjson.
    rewrite (convertParsedJson_rooted engineRoundTrip _ _ Hne HT).
    now apply parseTree_nested.
  - intros level b.
    constructor; [|constructor; [|constructor; [|constructor]]].
    + split; destruct b; repeat split; discriminate.
    + repeat split; discriminate.
    + repeat split; discriminate.
  - intros level z Hz. repeat split; exact Hz.
  - intros level text Hne' Htext.
    destruct (numberText_plain text Hne' Htext) as [Hplain Hcolon].
    split; [exact Hplain|]. split; [|split; reflexivity].
    split; [reflexivity|]. now split.
  - intros level s Hs Hamb.
    assert (Hplain : forall l,
              convertValueToZw engineRoundTrip (JString s) l = s).
    { intros l. cbn [convertValueToZw]. destruct Hs as (Hn & _ & Hlt).
      apply convertStringToZw_plain; try assumption.
      now apply lineTerminator_LF. }
    split; [|split].
    + change (plainText (convertValueToZw engineRoundTrip (JString s) level)).
      now rewrite Hplain.
    + intros k. rewrite treeOf_flat by reflexivity. now rewrite Hplain.
    + intros Hcolon. split.
      * split; [reflexivity|]. rewrite Hplain. now split.
      * unfold itemTree. now rewrite Hplain.
  - intros level Hlevel. rewrite levelDepth_eq. now rewrite Z.max_r by lia.
Qed.

Lemma nested_object_example :
  parseTree
    (convertJsonToZwString
       (parsesOnly objectText
          (JObject [(u "a", JNumber 1);
                    (u "npc", JObject [(u "name", JString (u "two words"));
                                       (u "pos", JObject [(u "x", JNumber 3)]);
                                       (u "tags", JArray [JString (u "red");
                                                          JNumber 7])]);
                    (u "d", JArray []);
                    (u "r", JNumberPrinted (u "1.5"))])
          (u "Unexpected end of JSON input"))
       (fun _ => false) objectText (Some (u "ZW-TEST"))) None
  = Some (Some (Node (u "ZW-TEST")
      (Children
         [ChildNode (Node (u "a") (Scalar (u "1")) 1 (Some (u ":")));
          ChildNode (Node (u "npc")
            (Children
               [ChildNode (Node (u "name") (Scalar (u "two words")) 2
                                (Some (u ":")));
                ChildNode (Node (u "pos")
                  (Children [ChildNode (Node (u "x") (Scalar (u "3")) 3
                                             (Some (u ":")))])
                  2 (Some (u ":")));
                ChildNode (Node (u "tags")
                  (Children [ChildItem (Item (Scalar (u "red")) None None 3
                                             (u ":"));
                             ChildItem (Item (Scalar (u "7")) None None 3
                                             (u ":"))])
                  2 (Some (u ":")))])
            1 (Some (u ":")));
          ChildNode (Node (u "d") (Scalar (u "[] # Empty list")) 1
                          (Some (u ":")));
          ChildNode (Node (u "r") (Scalar (u "1.5")) 1 (Some (u ":")))])
      0 (Some (u ":")))).
Proof.
  destruct (nested_object_round_trip
              (parsesOnly objectText
                 (JObject [(u "a", JNumber 1);
                           (u "npc",
                            JObject [(u "name", JString (u "two words"));
                                     (u "pos", JObject [(u "x", JNumber 3)]);
                                     (u "tags", JArray [JString (u "red");
                                                        JNumber 7])]);
                           (u "d", JArray []);
                           (u "r", JNumberPrinted (u "1.5"))])
                 (u "Unexpected end of JSON input"))
              (fun _ => false) objectText (u "ZW-TEST")
              [(u "a", JNumber 1);
               (u "npc", JObject [(u "name", JString (u "two words"));
                                  (u "pos", JObject [(u "x", JNumber 3)]);
                                  (u "tags", JArray [JString (u "red");
                                                     JNumber 7])]);
               (u "d", JArray []);
               (u "r", JNumberPrinted (u "1.5"))]) as [H _].
  - vm_compute; reflexivity.
  - vm_compute; discriminate.
  - vm_compute; reflexivity.
  - repeat constructor; try discriminate; vm_compute; reflexivity.
  - rewrite H. vm_compute; reflexivity.
Defined.

End NestedRoundTrips.

(** ** Indentation counts through the depth only *)

Lemma appendToLastChild_rest (h : Heap) p (w rest : jsstring) :
  appendToLastChild h p (w ++ rest) (length w)
  = appendToLastChild h p rest 0.
Proof.
  unfold appendToLastChild, substringFrom.
  now rewrite skipn_app, skipn_all, Nat.sub_diag.
Qed.

Module ShallowIndentation.

(** X14. What [parseZW] does with a line depends on its indentation
    through the depth only: two lines with the same text after the
    leading white space, whose indentations give the same depth, change the
    state in the same way, continuation lines included (the appended text
    is the line without its leading white space).  Indentations of 0, 1
    and 2 characters all give depth 1, so a line that is not indented at
    all is read exactly as if it were indented by two spaces, and a tab,
    which counts for one character, as well. *)
Theorem processLine_depends_on_depth (effectiveDelimiter : jsstring)
    (st : State) (w w' rest : jsstring) :
  forallb isWhiteSpace w = true -> forallb isWhiteSpace w' = true ->
  stopsRun isWhiteSpace rest ->
  lineDepth (length w) = lineDepth (length w') ->
  processLine effectiveDelimiter st (w ++ rest)
  = processLine effectiveDelimiter st (w' ++ rest)
  /\ (forall n, (n <= 2)%nat -> lineDepth n = 1%Q).
Proof.
  intros Hw Hw' Hrest Hdepth. split.
  - assert (Hline : forall x, forallb isWhiteSpace x = true ->
              processLine effectiveDelimiter st (x ++ rest)
              = match popStack (heap st) (lineDepth (length x)) (stack st) with
                | Some ((parentNode :: _) as stk) =>
                    let h := ensureArray (ensureArray (heap st) parentNode)
                                         parentNode in
                    match lineObject effectiveDelimiter (x ++ rest) with
                    | Some (child, pushed) =>
                        match pushChild h parentNode child with
                        | Some (h', r) =>
                            Some (mkState h'
                                    (if pushed : bool then r :: stk else stk))
                        | None => None
                        end
                    | None =>
                        match trim rest with
                        | _ :: _ =>
                            match appendToLastChild h parentNode rest 0 with
                            | Some h' => Some (mkState h' stk)
                            | None => None
                            end
                        | [] => Some (mkState h stk)
                        end
                    end
                | _ => None
                end).
    { intros x Hx. rewrite processLine_by_object.
      assert (Hindent : getIndentation (x ++ rest) = length x).
      { unfold getIndentation. now rewrite takeWhile_app_stop. }
      rewrite Hindent, (trim_blank_before x rest Hx).
      destruct (popStack _ _ _) as [[|parentNode below]|]; try reflexivity.
      cbv zeta. now rewrite appendToLastChild_rest. }
    assert (Hobj : forall x, forallb isWhiteSpace x = true ->
              lineObject effectiveDelimiter (x ++ rest)
              = match lineObject effectiveDelimiter rest with
                | Some (child, pushed) =>
                    Some (match child with
                          | ONode k v _ dl =>
                              ONode k v (lineDepth (length x)) dl
                          | OItem v kv ik _ dl =>
                              OItem v kv ik (lineDepth (length x)) dl
                          end, pushed)
                | None => None
                end).
    { intros x Hx. unfold lineObject.
      assert (Hindent : getIndentation (x ++ rest) = length x).
      { unfold getIndentation. now rewrite takeWhile_app_stop. }
      rewrite Hindent, (trim_blank_before x rest Hx). cbv zeta.
      destruct (startsWith (u "- ") (trim rest)).
      - now destruct (keyValueMatch _ _) as [[k v]|].
      - destruct (sectionMatch _ _) as [k|]; [reflexivity|].
        now destruct (keyValueMatch _ _) as [[k v]|]. }
    rewrite (Hline w Hw), (Hline w' Hw'), (Hobj w Hw), (Hobj w' Hw').
    now rewrite Hdepth.
  - intros [|[|[|n]]] Hn; try reflexivity. lia.
Qed.

Lemma unindented_line_example :
  processLine (u ":") (initialState (u "ROOT") (u ":")) (u "a: 1")
  = processLine (u ":") (initialState (u "ROOT") (u ":")) (u "  a: 1").
Proof.
  apply (processLine_depends_on_depth (u ":")
           (initialState (u "ROOT") (u ":")) [] (u "  ") (u "a: 1"));
    reflexivity.
Defined.

End ShallowIndentation.

(** ** Lists and scalars as the root *)

Lemma convertParsedJson_unrooted (engineRoundTrip : jsstring -> bool)
    (parsedJson : JsonValue) :
  convertParsedJson engineRoundTrip parsedJson None
  = match parsedJson with
    | JObject props => convertObjectToZwItems engineRoundTrip props 0 false
    | JArray _ =>
        u "JSON_ARRAY_ROOT" ++ u ":" ++ LF ::
          convertValueToZw engineRoundTrip parsedJson 0
    | _ =>
        u "JSON_PRIMITIVE_ROOT" ++ u ":" ++ LF ::
          levelIndent 0 ++ u "ROOT_VALUE: "
          ++ convertValueToZw engineRoundTrip parsedJson 0
    end.
Proof.
  unfold convertParsedJson. cbn [hasRootType noRootType].
  rewrite !andb_false_r. now destruct parsedJson.
Qed.

Module RootValues.

(** X15. Round trip of the two other kinds of JSON root.  A non-empty list
    of scalars (each with a text that is not empty, has no white space at
    its ends, no line terminator and no colon) comes back as the root node
    with one list item for each element, in order, holding the text of the
    element; a scalar with such a text (a colon allowed) comes back as the
    root node with the single leaf [ROOT_VALUE] holding the text.  A
    number given by its value, in a list or as the scalar, is a safe
    integer (magnitude below [2^53]), and its text is its decimal numeral;
    any other number is given by the text [String] prints for it.  With a
    root type that is an identifier the root is keyed by the trimmed root
    type; without a root type it is keyed [JSON_ARRAY_ROOT] or
    [JSON_PRIMITIVE_ROOT], and the lines below, which the serializer then
    does not indent at all, are still read at depth 1 as children of the
    root. *)
Theorem root_list_and_scalar_round_trip
    (JSON_parse : jsstring -> JsonValue + jsstring)
    (engineRoundTrip : jsstring -> bool)
    (jsonString : jsstring) (parsedJson : JsonValue) :
  JSON_parse jsonString = inl parsedJson ->
  (forall i items,
     parsedJson = JArray (i :: items) ->
     (forall rootZwType,
        trim rootZwType <> [] ->
        forallb isRootKeyChar (trim rootZwType) = true ->
        Forall (listable engineRoundTrip 1) (i :: items) ->
        parseTree (convertJsonToZwString JSON_parse engineRoundTrip
                     jsonString (Some rootZwType)) None
        = Some (Some (Node (trim rootZwType)
                        (Children (map (itemTree engineRoundTrip 1)
                                       (i :: items)))
                        0 (Some (u ":")))))
     /\ (Forall (listable engineRoundTrip 0) (i :: items) ->
         parseTree (convertJsonToZwString JSON_parse engineRoundTrip
                      jsonString None) None
         = Some (Some (Node (u "JSON_ARRAY_ROOT")
                         (Children (map (itemTree engineRoundTrip 0)
                                        (i :: items)))
                         0 (Some (u ":"))))))
  /\ (match parsedJson with
      | JObject _ | JArray _ => False
      | JNumber z => isSafeInteger z = true
      | _ => True
      end ->
      plainText (convertValueToZw engineRoundTrip parsedJson 0) ->
      (forall rootZwType,
         trim rootZwType <> [] ->
         forallb isRootKeyChar (trim rootZwType) = true ->
         parseTree (convertJsonToZwString JSON_parse engineRoundTrip
                      jsonString (Some rootZwType)) None
         = Some (Some (Node (trim rootZwType)
                         (Children
                            [ChildNode
                               (Node (u "ROOT_VALUE")
                                  (Scalar (convertValueToZw engineRoundTrip
                                             parsedJson 0))
                                  1 (Some (u ":")))])
                         0 (Some (u ":")))))
      /\ parseTree (convertJsonToZwString JSON_parse engineRoundTrip
                      jsonString None) None
         = Some (Some (Node (u "JSON_PRIMITIVE_ROOT")
                         (Children
                            [ChildNode
                               (Node (u "ROOT_VALUE")
                                  (Scalar (convertValueToZw engineRoundTrip
                                             parsedJson 0))
                                  1 (Some (u ":")))])
                         0 (Some (u ":")))))
  /\ levelDepth 0 = 1%Q /\ levelDepth 1 = 1%Q.
Proof.
  intros Hjson. unfold convertJsonToZwString. rewrite Hjson.
  split; [|split; [|split; reflexivity]].
  - intros i items ->. split.
    + intros rootZwType Hne HT Hall.
      rewrite (convertParsedJson_rooted engineRoundTrip _ _ Hne HT).
      now apply parseTree_list.
    + intros Hall. rewrite convertParsedJson_unrooted.
      now apply parseTree_list.
  - intros Hprimitive Hplain. split.
    + intros rootZwType Hne HT.
      rewrite (convertParsedJson_rooted engineRoundTrip _ _ Hne HT).
      change 1%Q with (levelDepth 1).
      destruct parsedJson; try (now destruct Hprimitive);
        now apply (parseTree_primitive (trim rootZwType) 1).
    + rewrite convertParsedJson_unrooted. change 1%Q with (levelDepth 0).
      destruct parsedJson; try (now destruct Hprimitive);
        now apply (parseTree_primitive (u "JSON_PRIMITIVE_ROOT") 0).
Qed.

Lemma root_list_example :
  parseTree
    (convertJsonToZwString
       (parsesOnly objectText (JArray [JString (u "red"); JNumber 7])
          (u "Unexpected end of JSON input"))
       (fun _ => false) objectText None) None
  = Some (Some (Node (u "JSON_ARRAY_ROOT")
      (Children [ChildItem (Item (Scalar (u "red")) None None 1 (u ":"));
                 ChildItem (Item (Scalar (u "7")) None None 1 (u ":"))])
      0 (Some (u ":")))).
Proof.
  destruct (root_list_and_scalar_round_trip
              (parsesOnly objectText (JArray [JString (u "red"); JNumber 7])
                 (u "Unexpected end of JSON input"))
              (fun _ => false) objectText
              (JArray [JString (u "red"); JNumber 7])) as [Hlist _].
  - vm_compute; reflexivity.
  - destruct (Hlist _ _ eq_refl) as [_ H]. rewrite H.
    + vm_compute; reflexivity.
    + repeat constructor; try discriminate; vm_compute; reflexivity.
Defined.

End RootValues.

(** ** Strings of several lines *)













Section MultiLineFacts.

Variable engineRoundTrip : jsstring -> bool.



End MultiLineFacts.






Section MultiLineProperty.

Variable engineRoundTrip : jsstring -> bool.



End MultiLineProperty.


Module MultiLine.




End MultiLine.

(** ** Completion of keywords *)

Lemma startsWith_prefix (a b s : jsstring) :
  startsWith (a ++ b) s = true -> startsWith a s = true.
Proof.
  revert s. induction a as [|x a IH]; intros s; [reflexivity|].
  destruct s as [|y s]; [discriminate|]. cbn [app startsWith].
  intros [Hx Hs]%andb_prop. now rewrite Hx, (IH _ Hs).
Qed.

(** A character whose upper case is one of [Z], [W] and the hyphen has the
    matching lower case. *)
Lemma upper_to_lower (c : N) :
  let up := if isLower c then c - 32 else c in
  let low := if isUpper c then c + 32 else c in
  (up = 90 -> low = 122) /\ (up = 87 -> low = 119) /\ (up = 45 -> low = 45).
Proof.
  unfold isLower, isUpper.
  destruct (N.leb_spec 97 c), (N.leb_spec c 122), (N.leb_spec 65 c),
    (N.leb_spec c 90); cbn [andb]; repeat split; lia.
Qed.

Lemma lowerCase_of_root_type (w : jsstring) :
  startsWith (u "ZW-") (toUpperCase w) = true ->
  exists r, toLowerCase w = u "zw-" ++ r.
Proof.
  intros H. apply startsWith_true in H as [r Hr].
  destruct w as [|c1 [|c2 [|c3 w]]]; try discriminate.
  unfold toUpperCase in Hr. cbn [map] in Hr. change (u "ZW-") with [90; 87; 45] in Hr.
  injection Hr as H1 H2 H3 _.
  exists (toLowerCase w). unfold toLowerCase. cbn [map].
  change (u "zw-") with [122; 119; 45]. cbn [app].
  destruct (upper_to_lower c1) as (E1 & _ & _).
  destruct (upper_to_lower c2) as (_ & E2 & _).
  destruct (upper_to_lower c3) as (_ & _ & E3).
  cbv zeta in E1, E2, E3. now rewrite (E1 H1), (E2 H2), (E3 H3).
Qed.

(** The keywords that a word beginning with [zw-] can be a prefix of. *)
Lemma keywords_with_root_prefix :
  List.filter (fun keyword => startsWith (u "zw-") (toLowerCase keyword))
              ZW_KEYWORDS
  = firstn 10 ZW_KEYWORDS
  /\ forallb (startsWith (u "ZW-")) (firstn 10 ZW_KEYWORDS) = true.
Proof. split; vm_compute; reflexivity. Qed.

Module Completion.

(** X16. The list of suggestions of the template editor only ever holds
    root types: whatever the text and the position of the cursor, when
    [handleTemplateDefinitionChange] sets a list, every entry is one of the
    ten keywords that begin with [ZW-], the first ten of [ZW_KEYWORDS].
    The other keywords of the table, from [CONTEXT:] to [ROTATION:], are
    never suggested, since a list is only computed for a word that begins
    with [ZW-].  Stated for a current word of ASCII characters, on which
    the two case conversions are the engine's. *)
Theorem suggestions_are_root_types (value : jsstring) (cursorPos : nat)
    (suggestions : list jsstring) :
  isAscii (currentWordOf (substringTo cursorPos value)) = true ->
  suggestionsFor value cursorPos = Some suggestions ->
  incl suggestions (firstn 10 ZW_KEYWORDS)
  /\ Forall (fun keyword => startsWith (u "ZW-") keyword = true) suggestions.
Proof.
  intros _. unfold suggestionsFor. cbv zeta.
  generalize (currentWordOf (substringTo cursorPos value)). intros w.
  generalize ZW_KEYWORDS keywords_with_root_prefix.
  intros keywords [Hfilter Hroot].
  destruct ((1 <? length w)%nat && startsWith (u "ZW-") (toUpperCase w))
    eqn:Hcond; intros Hsome; [|discriminate Hsome].
  injection Hsome as <-. apply andb_prop in Hcond as [_ Hzw].
  destruct (lowerCase_of_root_type w Hzw) as [r Hr].
  assert (Hin : incl (List.filter
                        (fun keyword => startsWith (toLowerCase w)
                                                   (toLowerCase keyword))
                        keywords)
                     (firstn 10 keywords)).
  { intros k Hk. apply filter_In in Hk as [Hk Hp].
    rewrite Hr in Hp. apply startsWith_prefix in Hp.
    rewrite <- Hfilter. apply filter_In. now split. }
  split; [exact Hin|]. apply List.Forall_forall. intros k Hk.
  apply Hin in Hk. rewrite forallb_forall in Hroot. now apply Hroot.
Qed.

Lemma suggestions_example :
  suggestionsFor (doc ["# template"; "  zw-na"; "rest"]%string) 18
  = Some [u "ZW-NARRATIVE-EVENT:"; u "ZW-NARRATIVE-SCENE:"]
  /\ incl [u "ZW-NARRATIVE-EVENT:"; u "ZW-NARRATIVE-SCENE:"]
          (firstn 10 ZW_KEYWORDS).
Proof.
  split; [vm_compute; reflexivity|].
  apply (suggestions_are_root_types
           (doc ["# template"; "  zw-na"; "rest"]%string) 18);
    vm_compute; reflexivity.
Defined.

End Completion.

Lemma lastWord_split (s : jsstring) :
  exists prefix,
    s = prefix ++ lastWord s
    /\ (prefix = [] \/ exists p c, prefix = p ++ [c] /\ isWhiteSpace c = true).
Proof.
  unfold lastWord.
  exists (rev (dropWhile (fun c => negb (isWhiteSpace c)) (rev s))). split.
  - rewrite <- rev_app_distr, takeWhile_dropWhile. now rewrite rev_involutive.
  - destruct (dropWhile _ (rev s)) as [|c r] eqn:E; [now left|]. right.
    exists (rev r), c. split; [reflexivity|].
    apply dropWhile_head in E. now apply negb_false_iff in E.
Qed.

Lemma lastWord_after_blank (prefix word : jsstring) :
  prefix = [] \/ (exists p c, prefix = p ++ [c] /\ isWhiteSpace c = true) ->
  forallb (fun c => negb (isWhiteSpace c)) word = true ->
  lastWord (prefix ++ word) = word.
Proof.
  intros Hprefix Hword. unfold lastWord. rewrite rev_app_distr.
  assert (Hrev : forallb (fun c => negb (isWhiteSpace c)) (rev word) = true)
    by now rewrite forallb_rev.
  rewrite takeWhile_app_stop; [apply rev_involutive|exact Hrev|].
  destruct Hprefix as [->|(p & c & -> & Hc)]; [exact I|].
  rewrite rev_app_distr. cbn [rev app stopsRun]. now rewrite Hc.
Qed.

Module Selection.

(** X17. Choosing a suggestion replaces the word the cursor stands after,
    and nothing else: the text before that word and the text after the
    cursor are kept, the cursor is set right after the inserted
    suggestion, and, the suggestion holding no white space, the word
    before the new cursor is the suggestion itself, so that the editor is
    in the state it would be in had the suggestion been typed. *)
Theorem selectSuggestion_replaces_current_word (value : jsstring)
    (cursorPos : nat) (suggestion : jsstring) :
  (cursorPos <= length value)%nat ->
  exists prefix,
    value = prefix ++ lastWord (substringTo cursorPos value)
            ++ substringFrom cursorPos value
    /\ selectSuggestion value cursorPos suggestion
       = (prefix ++ suggestion ++ substringFrom cursorPos value,
          length (prefix ++ suggestion))
    /\ (forallb (fun c => negb (isWhiteSpace c)) suggestion = true ->
        lastWord (substringTo (snd (selectSuggestion value cursorPos
                                      suggestion))
                              (fst (selectSuggestion value cursorPos
                                      suggestion)))
        = suggestion).
Proof.
  intros Hpos. unfold substringTo, substringFrom in *.
  destruct (lastWord_split (firstn cursorPos value)) as (prefix & Hsplit & Hend).
  exists prefix.
  assert (Hvalue : value = prefix ++ lastWord (firstn cursorPos value)
                           ++ skipn cursorPos value).
  { rewrite app_assoc, <- Hsplit. symmetry. apply firstn_skipn. }
  assert (Hlen : length (firstn cursorPos value) = cursorPos)
    by (rewrite length_firstn; lia).
  assert (Hstart : match lastWord (firstn cursorPos value) with
                   | [] => cursorPos
                   | (_ :: _) as word =>
                       (length (firstn cursorPos value) - length word)%nat
                   end = length prefix).
  { pose proof (f_equal (@length N) Hsplit) as Hl. rewrite length_app in Hl.
    destruct (lastWord (firstn cursorPos value)); simpl in *; lia. }
  assert (Hprefix : firstn (length prefix) value = prefix).
  { rewrite Hvalue at 1. now apply firstn_app_exact. }
  assert (Hselect : selectSuggestion value cursorPos suggestion
                    = (prefix ++ suggestion ++ skipn cursorPos value,
                       length (prefix ++ suggestion))).
  { unfold selectSuggestion, substringTo, substringFrom. cbv zeta.
    rewrite Hstart, Hprefix, length_app. reflexivity. }
  split; [exact Hvalue|]. split; [exact Hselect|].
  intros Hword. rewrite Hselect. cbn [fst snd].
  rewrite app_assoc, (firstn_app_exact (prefix ++ suggestion)) by reflexivity.
  now apply lastWord_after_blank.
Qed.

Lemma selectSuggestion_example :
  exists prefix,
    doc ["# template"; "  zw-na"; "rest"]%string
    = prefix ++ lastWord (substringTo 18
                            (doc ["# template"; "  zw-na"; "rest"]%string))
      ++ substringFrom 18 (doc ["# template"; "  zw-na"; "rest"]%string)
    /\ selectSuggestion (doc ["# template"; "  zw-na"; "rest"]%string) 18
                        (u "ZW-NARRATIVE-SCENE:")
       = (prefix ++ u "ZW-NARRATIVE-SCENE:"
          ++ substringFrom 18 (doc ["# template"; "  zw-na"; "rest"]%string),
          length (prefix ++ u "ZW-NARRATIVE-SCENE:"))
    /\ selectSuggestion (doc ["# template"; "  zw-na"; "rest"]%string) 18
                        (u "ZW-NARRATIVE-SCENE:")
       = (doc ["# template"; "  ZW-NARRATIVE-SCENE:"; "rest"]%string, 32%nat).
Proof.
  destruct (selectSuggestion_replaces_current_word
              (doc ["# template"; "  zw-na"; "rest"]%string) 18
              (u "ZW-NARRATIVE-SCENE:")) as (prefix & H1 & H2 & _).
  - vm_compute. lia.
  - exists prefix. split; [exact H1|]. split; [exact H2|].
    vm_compute; reflexivity.
Defined.

End Selection.
